(** * Motion and camera-control core of the three.js space scene

    A shallow embedding of the scheduler ([GameLoop]), the orbital
    kinematics ([Planet], [SpaceScene.update]), picking
    ([SpaceScene.onMouseClick]) and the camera controller
    ([CameraController]) of the repository, with the properties the
    specification states about them.

    JavaScript numbers are modelled by exact numbers: rationals [Q] where
    the code only adds, multiplies, divides and compares, reals [R] where it
    calls [Math.cos] and [Math.sin].  Rounding of IEEE doubles is outside
    the model.  Objects of the three.js library (vectors, the raycaster,
    the orbit controls) are modelled from the behaviour of the methods the
    repository calls.  Plain objects used as tables are finite maps read
    through the prototype chain: a name the table does not hold may still
    be one it inherits from [Object.prototype]. *)

From Stdlib Require Import QArith Qround Qminmax ZArith Lia List.
From Stdlib Require Import Reals Lra Lqa.
From stdpp Require Import gmap strings.
Import ListNotations.

(** * Frame scheduler: [GameLoop] *)

Module GameLoop.
Local Open Scope Q_scope.

(** A callback is a JavaScript function; only its identity matters. *)
Definition Callback := nat.

(** What the loop does to the outside world, in order. *)
Inductive Call :=
| Update (f : Callback) (dt : Q)      (* this.updateCallback(dt) *)
| Render (f : Callback)               (* this.renderCallback() *)
| RequestAnimationFrame               (* requestAnimationFrame(this.loop) *)
| Warn (msg : string).                (* console.warn *)

Record GameLoop := mkGameLoop {
  isRunning : bool;
  lastTime : Q;
  targetFPS : Q;
  frameTime : Q;
  accumulator : Q;
  currentTime : Q;
  updateCallback : option Callback;
  renderCallback : option Callback
}.

Definition constructor : GameLoop :=
  {| isRunning := false; lastTime := 0; targetFPS := 60;
     frameTime := 1000 / 60; accumulator := 0; currentTime := 0;
     updateCallback := None; renderCallback := None |}.

(** [start(updateCallback, renderCallback)]; [now] is [performance.now()]. *)
Definition start (upd rnd : option Callback) (now : Q) (g : GameLoop)
  : GameLoop * list Call :=
  if isRunning g then (g, [Warn "Игровой цикл уже запущен"])
  else
    ({| isRunning := true; lastTime := now; targetFPS := targetFPS g;
        frameTime := frameTime g; accumulator := accumulator g;
        currentTime := currentTime g;
        updateCallback := upd; renderCallback := rnd |},
     [RequestAnimationFrame]).

Definition stop (g : GameLoop) : GameLoop :=
  {| isRunning := false; lastTime := lastTime g; targetFPS := targetFPS g;
     frameTime := frameTime g; accumulator := accumulator g;
     currentTime := currentTime g;
     updateCallback := updateCallback g; renderCallback := renderCallback g |}.

Definition setTargetFPS (fps : Q) (g : GameLoop) : GameLoop :=
  {| isRunning := isRunning g; lastTime := lastTime g; targetFPS := fps;
     frameTime := 1000 / fps; accumulator := accumulator g;
     currentTime := currentTime g;
     updateCallback := updateCallback g; renderCallback := renderCallback g |}.

Definition set_accumulator (a : Q) (g : GameLoop) : GameLoop :=
  {| isRunning := isRunning g; lastTime := lastTime g;
     targetFPS := targetFPS g; frameTime := frameTime g; accumulator := a;
     currentTime := currentTime g;
     updateCallback := updateCallback g; renderCallback := renderCallback g |}.

Definition callUpdate (g : GameLoop) : list Call :=
  match updateCallback g with
  | Some f => [Update f (frameTime g / 1000)]
  | None => []
  end.

Definition callRender (g : GameLoop) : list Call :=
  match renderCallback g with
  | Some f => [Render f]
  | None => []
  end.

(** [while (this.accumulator >= this.frameTime) { ... }].  The loop does not
    end when [frameTime <= 0]; [fuel] bounds the iterations and [None] means
    the bound was reached. *)
Fixpoint while_accumulator (fuel : nat) (g : GameLoop) (calls : list Call)
  : option (GameLoop * list Call) :=
  if Qle_bool (frameTime g) (accumulator g) then
    match fuel with
    | O => None
    | S fuel' =>
        while_accumulator fuel'
          (set_accumulator (accumulator g - frameTime g) g)
          (calls ++ callUpdate g)
    end
  else Some (g, calls).

(** [loop(timestamp)]. *)
Definition loop (fuel : nat) (timestamp : Q) (g : GameLoop)
  : option (GameLoop * list Call) :=
  if negb (isRunning g) then Some (g, [])
  else
    let deltaTime := timestamp - lastTime g in
    let deltaTime := Qmin deltaTime 50 in
    let g1 :=
      {| isRunning := isRunning g; lastTime := timestamp;
         targetFPS := targetFPS g; frameTime := frameTime g;
         accumulator := accumulator g + deltaTime;
         currentTime := timestamp;
         updateCallback := updateCallback g;
         renderCallback := renderCallback g |} in
    match while_accumulator fuel g1 [] with
    | None => None
    | Some (g2, calls) =>
        Some (g2, calls ++ callRender g2 ++ [RequestAnimationFrame])
    end.

(** The browser calls [loop] once per frame; a frame that comes [d]
    milliseconds after the previous one has timestamp [lastTime + d]. *)
Fixpoint frames (fuel : nat) (deltas : list Q) (g : GameLoop)
  : option (GameLoop * list Call) :=
  match deltas with
  | [] => Some (g, [])
  | d :: rest =>
      match loop fuel (lastTime g + d) g with
      | None => None
      | Some (g1, calls1) =>
          match frames fuel rest g1 with
          | None => None
          | Some (g2, calls2) => Some (g2, calls1 ++ calls2)
          end
      end
  end.

Definition is_update (c : Call) : bool :=
  match c with Update _ _ => true | _ => false end.

Definition updates (calls : list Call) : nat :=
  length (List.filter is_update calls).

Definition is_render (c : Call) : bool :=
  match c with Render _ => true | _ => false end.

Definition Qsum (l : list Q) : Q := fold_right Qplus 0 l.

(** The loop as [SpaceGameApp.startGameLoop] leaves it: started at time 0
    with both callbacks installed. *)
Definition started : GameLoop :=
  fst (start (Some 0%nat) (Some 1%nat) 0 constructor).

(** Iterations that empty an accumulator below [h + 50]. *)
Definition fuel_for (h : Q) : nat := S (Z.to_nat (Qceiling (50 / h))).

Definition renders (calls : list Call) : nat :=
  length (List.filter is_render calls).

Definition is_request (c : Call) : bool :=
  match c with RequestAnimationFrame => true | _ => false end.

Definition requests (calls : list Call) : nat :=
  length (List.filter is_request calls).

(** [getCurrentFPS()]: [Math.round(1000 / (currentTime - lastTime))];
    [None] when the quotient is not a finite number. *)
Definition getCurrentFPS (g : GameLoop) : option Z :=
  let d := currentTime g - lastTime g in
  if Qeq_bool d 0 then None else Some (Qfloor (1000 / d + 1 / 2)).

(** Every update call of the list passes the step [dt]. *)
Definition updates_pass (dt : Q) (calls : list Call) : Prop :=
  Forall (fun c => match c with Update _ d => d = dt | _ => True end) calls.

(** [g'] runs with the callbacks and the step of [g]. *)
Definition same_setup (g g' : GameLoop) : Prop :=
  isRunning g' = isRunning g /\ frameTime g' = frameTime g /\
  updateCallback g' = updateCallback g /\ renderCallback g' = renderCallback g.

End GameLoop.

(** * Orbital kinematics: [Planet] *)

Module Planet.
Local Open Scope R_scope.

Record Vector3 := mkVector3 { x : R; y : R; z : R }.

Record Orbit := mkOrbit { orbit_radius : R; orbit_speed : R }.

(** Identity of a three.js object ([===] on objects). *)
Definition Object3D := nat.

Record Mesh := mkMesh {
  mesh_id : Object3D;
  mesh_rotation : Vector3;
  mesh_scale : R;
  emissiveIntensity : R
}.

(** [selectionGlow]: a child of the mesh, 1.2 times its radius. *)
Record Glow := mkGlow { glow_id : Object3D; glow_opacity : R }.

Record Line := mkLine { line_color : Z; line_opacity : R }.

Record Config := mkConfig {
  config_name : string;
  config_radius : R;
  config_position : Vector3;
  config_rotation : option Vector3;
  config_orbit : option Orbit;
  config_hasRings : bool
}.

Record Planet := mkPlanet {
  name : string;
  radius : R;
  rotation : Vector3;
  orbit : option Orbit;
  hasRings : bool;
  isSelected : bool;
  originalScale : R;
  selectionGlow : option Glow;
  group_position : Vector3;
  orbitGroup_position : Vector3;
  mesh : Mesh;
  rings : option R;                (* rings.rotation.z *)
  orbitLine : option Line;
  time : R
}.

Definition zero : Vector3 := mkVector3 0 0 0.

(** [new Planet(config)]; [oid] is the identity given to the new mesh, the
    glow child gets the next one. *)
Definition constructor (oid : Object3D) (config : Config) : Planet :=
  {| name := config_name config;
     radius := config_radius config;
     rotation := match config_rotation config with
                 | Some r => r
                 | None => mkVector3 0 (1/100) 0
                 end;
     orbit := config_orbit config;
     hasRings := config_hasRings config;
     isSelected := false;
     originalScale := 1;
     selectionGlow := Some (mkGlow (S oid) 0);
     group_position := match config_orbit config with
                       | Some _ => zero
                       | None => config_position config
                       end;
     orbitGroup_position := match config_orbit config with
                            | Some _ => config_position config
                            | None => zero
                            end;
     mesh := mkMesh oid zero 1
               (if String.eqb (config_name config) "Солнце" then 8/10 else 1);
     rings := if config_hasRings config then Some 0 else None;
     orbitLine := match config_orbit config with
                  | Some _ => Some (mkLine 0x444444%Z (3/10))
                  | None => None
                  end;
     time := 0 |}.

Definition getMesh (p : Planet) : Object3D := mesh_id (mesh p).

Definition set_glow_opacity (o : R) (g : option Glow) : option Glow :=
  match g with
  | Some gl => Some (mkGlow (glow_id gl) o)
  | None => None
  end.

(** [setSelected(selected)]. *)
Definition setSelected (selected : bool) (p : Planet) : Planet :=
  {| name := name p; radius := radius p; rotation := rotation p;
     orbit := orbit p; hasRings := hasRings p;
     isSelected := selected;
     originalScale := originalScale p;
     selectionGlow :=
       set_glow_opacity (if selected then 3/10 else 0) (selectionGlow p);
     group_position := group_position p;
     orbitGroup_position := orbitGroup_position p;
     mesh := mkMesh (mesh_id (mesh p)) (mesh_rotation (mesh p))
               (if selected then 11/10 else originalScale p)
               (emissiveIntensity (mesh p));
     rings := rings p;
     orbitLine :=
       match orbitLine p with
       | Some _ => Some (if selected then mkLine 0x00ffff%Z (8/10)
                         else mkLine 0x444444%Z (3/10))
       | None => None
       end;
     time := time p |}.

(** [updateSunEffects()], on the mesh. *)
Definition updateSunEffects (t : R) (m : Mesh) : Mesh :=
  mkMesh (mesh_id m) (mesh_rotation m)
    (1 + sin (t * 2) * (5/100))
    (8/10 + sin (t * 3) * (2/10)).

(** [update(deltaTime, totalTime)]. *)
Definition update (deltaTime totalTime : R) (p : Planet) : Planet :=
  let m := mesh p in
  let rot :=
    mkVector3 (x (mesh_rotation m) + x (rotation p) * deltaTime)
              (y (mesh_rotation m) + y (rotation p) * deltaTime)
              (z (mesh_rotation m) + z (rotation p) * deltaTime) in
  let m1 := mkMesh (mesh_id m) rot (mesh_scale m) (emissiveIntensity m) in
  {| name := name p; radius := radius p; rotation := rotation p;
     orbit := orbit p; hasRings := hasRings p;
     isSelected := isSelected p;
     originalScale := originalScale p;
     selectionGlow := selectionGlow p;
     group_position := group_position p;
     orbitGroup_position :=
       match orbit p with
       | Some o =>
           let angle := totalTime * orbit_speed o in
           let x := cos angle * orbit_radius o in
           let z := sin angle * orbit_radius o in
           mkVector3 x 0 z
       | None => orbitGroup_position p
       end;
     mesh := if String.eqb (name p) "Солнце"
             then updateSunEffects totalTime m1 else m1;
     rings := match rings p with
              | Some rz => Some (rz + (5/1000) * deltaTime)
              | None => None
              end;
     orbitLine := orbitLine p;
     time := totalTime |}.

(** The points of [createOrbitLine()], for [i] from 0 to [segments]. *)
Definition createOrbitLine (o : Orbit) : list Vector3 :=
  let segments := 128%nat in
  map (fun i : nat =>
         let angle := INR i / INR segments * PI * 2 in
         mkVector3 (cos angle * orbit_radius o) 0 (sin angle * orbit_radius o))
      (seq 0 (S segments)).

(** The position the specification gives for an orbit at time [t]. *)
Definition orbital_position (o : Orbit) (t : R) : Vector3 :=
  mkVector3 (orbit_radius o * cos (orbit_speed o * t)) 0
            (orbit_radius o * sin (orbit_speed o * t)).

(** The Earth of [SpaceScene.createPlanets]. *)
Definition earth : Planet :=
  constructor 2%nat
    {| config_name := "Земля"; config_radius := 25/10;
       config_position := mkVector3 45 0 0;
       config_rotation := Some (mkVector3 0 (1/100) 0);
       config_orbit := Some (mkOrbit 45 (1/100));
       config_hasRings := false |}.

End Planet.

(** * The scene: clock and picking ([SpaceScene]) *)

Module SpaceScene.
Import Planet.
Local Open Scope R_scope.

(** One entry of the array that [Raycaster.intersectObjects] returns,
    sorted by increasing [distance]. *)
Record Intersection := mkIntersection { distance : R; object : Object3D }.

Record MouseEvent := mkMouseEvent { clientX : R; clientY : R }.

(** What a click does to the planets and to the page, in order. *)
Inductive Effect :=
| SetSelected (i : nat) (selected : bool)   (* planets[i].setSelected(..) *)
| ShowPlanetInfo (i : nat)
| HidePlanetInfo.

Record SpaceScene := mkSpaceScene {
  planets : list Planet;
  time : R;
  camera : bool;                    (* whether [setCamera] was called *)
  mouse : R * R;
  selectedPlanet : option nat;      (* an element of [planets], by index *)
  innerWidth : R;
  innerHeight : R
}.

Definition set_selection (ps : list Planet) (sel : option nat) (s : SpaceScene)
  : SpaceScene :=
  {| planets := ps; time := time s; camera := camera s; mouse := mouse s;
     selectedPlanet := sel;
     innerWidth := innerWidth s; innerHeight := innerHeight s |}.

(** [deselectPlanet()]. *)
Definition deselectPlanet (s : SpaceScene) : SpaceScene * list Effect :=
  match selectedPlanet s with
  | Some i =>
      (set_selection (alter (setSelected false) i (planets s)) None s,
       [SetSelected i false; HidePlanetInfo])
  | None => (s, [HidePlanetInfo])
  end.

(** [selectPlanet(planet)], with [planet = planets[i]]. *)
Definition selectPlanet (i : nat) (s : SpaceScene) : SpaceScene * list Effect :=
  let '(s1, e1) := deselectPlanet s in
  (set_selection (alter (setSelected true) i (planets s1)) (Some i) s1,
   e1 ++ [SetSelected i true; ShowPlanetInfo i]).

(** [this.planets.find(planet => planet.getMesh() === o)], as an index. *)
Fixpoint find_planet (o : Object3D) (ps : list Planet) : option nat :=
  match ps with
  | [] => None
  | p :: rest =>
      if Nat.eqb (getMesh p) o then Some 0%nat
      else option_map S (find_planet o rest)
  end.

(** [onMouseClick(event)]; [intersects] is what the raycaster returns for
    the ray through the pointer. *)
Definition onMouseClick (event : MouseEvent) (intersects : list Intersection)
    (s : SpaceScene) : SpaceScene * list Effect :=
  if negb (camera s) then (s, [])
  else
    let s1 :=
      {| planets := planets s; time := time s; camera := camera s;
         mouse := (clientX event / innerWidth s * 2 - 1,
                   - (clientY event / innerHeight s) * 2 + 1);
         selectedPlanet := selectedPlanet s;
         innerWidth := innerWidth s; innerHeight := innerHeight s |} in
    match intersects with
    | first :: _ =>
        match find_planet (object first) (planets s1) with
        | Some i => selectPlanet i s1
        | None => (s1, [])
        end
    | [] => deselectPlanet s1
    end.

(** [update(deltaTime)], the part that moves the planets. *)
Definition update (deltaTime : R) (s : SpaceScene) : SpaceScene :=
  let t := time s + deltaTime in
  {| planets := map (Planet.update deltaTime t) (planets s);
     time := t; camera := camera s; mouse := mouse s;
     selectedPlanet := selectedPlanet s;
     innerWidth := innerWidth s; innerHeight := innerHeight s |}.

(** One [update] per logic step. *)
Definition updates (steps : list R) (s : SpaceScene) : SpaceScene :=
  fold_left (fun s dt => update dt s) steps s.

Definition Rsum (l : list R) : R := fold_right Rplus 0 l.

(** A scene with the Sun and the Earth, camera set, nothing selected. *)
Definition sun : Planet :=
  constructor 0%nat
    {| config_name := "Солнце"; config_radius := 8;
       config_position := mkVector3 0 0 0;
       config_rotation := Some (mkVector3 0 (1/100) 0);
       config_orbit := None;
       config_hasRings := false |}.

Definition demo : SpaceScene :=
  {| planets := [sun; earth]; time := 0; camera := true; mouse := (0, 0);
     selectedPlanet := None; innerWidth := 1920; innerHeight := 1080 |}.

(** The same scene after a click whose nearest hit is the Earth's mesh. *)
Definition earth_picked : SpaceScene :=
  fst (onMouseClick (mkMouseEvent 960 540) [mkIntersection 40 2%nat] demo).

(** The invariant of the selection: the planet [selectedPlanet] refers to
    is the one and only planet whose [isSelected] flag is set. *)
Definition selection_ok (s : SpaceScene) : Prop :=
  (forall i, selectedPlanet s = Some i -> is_Some (planets s !! i)) /\
  (forall i p, planets s !! i = Some p ->
               (isSelected p = true <-> selectedPlanet s = Some i)).

(** After a click on empty space: nothing is selected. *)
Definition all_clear (s : SpaceScene) : Prop :=
  selectedPlanet s = None /\
  forall k q, planets s !! k = Some q -> isSelected q = false.

End SpaceScene.

(** * The parts of three.js the camera controller calls *)

Module Three.
Local Open Scope Q_scope.

Record Vector3 := mkVector3 { x : Q; y : Q; z : Q }.

Record Quaternion := mkQuaternion { qx : Q; qy : Q; qz : Q; qw : Q }.

(** Equality of vectors as numbers ([Q] has several fractions per number). *)
Definition veq (a b : Vector3) : Prop :=
  x a == x b /\ y a == y b /\ z a == z b.

Definition veqb (a b : Vector3) : bool :=
  Qeq_bool (x a) (x b) && Qeq_bool (y a) (y b) && Qeq_bool (z a) (z b).

Definition Qltb (a b : Q) : bool := negb (Qle_bool b a).

Definition add (a b : Vector3) : Vector3 :=
  mkVector3 (x a + x b) (y a + y b) (z a + z b).

Definition sub (a b : Vector3) : Vector3 :=
  mkVector3 (x a - x b) (y a - y b) (z a - z b).

Definition multiplyScalar (a : Vector3) (k : Q) : Vector3 :=
  mkVector3 (x a * k) (y a * k) (z a * k).

Definition divideScalar (a : Vector3) (k : Q) : Vector3 :=
  multiplyScalar a (1 / k).

Definition lengthSq (a : Vector3) : Q := x a * x a + y a * y a + z a * z a.

(** [this.lerpVectors(v1, v2, alpha)]. *)
Definition lerpVectors (v1 v2 : Vector3) (alpha : Q) : Vector3 :=
  mkVector3 (x v1 + (x v2 - x v1) * alpha)
            (y v1 + (y v2 - y v1) * alpha)
            (z v1 + (z v2 - z v1) * alpha).

(** [this.lerp(v, alpha)]. *)
Definition lerp (this v : Vector3) (alpha : Q) : Vector3 :=
  mkVector3 (x this + (x v - x this) * alpha)
            (y this + (y v - y this) * alpha)
            (z this + (z v - z this) * alpha).

(** [this.applyQuaternion(q)]. *)
Definition applyQuaternion (v : Vector3) (q : Quaternion) : Vector3 :=
  let tx := 2 * (qy q * z v - qz q * y v) in
  let ty := 2 * (qz q * x v - qx q * z v) in
  let tz := 2 * (qx q * y v - qy q * x v) in
  mkVector3 (x v + qw q * tx + qy q * tz - qz q * ty)
            (y v + qw q * ty + qz q * tx - qx q * tz)
            (z v + qw q * tz + qx q * ty - qy q * tx).

Record Camera := mkCamera { position : Vector3; quaternion : Quaternion }.

Record OrbitControls := mkOrbitControls { target : Vector3; enabled : bool }.

(** What the model cannot compute inside [Q] or does not own:
    [Math.sqrt], and [OrbitControls.update()], which re-derives the camera
    pose from the pointer input the controls have gathered. *)
Class Library := {
  Math_sqrt : Q -> Q;
  OrbitControls_update : Camera -> OrbitControls -> Camera * OrbitControls
}.

(** Controls with no pointer input pending and no limit in the way: the
    update leaves position and target where they are. *)
Definition keeps_pose (L : Library) : Prop :=
  forall cam orb,
    position (fst (OrbitControls_update cam orb)) = position cam /\
    target (snd (OrbitControls_update cam orb)) = target orb.

(** A square root inside [Q]: exact on squares of fractions, rounded down
    to 32 binary digits elsewhere. *)
Definition sqrt_down (q : Q) : Q :=
  Z.sqrt (Qnum q * Zpos (Qden q) * 4 ^ 32) # (Qden q * 2 ^ 32).

Definition idle : Library :=
  {| Math_sqrt := sqrt_down;
     OrbitControls_update := fun cam orb => (cam, orb) |}.

(** Controls with the distance limits that [SpaceGameApp.initControls]
    sets, [minDistance = 10] and [maxDistance = 1000], and no pointer input
    pending: the update of three.js clamps the distance of the camera from
    the target to the limits and puts the camera back at the clamped
    distance, in the direction it is in.  (A camera at the target itself has
    no direction; that case is left as it is here.) *)
Definition limited : Library :=
  {| Math_sqrt := sqrt_down;
     OrbitControls_update := fun cam orb =>
       let offset := sub (position cam) (target orb) in
       let radius := sqrt_down (lengthSq offset) in
       if Qeq_bool radius 0 then (cam, orb)
       else
         let clamped := Qmax 10 (Qmin 1000 radius) in
         (mkCamera (add (target orb) (multiplyScalar offset (clamped / radius)))
                   (quaternion cam),
          orb) |}.

Section WithLibrary.
Context {L : Library}.

Definition length (a : Vector3) : Q := Math_sqrt (lengthSq a).

(** [this.divideScalar(this.length() || 1)]. *)
Definition normalize (a : Vector3) : Vector3 :=
  let l := length a in
  divideScalar a (if Qeq_bool l 0 then 1 else l).

End WithLibrary.

End Three.

(** * The parts of JavaScript the code relies on *)

Module JavaScript.
Local Open Scope Q_scope.

(** The property names that a plain object inherits from
    [Object.prototype].  Reading one of them from an object that has no own
    property of that name gives a function (for "__proto__" the prototype
    itself): a truthy value that is no array and has no property
    [position], [push] or [indexOf]. *)
Definition Object_prototype : list string :=
  ["constructor"; "__defineGetter__"; "__defineSetter__"; "hasOwnProperty";
   "__lookupGetter__"; "__lookupSetter__"; "isPrototypeOf";
   "propertyIsEnumerable"; "toString"; "valueOf"; "__proto__";
   "toLocaleString"].

Definition inherited (name : string) : bool :=
  existsb (String.eqb name) Object_prototype.

(** How a call ends: it returns, or it throws a [TypeError]. *)
Inductive Completion (A : Type) :=
| Normal (a : A)
| TypeError.

Arguments Normal {A} a.
Arguments TypeError {A}.

(** A number: finite (its rounding is outside the model), infinite, or
    [NaN], which is also what [undefined] converts to. *)
Inductive Number :=
| Finite (q : Q)
| PosInfinity
| NegInfinity
| NaN.

(** [Math.min(a, b)] and [Math.max(a, b)]. *)
Definition Math_min (a b : Number) : Number :=
  match a, b with
  | NaN, _ | _, NaN => NaN
  | NegInfinity, _ | _, NegInfinity => NegInfinity
  | PosInfinity, n | n, PosInfinity => n
  | Finite p, Finite q => Finite (Qmin p q)
  end.

Definition Math_max (a b : Number) : Number :=
  match a, b with
  | NaN, _ | _, NaN => NaN
  | PosInfinity, _ | _, PosInfinity => PosInfinity
  | NegInfinity, n | n, NegInfinity => n
  | Finite p, Finite q => Finite (Qmax p q)
  end.

End JavaScript.

(** * Input state: [InputManager] *)

Module InputManager.
Import JavaScript.

Record InputManager := mkInputManager {
  keys : gset string;
  mouseButtons : gset Z
}.

Definition constructor : InputManager :=
  {| keys := ∅; mouseButtons := ∅ |}.

(** [handleKeyDown(event)] and [handleKeyUp(event)], with [event.code]. *)
Definition handleKeyDown (code : string) (im : InputManager) : InputManager :=
  {| keys := {[code]} ∪ keys im; mouseButtons := mouseButtons im |}.

Definition handleKeyUp (code : string) (im : InputManager) : InputManager :=
  {| keys := keys im ∖ {[code]}; mouseButtons := mouseButtons im |}.

Definition resetInput (im : InputManager) : InputManager :=
  {| keys := ∅; mouseButtons := ∅ |}.

Definition isKeyPressed (keyCode : string) (im : InputManager) : bool :=
  bool_decide (keyCode ∈ keys im).

(** A JavaScript object with boolean properties; reading a property the
    object does not have gives [undefined], which is falsy. *)
Definition JSObject := gmap string bool.

Definition truthy (v : option bool) : bool :=
  match v with Some b => b | None => false end.

(** [getWASDState()]: the object [{w, a, s, d}]. *)
Definition getWASDState (im : InputManager) : JSObject :=
  <["w" := isKeyPressed "KeyW" im]>
    (<["a" := isKeyPressed "KeyA" im]>
       (<["s" := isKeyPressed "KeyS" im]>
          (<["d" := isKeyPressed "KeyD" im]> ∅))).

(** [handleMouseDown(event)] and [handleMouseUp(event)], with
    [event.button]. *)
Definition handleMouseDown (button : Z) (im : InputManager) : InputManager :=
  {| keys := keys im; mouseButtons := {[button]} ∪ mouseButtons im |}.

Definition handleMouseUp (button : Z) (im : InputManager) : InputManager :=
  {| keys := keys im; mouseButtons := mouseButtons im ∖ {[button]} |}.

Definition isMouseButtonPressed (button : Z) (im : InputManager) : bool :=
  bool_decide (button ∈ mouseButtons im).

(** [isKeyCombinationPressed(keyCodes)]: [keyCodes.every(...)]. *)
Definition isKeyCombinationPressed (keyCodes : list string) (im : InputManager)
  : bool :=
  forallb (fun keyCode => isKeyPressed keyCode im) keyCodes.

(** The keys of a list go down one after the other. *)
Definition pressAll (keyCodes : list string) (im : InputManager) : InputManager :=
  fold_left (fun im code => handleKeyDown code im) keyCodes im.

(** The pointer part of the input manager. *)
Record Point := mkPoint { px : Q; py : Q }.

Record Pointer := mkPointer {
  mousePosition : Point;
  mouseDelta : Point;
  lastMousePosition : Point
}.

Definition pointer_constructor : Pointer :=
  {| mousePosition := mkPoint 0 0; mouseDelta := mkPoint 0 0;
     lastMousePosition := mkPoint 0 0 |}.

(** [handleMouseMove(event)], with [event.clientX] and [event.clientY]. *)
Definition handleMouseMove (clientX clientY : Q) (p : Pointer) : Pointer :=
  {| mousePosition := mkPoint clientX clientY;
     mouseDelta := mkPoint (clientX - px (mousePosition p))
                           (clientY - py (mousePosition p));
     lastMousePosition := mousePosition p |}.

Definition mouseMoves (events : list (Q * Q)) (p : Pointer) : Pointer :=
  fold_left (fun p e => handleMouseMove (fst e) (snd e) p) events p.

(** The deltas that the moves report, one per event. *)
Fixpoint mouseDeltas (events : list (Q * Q)) (p : Pointer) : list Point :=
  match events with
  | [] => []
  | e :: rest =>
      let p1 := handleMouseMove (fst e) (snd e) p in
      mouseDelta p1 :: mouseDeltas rest p1
  end.

Definition padd (a b : Point) : Point := mkPoint (px a + px b) (py a + py b).

(** Equality of points as numbers. *)
Definition peq (a b : Point) : Prop := px a == px b /\ py a == py b.

(** [getNormalizedMousePosition()], in a window of the given size. *)
Definition getNormalizedMousePosition (innerWidth innerHeight : Q) (p : Pointer)
  : Point :=
  mkPoint (px (mousePosition p) / innerWidth * 2 - 1)
          (- (py (mousePosition p) / innerHeight) * 2 + 1).

(** The callback lists, one per event type. *)
Definition Callback := nat.

Definition callbacks_constructor : gmap string (list Callback) :=
  <["keyDown" := []]> (<["keyUp" := []]> (<["mouseDown" := []]>
    (<["mouseUp" := []]> (<["mouseMove" := []]> (<["wheel" := []]> ∅))))).

(** [addCallback(eventType, callback)].  [this.callbacks] is a plain
    object: for an event type it has no list for, [this.callbacks[eventType]]
    is [undefined], unless the name is inherited from [Object.prototype];
    then it is a truthy value without [push], and the call throws. *)
Definition addCallback (eventType : string) (callback : Callback)
    (callbacks : gmap string (list Callback))
  : Completion (gmap string (list Callback)) :=
  match callbacks !! eventType with
  | Some l => Normal (<[eventType := l ++ [callback]]> callbacks)
  | None => if inherited eventType then TypeError else Normal callbacks
  end.

(** [indexOf] followed by [splice(index, 1)]: the first occurrence goes. *)
Fixpoint remove_first (callback : Callback) (l : list Callback) : list Callback :=
  match l with
  | [] => []
  | c :: rest => if Nat.eqb c callback then rest else c :: remove_first callback rest
  end.

(** [removeCallback(eventType, callback)]; for a name inherited from
    [Object.prototype] the value found has no [indexOf], and the call
    throws. *)
Definition removeCallback (eventType : string) (callback : Callback)
    (callbacks : gmap string (list Callback))
  : Completion (gmap string (list Callback)) :=
  match callbacks !! eventType with
  | Some l => Normal (<[eventType := remove_first callback l]> callbacks)
  | None => if inherited eventType then TypeError else Normal callbacks
  end.

End InputManager.

(** * The camera controller: [CameraController] *)

Module CameraController.
Import JavaScript Three InputManager.
Local Open Scope Q_scope.

(** Identity of a scene object; identity of a promise. *)
Definition Object3D := nat.
Definition Promise := nat.

(** A preset [{ position: [x, y, z], target: [x, y, z] }]. *)
Record Preset := mkPreset { preset_position : Vector3; preset_target : Vector3 }.

Record CameraController := mkCameraController {
  camera : Camera;
  orbitControls : OrbitControls;
  inputManager : option InputManager;
  wasdEnabled : bool;
  moveSpeed : Q;
  fastMoveMultiplier : Q;
  velocity : Vector3;
  direction : Vector3;
  presets : gmap string Preset;
  isAnimating : bool;
  animationDuration : Q;
  followTarget : option Object3D;
  followOffset : Vector3;
  followSpeed : Q;
  controlMode : string
}.

Definition default_presets : gmap string Preset :=
  <["overview" := mkPreset (mkVector3 0 100 200) (mkVector3 0 0 0)]>
    (<["sun" := mkPreset (mkVector3 0 20 50) (mkVector3 0 0 0)]>
       (<["earth" := mkPreset (mkVector3 45 10 20) (mkVector3 45 0 0)]>
          (<["saturn" := mkPreset (mkVector3 110 30 60) (mkVector3 110 0 0)]> ∅))).

Definition constructor (cam : Camera) (orb : OrbitControls)
    (im : option InputManager) : CameraController :=
  {| camera := cam; orbitControls := orb; inputManager := im;
     wasdEnabled := true; moveSpeed := 50; fastMoveMultiplier := 3;
     velocity := mkVector3 0 0 0; direction := mkVector3 0 0 0;
     presets := default_presets;
     isAnimating := false; animationDuration := 2000;
     followTarget := None; followOffset := mkVector3 10 10 10;
     followSpeed := 2 / 100;
     controlMode := "orbit" |}.

Definition set_camera (v : Camera) (c : CameraController) : CameraController :=
  {| camera := v; orbitControls := orbitControls c;
     inputManager := inputManager c; wasdEnabled := wasdEnabled c;
     moveSpeed := moveSpeed c; fastMoveMultiplier := fastMoveMultiplier c;
     velocity := velocity c; direction := direction c; presets := presets c;
     isAnimating := isAnimating c; animationDuration := animationDuration c;
     followTarget := followTarget c; followOffset := followOffset c;
     followSpeed := followSpeed c; controlMode := controlMode c |}.

Definition set_orbitControls (v : OrbitControls) (c : CameraController) : CameraController :=
  {| camera := camera c; orbitControls := v; inputManager := inputManager c;
     wasdEnabled := wasdEnabled c; moveSpeed := moveSpeed c;
     fastMoveMultiplier := fastMoveMultiplier c; velocity := velocity c;
     direction := direction c; presets := presets c;
     isAnimating := isAnimating c; animationDuration := animationDuration c;
     followTarget := followTarget c; followOffset := followOffset c;
     followSpeed := followSpeed c; controlMode := controlMode c |}.

Definition set_inputManager (v : option InputManager) (c : CameraController) : CameraController :=
  {| camera := camera c; orbitControls := orbitControls c; inputManager := v;
     wasdEnabled := wasdEnabled c; moveSpeed := moveSpeed c;
     fastMoveMultiplier := fastMoveMultiplier c; velocity := velocity c;
     direction := direction c; presets := presets c;
     isAnimating := isAnimating c; animationDuration := animationDuration c;
     followTarget := followTarget c; followOffset := followOffset c;
     followSpeed := followSpeed c; controlMode := controlMode c |}.

Definition set_wasdEnabled (v : bool) (c : CameraController) : CameraController :=
  {| camera := camera c; orbitControls := orbitControls c;
     inputManager := inputManager c; wasdEnabled := v;
     moveSpeed := moveSpeed c; fastMoveMultiplier := fastMoveMultiplier c;
     velocity := velocity c; direction := direction c; presets := presets c;
     isAnimating := isAnimating c; animationDuration := animationDuration c;
     followTarget := followTarget c; followOffset := followOffset c;
     followSpeed := followSpeed c; controlMode := controlMode c |}.

Definition set_moveSpeed (v : Q) (c : CameraController) : CameraController :=
  {| camera := camera c; orbitControls := orbitControls c;
     inputManager := inputManager c; wasdEnabled := wasdEnabled c;
     moveSpeed := v; fastMoveMultiplier := fastMoveMultiplier c;
     velocity := velocity c; direction := direction c; presets := presets c;
     isAnimating := isAnimating c; animationDuration := animationDuration c;
     followTarget := followTarget c; followOffset := followOffset c;
     followSpeed := followSpeed c; controlMode := controlMode c |}.

Definition set_direction (v : Vector3) (c : CameraController) : CameraController :=
  {| camera := camera c; orbitControls := orbitControls c;
     inputManager := inputManager c; wasdEnabled := wasdEnabled c;
     moveSpeed := moveSpeed c; fastMoveMultiplier := fastMoveMultiplier c;
     velocity := velocity c; direction := v; presets := presets c;
     isAnimating := isAnimating c; animationDuration := animationDuration c;
     followTarget := followTarget c; followOffset := followOffset c;
     followSpeed := followSpeed c; controlMode := controlMode c |}.

Definition set_presets (v : gmap string Preset) (c : CameraController) : CameraController :=
  {| camera := camera c; orbitControls := orbitControls c;
     inputManager := inputManager c; wasdEnabled := wasdEnabled c;
     moveSpeed := moveSpeed c; fastMoveMultiplier := fastMoveMultiplier c;
     velocity := velocity c; direction := direction c; presets := v;
     isAnimating := isAnimating c; animationDuration := animationDuration c;
     followTarget := followTarget c; followOffset := followOffset c;
     followSpeed := followSpeed c; controlMode := controlMode c |}.

Definition set_isAnimating (v : bool) (c : CameraController) : CameraController :=
  {| camera := camera c; orbitControls := orbitControls c;
     inputManager := inputManager c; wasdEnabled := wasdEnabled c;
     moveSpeed := moveSpeed c; fastMoveMultiplier := fastMoveMultiplier c;
     velocity := velocity c; direction := direction c; presets := presets c;
     isAnimating := v; animationDuration := animationDuration c;
     followTarget := followTarget c; followOffset := followOffset c;
     followSpeed := followSpeed c; controlMode := controlMode c |}.

Definition set_followTarget (v : option Object3D) (c : CameraController) : CameraController :=
  {| camera := camera c; orbitControls := orbitControls c;
     inputManager := inputManager c; wasdEnabled := wasdEnabled c;
     moveSpeed := moveSpeed c; fastMoveMultiplier := fastMoveMultiplier c;
     velocity := velocity c; direction := direction c; presets := presets c;
     isAnimating := isAnimating c; animationDuration := animationDuration c;
     followTarget := v; followOffset := followOffset c;
     followSpeed := followSpeed c; controlMode := controlMode c |}.

Definition set_followOffset (v : Vector3) (c : CameraController) : CameraController :=
  {| camera := camera c; orbitControls := orbitControls c;
     inputManager := inputManager c; wasdEnabled := wasdEnabled c;
     moveSpeed := moveSpeed c; fastMoveMultiplier := fastMoveMultiplier c;
     velocity := velocity c; direction := direction c; presets := presets c;
     isAnimating := isAnimating c; animationDuration := animationDuration c;
     followTarget := followTarget c; followOffset := v;
     followSpeed := followSpeed c; controlMode := controlMode c |}.

Definition set_followSpeed (v : Q) (c : CameraController) : CameraController :=
  {| camera := camera c; orbitControls := orbitControls c;
     inputManager := inputManager c; wasdEnabled := wasdEnabled c;
     moveSpeed := moveSpeed c; fastMoveMultiplier := fastMoveMultiplier c;
     velocity := velocity c; direction := direction c; presets := presets c;
     isAnimating := isAnimating c; animationDuration := animationDuration c;
     followTarget := followTarget c; followOffset := followOffset c;
     followSpeed := v; controlMode := controlMode c |}.

Definition set_controlMode (v : string) (c : CameraController) : CameraController :=
  {| camera := camera c; orbitControls := orbitControls c;
     inputManager := inputManager c; wasdEnabled := wasdEnabled c;
     moveSpeed := moveSpeed c; fastMoveMultiplier := fastMoveMultiplier c;
     velocity := velocity c; direction := direction c; presets := presets c;
     isAnimating := isAnimating c; animationDuration := animationDuration c;
     followTarget := followTarget c; followOffset := followOffset c;
     followSpeed := followSpeed c; controlMode := v |}.

Definition set_position (v : Vector3) (c : CameraController) : CameraController :=
  set_camera (mkCamera v (quaternion (camera c))) c.

Definition set_target (v : Vector3) (c : CameraController) : CameraController :=
  set_orbitControls (mkOrbitControls v (enabled (orbitControls c))) c.

(** What is written to the console. *)
Inductive Message :=
| CameraMode (mode : string)
| WASDControl (on : bool)
| PresetNotFound (presetName : string)
| FollowStarted (obj : Object3D)
| FollowStopped
| PresetAdded (presetName : string).

(** What the controller does to the outside world, in order. *)
Inductive Effect :=
| ConsoleLog (m : Message)
| ConsoleWarn (m : Message)
| Normalize (v : Vector3)          (* a call of [v.normalize()] *)
| Resolve (p : Promise)            (* the promise [p] resolves *)
| Reject (p : Promise).            (* the promise [p] is rejected (TypeError) *)

(** The closure [animate] of one call of [animateToPosition], with the
    variables it has captured. *)
Record Animation := mkAnimation {
  startPosition : Vector3;
  startTarget : Vector3;
  targetPosition : Vector3;
  targetLookAt : Vector3;
  startTime : Q;
  promise : Promise
}.

(** The controller in its environment: the callbacks handed to
    [requestAnimationFrame] and not yet run, the number of promises made,
    and the effects so far. *)
Record World := mkWorld {
  controller : CameraController;
  frameRequests : list Animation;
  promises : nat;
  effects : list Effect
}.

Definition on_controller (f : CameraController -> CameraController) (w : World)
  : World :=
  {| controller := f (controller w); frameRequests := frameRequests w;
     promises := promises w; effects := effects w |}.

Definition emit (e : Effect) (w : World) : World :=
  {| controller := controller w; frameRequests := frameRequests w;
     promises := promises w; effects := effects w ++ [e] |}.

Definition requestAnimationFrame (a : Animation) (w : World) : World :=
  {| controller := controller w; frameRequests := frameRequests w ++ [a];
     promises := promises w; effects := effects w |}.

Definition newPromise (w : World) : World * Promise :=
  ({| controller := controller w; frameRequests := frameRequests w;
      promises := S (promises w); effects := effects w |}, promises w).

Definition start (c : CameraController) : World :=
  {| controller := c; frameRequests := []; promises := 0; effects := [] |}.

(** [event.code] pressed or released while the window has the focus. *)
Definition keyDown (code : string) (w : World) : World :=
  on_controller
    (fun c => set_inputManager (option_map (handleKeyDown code) (inputManager c)) c) w.

Definition keyUp (code : string) (w : World) : World :=
  on_controller
    (fun c => set_inputManager (option_map (handleKeyUp code) (inputManager c)) c) w.

(** The calls and events that drive the controller.  The methods that only
    set limits of the orbit controls or only read the state are left out.
    The numbers the inputs carry are finite. *)
Inductive Input :=
| AnimateToPosition (P T : Vector3) (now now1 : Q)
| AnimateToPreset (presetName : string) (now now1 : Q)
| FollowObject (obj : Object3D) (offset : option Vector3)
| StopFollowing
| Update (scene : Object3D -> Vector3) (deltaTime : Q)
| AnimationFrame (now : Q)
| SetControlMode (mode : string)
| SetWASDEnabled (on : bool)
| SetMoveSpeed (speed : Q)
| SetFollowSpeed (speed : Q)
| AddPreset (presetName : string) (pos tgt : Vector3)
| SaveCurrentAsPreset (presetName : string)
| KeyDown (code : string)
| KeyUp (code : string).

Section WithLibrary.
Context {L : Library}.

(** [this.orbitControls.update()]. *)
Definition orbitControls_update (w : World) : World :=
  on_controller
    (fun c =>
       let r := OrbitControls_update (camera c) (orbitControls c) in
       set_orbitControls (snd r) (set_camera (fst r) c)) w.

(** [setControlMode(mode)]. *)
Definition setControlMode (mode : string) (w : World) : World :=
  emit (ConsoleLog (CameraMode mode))
    (on_controller
       (fun c =>
          let c := set_controlMode mode c in
          set_orbitControls
            (mkOrbitControls (target (orbitControls c))
               (if String.eqb mode "free" then false else true)) c) w).

(** [setWASDEnabled(enabled)]. *)
Definition setWASDEnabled (on : bool) (w : World) : World :=
  emit (ConsoleLog (WASDControl on)) (on_controller (set_wasdEnabled on) w).

(** [setMoveSpeed(speed)]. *)
Definition setMoveSpeed (speed : Q) (w : World) : World :=
  on_controller (set_moveSpeed speed) w.

(** The direction [updateWASDMovement] composes in [this.direction] before
    it looks at its length. *)
Definition composedDirection (c : CameraController) (im : InputManager)
  : Vector3 :=
  let wasdState := getWASDState im in
  let isSpacePressed := isKeyPressed "Space" im in
  let isCtrlPressed :=
    isKeyPressed "ControlLeft" im || isKeyPressed "ControlRight" im in
  let forward := applyQuaternion (mkVector3 0 0 (-1)) (quaternion (camera c)) in
  let right := applyQuaternion (mkVector3 1 0 0) (quaternion (camera c)) in
  let up := mkVector3 0 1 0 in
  let d := mkVector3 0 0 0 in
  let d := if truthy (wasdState !! "forward") then add d forward else d in
  let d := if truthy (wasdState !! "backward") then sub d forward else d in
  let d := if truthy (wasdState !! "left") then sub d right else d in
  let d := if truthy (wasdState !! "right") then add d right else d in
  let d := if isSpacePressed then add d up else d in
  let d := if isCtrlPressed then sub d up else d in
  d.

(** [updateWASDMovement(deltaTime)]. *)
Definition updateWASDMovement (deltaTime : Q) (w : World) : World :=
  match inputManager (controller w) with
  | None => w
  | Some im =>
      let c := controller w in
      let isShiftPressed :=
        isKeyPressed "ShiftLeft" im || isKeyPressed "ShiftRight" im in
      let d := composedDirection c im in
      if Qltb 0 (length d) then
        let w := emit (Normalize d) w in
        let d := normalize d in
        let currentSpeed := moveSpeed c in
        let currentSpeed :=
          if isShiftPressed then currentSpeed * fastMoveMultiplier c
          else currentSpeed in
        let movement := multiplyScalar d (currentSpeed * deltaTime) in
        on_controller
          (fun c =>
             let c := set_direction d c in
             let c := set_position (add (position (camera c)) movement) c in
             if String.eqb (controlMode c) "orbit"
             then set_target (add (target (orbitControls c)) movement) c
             else c) w
      else on_controller (set_direction d) w
  end.

(** [updateFollowTarget()]; [scene o] is the world position of [o]. *)
Definition updateFollowTarget (scene : Object3D -> Vector3) (w : World) : World :=
  match followTarget (controller w) with
  | None => w
  | Some o =>
      let targetWorldPosition := scene o in
      orbitControls_update
        (on_controller
           (fun c =>
              let desiredPosition := add targetWorldPosition (followOffset c) in
              let c := set_position
                         (lerp (position (camera c)) desiredPosition (followSpeed c)) c in
              set_target
                (lerp (target (orbitControls c)) targetWorldPosition (followSpeed c)) c)
           w)
  end.

(** [update(deltaTime)]. *)
Definition update (scene : Object3D -> Vector3) (deltaTime : Q) (w : World)
  : World :=
  let w :=
    if wasdEnabled (controller w)
       && match inputManager (controller w) with Some _ => true | None => false end
    then updateWASDMovement deltaTime w else w in
  let w :=
    if match followTarget (controller w) with Some _ => true | None => false end
       && negb (isAnimating (controller w))
    then updateFollowTarget scene w else w in
  if String.eqb (controlMode (controller w)) "orbit"
  then orbitControls_update w else w.

(** [easeInOutCubic(t)]. *)
Definition easeInOutCubic (t : Q) : Q :=
  if Qltb t (1 / 2) then 4 * t * t * t
  else (t - 1) * (2 * t - 2) * (2 * t - 2) + 1.

(** [stopFollowing()]. *)
Definition stopFollowing (w : World) : World :=
  match followTarget (controller w) with
  | Some _ =>
      on_controller (set_followTarget None) (emit (ConsoleLog FollowStopped) w)
  | None => w
  end.

(** [followObject(target, offset = null)]. *)
Definition followObject (obj : Object3D) (offset : option Vector3) (w : World)
  : World :=
  let w := on_controller (set_followTarget (Some obj)) w in
  let w := match offset with
           | Some v => on_controller (set_followOffset v) w
           | None => w
           end in
  emit (ConsoleLog (FollowStarted obj)) w.

(** The progress of an animation when the clock reads [now]. *)
Definition progress (a : Animation) (now : Q) (c : CameraController) : Q :=
  Qmin ((now - startTime a) / animationDuration c) 1.

(** One run of the closure [animate]; [now] is what [Date.now()] returns. *)
Definition animate (a : Animation) (now : Q) (w : World) : World :=
  let p := progress a now (controller w) in
  let easeProgress := easeInOutCubic p in
  let w := on_controller
             (set_position
                (lerpVectors (startPosition a) (targetPosition a) easeProgress)) w in
  let w := on_controller
             (set_target
                (lerpVectors (startTarget a) (targetLookAt a) easeProgress)) w in
  let w := orbitControls_update w in
  if Qltb p 1 then requestAnimationFrame a w
  else emit (Resolve (promise a)) (on_controller (set_isAnimating false) w).

(** [animateToPosition(targetPosition, targetLookAt)]; [now] and [now1]
    are the two readings of [Date.now()], the second one inside the first
    run of [animate]. *)
Definition animateToPosition (P T : Vector3) (now now1 : Q) (w : World)
  : World * Promise :=
  let '(w, p) := newPromise w in
  if isAnimating (controller w) then (emit (Resolve p) w, p)
  else
    let w := on_controller (set_isAnimating true) w in
    let w := stopFollowing w in
    let a :=
      {| startPosition := position (camera (controller w));
         startTarget := target (orbitControls (controller w));
         targetPosition := P; targetLookAt := T;
         startTime := now; promise := p |} in
    (animate a now1 w, p).

(** What [this.presets[presetName]] is.  [this.presets] is a plain
    object.  A name it holds gives the preset.  The assignment
    [this.presets["__proto__"] = preset] of [addPreset] makes no own
    property: it replaces the prototype by the preset object, which the
    same name then reads back; the map keeps that object under the key
    "__proto__".  A name the object does not hold is looked up in the
    prototype chain: the names of [Object.prototype], and [position] and
    [target] once the prototype is a preset object, give a truthy value
    that is no preset; any other name gives [undefined]. *)
Inductive Lookup :=
| Found (preset : Preset)
| Inherited
| Undefined.

Definition presets_get (m : gmap string Preset) (name : string) : Lookup :=
  match m !! name with
  | Some preset => Found preset
  | None =>
      if inherited name then Inherited
      else
        match m !! "__proto__" with
        | Some _ =>
            if String.eqb name "position" || String.eqb name "target"
            then Inherited else Undefined
        | None => Undefined
        end
  end.

(** [animateToPreset(presetName)], an [async] method: for [undefined] it
    warns and its promise resolves; for an inherited value the guard
    [!preset] lets it pass, [preset.position] is [undefined], the spread
    [...preset.position] throws a [TypeError] and the promise is
    rejected. *)
Definition animateToPreset (presetName : string) (now now1 : Q) (w : World)
  : World * Promise :=
  match presets_get (presets (controller w)) presetName with
  | Undefined =>
      let '(w, p) := newPromise w in
      (emit (Resolve p) (emit (ConsoleWarn (PresetNotFound presetName)) w), p)
  | Inherited =>
      let '(w, p) := newPromise w in
      (emit (Reject p) w, p)
  | Found preset =>
      animateToPosition (preset_position preset) (preset_target preset) now now1 w
  end.

(** The browser runs the frame callbacks requested since the last frame;
    each reads the clock as [now]. *)
Definition animationFrame (now : Q) (w : World) : World :=
  fold_left (fun w a => animate a now w) (frameRequests w)
    {| controller := controller w; frameRequests := [];
       promises := promises w; effects := effects w |}.

Definition animationFrames (times : list Q) (w : World) : World :=
  fold_left (fun w now => animationFrame now w) times w.

(** [setFollowSpeed(speed)]: it stores [Math.max(0, Math.min(1, speed))].
    For [NaN] that is [NaN]; the controller of the model, whose numbers are
    exact, has no state with that follow speed, and the result is [None]. *)
Definition setFollowSpeed (speed : Number) (w : World) : option World :=
  match Math_max (Finite 0) (Math_min (Finite 1) speed) with
  | Finite q => Some (on_controller (set_followSpeed q) w)
  | _ => None
  end.

(** [addPreset(name, position, target)]. *)
Definition addPreset (presetName : string) (pos tgt : Vector3) (w : World) : World :=
  emit (ConsoleLog (PresetAdded presetName))
    (on_controller
       (fun c => set_presets (<[presetName := mkPreset pos tgt]> (presets c)) c) w).

(** [saveCurrentAsPreset(name)]. *)
Definition saveCurrentAsPreset (presetName : string) (w : World) : World :=
  addPreset presetName (position (camera (controller w)))
    (target (orbitControls (controller w))) w.

(** One call or event. *)
Definition step (i : Input) (w : World) : World :=
  match i with
  | AnimateToPosition P T now now1 => fst (animateToPosition P T now now1 w)
  | AnimateToPreset presetName now now1 => fst (animateToPreset presetName now now1 w)
  | FollowObject obj offset => followObject obj offset w
  | StopFollowing => stopFollowing w
  | Update scene deltaTime => update scene deltaTime w
  | AnimationFrame now => animationFrame now w
  | SetControlMode mode => setControlMode mode w
  | SetWASDEnabled on => setWASDEnabled on w
  | SetMoveSpeed speed => setMoveSpeed speed w
  | SetFollowSpeed speed => default w (setFollowSpeed (Finite speed) w)
  | AddPreset presetName pos tgt => addPreset presetName pos tgt w
  | SaveCurrentAsPreset presetName => saveCurrentAsPreset presetName w
  | KeyDown code => keyDown code w
  | KeyUp code => keyUp code w
  end.

Definition run (inputs : list Input) (w : World) : World :=
  fold_left (fun w i => step i w) inputs w.

(** The worlds that calls and events lead to from a new controller. *)
Inductive reachable : World -> Prop :=
| reachable_start (cam : Camera) (orb : OrbitControls) (im : option InputManager) :
    reachable (start (constructor cam orb im))
| reachable_step (i : Input) (w : World) :
    reachable w -> reachable (step i w).

End WithLibrary.

(** The closure that [animateToPosition] makes when it starts a transition
    in [w]. *)
Definition closure (P T : Vector3) (now : Q) (w : World) : Animation :=
  {| startPosition := position (camera (controller w));
     startTarget := target (orbitControls (controller w));
     targetPosition := P; targetLookAt := T;
     startTime := now; promise := promises w |}.

(** The transition [a] is in flight. *)
Definition running (a : Animation) (w : World) : Prop :=
  frameRequests w = [a] /\ isAnimating (controller w) = true.

(** The transition [a] has ended: its last frame has put the camera at the
    end position and the look-target at the end target and handed both to
    [OrbitControls.update()], and the pose is what that call returned. *)
Definition ended {L : Library} (a : Animation) (w : World) : Prop :=
  frameRequests w = [] /\ isAnimating (controller w) = false /\
  exists cam0 orb0,
    veq (position cam0) (targetPosition a) /\
    veq (target orb0) (targetLookAt a) /\
    camera (controller w) = fst (OrbitControls_update cam0 orb0) /\
    orbitControls (controller w) = snd (OrbitControls_update cam0 orb0).

(** The transition [a] has ended at its end pose. *)
Definition finished (a : Animation) (w : World) : Prop :=
  frameRequests w = [] /\ isAnimating (controller w) = false /\
  veq (position (camera (controller w))) (targetPosition a) /\
  veq (target (orbitControls (controller w))) (targetLookAt a).

(** The controller as [SpaceGameApp] sets it up: camera at [(0, 50, 100)],
    unrotated, looking at the origin, with an input manager. *)
Definition initial : World :=
  start (constructor
           (mkCamera (mkVector3 0 50 100) (mkQuaternion 0 0 0 1))
           (mkOrbitControls (mkVector3 0 0 0) true)
           (Some InputManager.constructor)).

(** The camera rests at position [P] looking at [T]: no transition is in
    flight and none is pending. *)
Definition at_rest (P T : Vector3) (w : World) : Prop :=
  veq (position (camera (controller w))) P /\
  veq (target (orbitControls (controller w))) T /\
  isAnimating (controller w) = false /\
  frameRequests w = [].

(** The part of a world that decides whether a transition is in flight. *)
Definition flags (w : World) : bool * Q * list Animation :=
  (isAnimating (controller w), animationDuration (controller w), frameRequests w).

(** While the transition [a] is in flight and the duration is [d], the
    input [i] is not a frame that ends it. *)
Definition mid_flight (a : Animation) (d : Q) (i : Input) : Prop :=
  match i with
  | AnimationFrame now => now - startTime a < d
  | _ => True
  end.

(** What the calls and events keep between them: the duration is the
    2000 ms of the constructor, and the animation flag is set exactly
    while one closure waits for its next frame. *)
Definition consistent (w : World) : Prop :=
  animationDuration (controller w) = 2000 /\
  ((isAnimating (controller w) = false /\ frameRequests w = []) \/
   (isAnimating (controller w) = true /\ exists a, frameRequests w = [a])).

(** Key 2 is pressed at time 0 (transition [A], to the preset "sun"), a
    frame runs at 1000 ms, key 3 is pressed then (request [B], to the preset
    "earth"), and frames run at 2000 ms and 3000 ms.  The orbit controls are
    idle. *)
Definition A_in_flight : World :=
  run (L := idle) [AnimateToPreset "sun" 0 0; AnimationFrame 1000] initial.

Definition B_requested : World :=
  run (L := idle) [AnimateToPreset "earth" 1000 1000] A_in_flight.

Definition B_later : World :=
  run (L := idle) [AnimationFrame 2000; AnimationFrame 3000] B_requested.

(** [followObject] on object 3 while [A] is in flight. *)
Definition follow_requested : World :=
  run (L := idle) [FollowObject 3%nat None] A_in_flight.

(** The W key is held. *)
Definition W_held : World := run (L := idle) [KeyDown "KeyW"] initial.

(** The Space key is held. *)
Definition Space_held : World := run (L := idle) [KeyDown "Space"] initial.

(** With the distance limits of the application: a transition to a
    close-up of the origin, 5 away from the look-target, requested at time
    0, and the frame at 2000 ms that ends it. *)
Definition close_up : World :=
  run (L := limited)
    [AnimateToPosition (mkVector3 0 0 5) (mkVector3 0 0 0) 0 0; AnimationFrame 2000]
    initial.

(** The same transition in flight at 1000 ms, a second request made then,
    and the frame at 2000 ms. *)
Definition close_up_in_flight : World :=
  run (L := limited)
    [AnimateToPosition (mkVector3 0 0 5) (mkVector3 0 0 0) 0 0; AnimationFrame 1000]
    initial.

Definition close_up_again : World :=
  run (L := limited)
    [AnimateToPosition (mkVector3 45 10 20) (mkVector3 45 0 0) 1000 1000;
     AnimationFrame 2000]
    close_up_in_flight.

(** The window loses the focus: [InputManager.resetInput()]. *)
Definition blur (w : World) : World :=
  on_controller
    (fun c => set_inputManager (option_map resetInput (inputManager c)) c) w.

(** The promises that a list of effects settles (resolves or rejects), in
    order. *)
Fixpoint settles (es : list Effect) : list Promise :=
  match es with
  | [] => []
  | Resolve p :: rest | Reject p :: rest => p :: settles rest
  | _ :: rest => settles rest
  end.

(** The promises of the transitions that wait for a frame. *)
Definition pending (w : World) : list Promise := map promise (frameRequests w).

(** [x] lies between [a] and [b], whichever is larger. *)
Definition between (a b x : Q) : Prop := (a <= x <= b) \/ (b <= x <= a).

(** Every coordinate of [v] lies between those of [a] and [b]. *)
Definition within (a b v : Vector3) : Prop :=
  between (x a) (x b) (x v) /\ between (y a) (y b) (y v) /\
  between (z a) (z b) (z v).

(** [q] to the power [n]. *)
Fixpoint Qpow (q : Q) (n : nat) : Q :=
  match n with
  | O => 1
  | S m => q * Qpow q m
  end.

(** The input does not redefine the preset [presetName]. *)
Definition keeps_preset (presetName : string) (i : Input) : Prop :=
  match i with
  | AddPreset n _ _ | SaveCurrentAsPreset n => n <> presetName
  | _ => True
  end.

(** The digit hotkeys and the presets they ask for. *)
Definition hotkey_presets : list (string * string) :=
  [("Digit1", "overview"); ("Digit2", "sun"); ("Digit3", "earth");
   ("Digit4", "saturn")].

(** The promises of a world: those settled so far, then those pending. *)
Definition book (w : World) : list Promise :=
  settles (effects w) ++ pending w.

(** The part of a world that the promises depend on. *)
Definition ledger (w : World) : list Promise * nat * list Animation :=
  (settles (effects w), promises w, frameRequests w).

Section Hotkeys.
Context {L : Library}.

(** The follow step, [n] ticks in a row. *)
Definition followTicks (n : nat) (scene : Object3D -> Vector3) (w : World) : World :=
  Nat.iter n (updateFollowTarget scene) w.

(** The key handler that [SpaceGameApp.setupHotkeys] installs (the
    notifications it shows are left out). *)
Definition hotkey (keyCode : string) (now now1 : Q) (w : World) : World :=
  if String.eqb keyCode "KeyC" then
    let newMode :=
      if String.eqb (controlMode (controller w)) "orbit" then "free" else "orbit" in
    setControlMode newMode w
  else if String.eqb keyCode "KeyV" then
    setWASDEnabled (negb (wasdEnabled (controller w))) w
  else if String.eqb keyCode "Digit1" then fst (animateToPreset "overview" now now1 w)
  else if String.eqb keyCode "Digit2" then fst (animateToPreset "sun" now now1 w)
  else if String.eqb keyCode "Digit3" then fst (animateToPreset "earth" now now1 w)
  else if String.eqb keyCode "Digit4" then fst (animateToPreset "saturn" now now1 w)
  else w.

End Hotkeys.

End CameraController.

(** * Properties *)

Module GameLoopFacts.
Import GameLoop.
Local Open Scope Q_scope.

Lemma updates_app (a b : list Call) : updates (a ++ b) = (updates a + updates b)%nat.
Proof. unfold updates. rewrite List.filter_app, length_app. reflexivity. Qed.

Lemma Qfloor_unique (x : Q) (k : Z) :
  inject_Z k <= x -> x < inject_Z (k + 1) -> Qfloor x = k.
Proof.
  intros Hlo Hhi.
  assert (k <= Qfloor x)%Z.
  { rewrite <- (Qfloor_Z k). apply Qfloor_resp_le. exact Hlo. }
  assert (Qfloor x < k + 1)%Z.
  { rewrite Zlt_Qlt. eapply Qle_lt_trans; [apply Qfloor_le | exact Hhi]. }
  lia.
Qed.

Lemma while_accumulator_spec (fuel : nat) :
  forall (g : GameLoop) (calls : list Call) (f : Callback),
    updateCallback g = Some f ->
    0 < frameTime g ->
    accumulator g < inject_Z (Z.of_nat fuel) * frameTime g ->
    exists g' calls',
      while_accumulator fuel g calls = Some (g', calls') /\
      same_setup g g' /\ lastTime g' = lastTime g /\
      accumulator g + inject_Z (Z.of_nat (updates calls)) * frameTime g
        == accumulator g' + inject_Z (Z.of_nat (updates calls')) * frameTime g /\
      accumulator g' < frameTime g /\
      (0 <= accumulator g -> 0 <= accumulator g').
Proof.
  induction fuel as [|fuel IH]; intros g calls f Hf Hh Hacc; simpl.
  - destruct (Qle_bool (frameTime g) (accumulator g)) eqn:E.
    + apply Qle_bool_iff in E. change (inject_Z (Z.of_nat 0)) with 0 in Hacc. lra.
    + exists g, calls. repeat split; try reflexivity; try tauto.
      destruct (Qlt_le_dec (accumulator g) (frameTime g)) as [Hlt|Hle]; [exact Hlt|].
      apply Qle_bool_iff in Hle. congruence.
  - destruct (Qle_bool (frameTime g) (accumulator g)) eqn:E.
    + apply Qle_bool_iff in E.
      destruct (IH (set_accumulator (accumulator g - frameTime g) g)
                  (calls ++ callUpdate g) f) as (g' & calls' & Hrun & Hs & Hl & Heq & Hlt & Hpos).
      * exact Hf.
      * exact Hh.
      * cbn [set_accumulator accumulator frameTime].
        rewrite Nat2Z.inj_succ, <- Z.add_1_r, inject_Z_plus in Hacc.
        change (inject_Z 1) with 1 in Hacc. lra.
      * exists g', calls'. cbn [set_accumulator accumulator frameTime lastTime] in *.
        split; [exact Hrun|].
        split; [exact Hs|]. split; [exact Hl|].
        split.
        { rewrite <- Heq. rewrite updates_app. unfold callUpdate. rewrite Hf.
          cbn [updates List.filter is_update length].
          rewrite Nat2Z.inj_add, inject_Z_plus.
          change (inject_Z (Z.of_nat 1)) with 1. lra. }
        split; [exact Hlt|]. intros _. apply Hpos. lra.
    + exists g, calls. repeat split; try reflexivity; try tauto.
      destruct (Qlt_le_dec (accumulator g) (frameTime g)) as [Hlt|Hle]; [exact Hlt|].
      apply Qle_bool_iff in Hle. congruence.
Qed.

Lemma fuel_for_enough (h : Q) :
  0 < h -> h + 50 <= inject_Z (Z.of_nat (fuel_for h)) * h.
Proof.
  intros Hh. unfold fuel_for.
  assert (Hc : 50 / h <= inject_Z (Qceiling (50 / h))) by apply Qle_ceiling.
  assert (H0 : (0 <= Qceiling (50 / h))%Z).
  { change 0%Z with (Qceiling 0). apply Qceiling_resp_le.
    apply Qle_shift_div_l; [exact Hh | lra]. }
  rewrite Nat2Z.inj_succ, Z2Nat.id, <- Z.add_1_r, inject_Z_plus by exact H0.
  change (inject_Z 1) with 1.
  assert (50 <= inject_Z (Qceiling (50 / h)) * h).
  { assert (He : 50 == 50 / h * h) by (field; lra).
    rewrite He at 1. apply Qmult_le_compat_r; lra. }
  lra.
Qed.

Lemma loop_spec (fuel : nat) (d : Q) (g : GameLoop) (f : Callback) :
  isRunning g = true -> updateCallback g = Some f ->
  0 < frameTime g ->
  frameTime g + 50 <= inject_Z (Z.of_nat fuel) * frameTime g ->
  0 <= accumulator g < frameTime g ->
  0 <= d <= 50 ->
  exists g' calls,
    loop fuel (lastTime g + d) g = Some (g', calls) /\
    same_setup g g' /\
    accumulator g + d
      == accumulator g' + inject_Z (Z.of_nat (updates calls)) * frameTime g /\
    0 <= accumulator g' < frameTime g.
Proof.
  intros Hrun Hf Hh Hfuel Hacc Hd. unfold loop. rewrite Hrun. cbn [negb].
  set (g1 := {| isRunning := _ |}).
  assert (Hmin : Qmin (lastTime g + d - lastTime g) 50 == d).
  { rewrite Q.min_l; lra. }
  destruct (while_accumulator_spec fuel g1 [] f) as
      (g' & calls & Hw & (Hs1 & Hs2 & Hs3 & Hs4) & _ & Heq & Hlt & Hpos).
  - exact Hf.
  - exact Hh.
  - subst g1. cbn [accumulator frameTime]. rewrite Hmin. lra.
  - rewrite Hw. eexists _, _. split; [reflexivity|].
    subst g1. cbn [accumulator frameTime isRunning updateCallback renderCallback] in *.
    split; [unfold same_setup; repeat split; congruence|].
    split.
    + rewrite !updates_app.
      assert (Hr : updates (callRender g') = 0%nat)
        by (unfold callRender; destruct (renderCallback g'); reflexivity).
      rewrite Hr. cbn [updates List.filter is_update length] in *.
      rewrite Hmin in Heq. rewrite Nat.add_0_r.
      change (inject_Z (Z.of_nat 0)) with 0 in Heq. lra.
    + split; [apply Hpos; rewrite Hmin; lra | exact Hlt].
Qed.

Lemma frames_spec (fuel : nat) (f : Callback) (ds : list Q) :
  forall g : GameLoop,
    isRunning g = true -> updateCallback g = Some f ->
    0 < frameTime g ->
    frameTime g + 50 <= inject_Z (Z.of_nat fuel) * frameTime g ->
    0 <= accumulator g < frameTime g ->
    Forall (fun d => 0 <= d <= 50) ds ->
    exists g' calls,
      frames fuel ds g = Some (g', calls) /\
      same_setup g g' /\
      accumulator g + Qsum ds
        == accumulator g' + inject_Z (Z.of_nat (updates calls)) * frameTime g /\
      0 <= accumulator g' < frameTime g.
Proof.
  induction ds as [|d ds IH]; intros g Hrun Hf Hh Hfuel Hacc Hds.
  - exists g, []. cbn [frames Qsum fold_right updates List.filter length].
    change (inject_Z (Z.of_nat 0)) with 0.
    repeat split; try reflexivity; try tauto. lra.
  - inversion Hds as [|? ? Hd Hds']; subst.
    destruct (loop_spec fuel d g f Hrun Hf Hh Hfuel Hacc Hd)
      as (g1 & c1 & Hl & (Hs1 & Hs2 & Hs3 & Hs4) & Heq1 & Hacc1).
    destruct (IH g1) as (g2 & c2 & Hfr & (Ht1 & Ht2 & Ht3 & Ht4) & Heq2 & Hacc2).
    + congruence.
    + congruence.
    + rewrite Hs2. exact Hh.
    + rewrite Hs2. exact Hfuel.
    + rewrite Hs2. exact Hacc1.
    + exact Hds'.
    + exists g2, (c1 ++ c2). cbn [frames]. rewrite Hl, Hfr.
      split; [reflexivity|].
      split; [repeat split; congruence|].
      rewrite Hs2 in *. split; [|exact Hacc2].
      rewrite updates_app, Nat2Z.inj_add, inject_Z_plus.
      cbn [Qsum fold_right]. fold (Qsum ds). lra.
Qed.

Lemma frames_count (fuel : nat) (f : Callback) (ds : list Q) (g : GameLoop) :
  isRunning g = true -> updateCallback g = Some f ->
  0 < frameTime g ->
  (fuel_for (frameTime g) <= fuel)%nat ->
  accumulator g == 0 ->
  Forall (fun d => 0 <= d <= 50) ds ->
  exists g' calls,
    frames fuel ds g = Some (g', calls) /\
    Z.of_nat (updates calls) = Qfloor (Qsum ds / frameTime g).
Proof.
  intros Hrun Hf Hh Hfuel Hacc Hds.
  assert (Hfuel' : frameTime g + 50 <= inject_Z (Z.of_nat fuel) * frameTime g).
  { eapply Qle_trans; [apply fuel_for_enough; exact Hh|].
    apply Qmult_le_compat_r; [|lra].
    rewrite <- Zle_Qle. lia. }
  destruct (frames_spec fuel f ds g Hrun Hf Hh Hfuel') as (g' & calls & Hfr & _ & Heq & Hacc');
    [lra | exact Hds |].
  exists g', calls. split; [exact Hfr|].
  symmetry. apply Qfloor_unique.
  - apply Qle_shift_div_l; [exact Hh | lra].
  - rewrite inject_Z_plus. change (inject_Z 1) with 1.
    apply Qlt_shift_div_r; [exact Hh | lra].
Qed.

Example frames_16_17_50 :
  option_map (fun r => updates (snd r)) (frames 4 [16; 17; 50]%Q started) = Some 4%nat.
Proof. vm_compute. reflexivity. Qed.

Example frames_50_33 :
  option_map (fun r => updates (snd r)) (frames 4 [50; 33]%Q started) = Some 4%nat.
Proof. vm_compute. reflexivity. Qed.

(** C5. For raw frame deltas [ds], each between 0 and the 50 ms clamp, fed
    to a running loop whose accumulator is empty and whose step [frameTime]
    is positive, the loop returns and has invoked the update callback
    [floor (sum ds / frameTime)] times (so in particular within one step of
    it); any other chunking [ds'] of the same total gives the same count. *)
Theorem fixed_step_accumulator
  (g : GameLoop) (f : Callback) (fuel : nat) (ds ds' : list Q) :
  isRunning g = true -> updateCallback g = Some f ->
  0 < frameTime g -> accumulator g == 0 ->
  (fuel_for (frameTime g) <= fuel)%nat ->
  Forall (fun d => 0 <= d <= 50) ds ->
  Forall (fun d => 0 <= d <= 50) ds' ->
  Qsum ds' == Qsum ds ->
  exists g1 calls1 g2 calls2,
    frames fuel ds g = Some (g1, calls1) /\
    frames fuel ds' g = Some (g2, calls2) /\
    Z.of_nat (updates calls1) = Qfloor (Qsum ds / frameTime g) /\
    (Z.abs (Z.of_nat (updates calls1) - Qfloor (Qsum ds / frameTime g)) <= 1)%Z /\
    updates calls2 = updates calls1.
Proof.
  intros Hrun Hf Hh Hacc Hfuel Hds Hds' Hsum.
  destruct (frames_count fuel f ds g Hrun Hf Hh Hfuel Hacc Hds) as (g1 & c1 & H1 & E1).
  destruct (frames_count fuel f ds' g Hrun Hf Hh Hfuel Hacc Hds') as (g2 & c2 & H2 & E2).
  exists g1, c1, g2, c2. repeat split; try assumption.
  - rewrite E1. lia.
  - apply Nat2Z.inj. rewrite E1, E2. apply Qfloor_comp.
    rewrite Hsum. reflexivity.
Qed.

Lemma fixed_step_accumulator_witness :
  exists g1 calls1 g2 calls2,
    frames 4 [16; 17; 50]%Q started = Some (g1, calls1) /\
    frames 4 [50; 33]%Q started = Some (g2, calls2) /\
    Z.of_nat (updates calls1) = Qfloor (Qsum [16; 17; 50]%Q / frameTime started) /\
    (Z.abs (Z.of_nat (updates calls1)
            - Qfloor (Qsum [16; 17; 50]%Q / frameTime started)) <= 1)%Z /\
    updates calls2 = updates calls1.
Proof.
  apply (fixed_step_accumulator started 0%nat 4 [16; 17; 50]%Q [50; 33]%Q).
  - reflexivity.
  - reflexivity.
  - reflexivity.
  - reflexivity.
  - vm_compute. lia.
  - repeat constructor; discriminate.
  - repeat constructor; discriminate.
  - reflexivity.
Defined.

End GameLoopFacts.

Module PlanetFacts.
Import Planet SpaceScene.
Local Open Scope R_scope.

Lemma update_orbitGroup (dt t : R) (p : Planet) (o : Orbit) :
  orbit p = Some o ->
  orbitGroup_position (Planet.update dt t p) = orbital_position o t.
Proof.
  intros Ho. unfold Planet.update, orbital_position.
  cbn [orbitGroup_position]. rewrite Ho.
  rewrite (Rmult_comm t), (Rmult_comm (cos _)), (Rmult_comm (sin _)).
  reflexivity.
Qed.

Lemma update_orbit (dt t : R) (p : Planet) :
  orbit (Planet.update dt t p) = orbit p.
Proof. reflexivity. Qed.

Lemma updates_snoc (steps : list R) (dt : R) (s : SpaceScene) :
  updates (steps ++ [dt]) s = SpaceScene.update dt (updates steps s).
Proof. unfold updates. rewrite fold_left_app. reflexivity. Qed.

Lemma Rsum_snoc (steps : list R) (dt : R) : Rsum (steps ++ [dt]) = Rsum steps + dt.
Proof.
  unfold Rsum. induction steps as [|a l IH]; cbn [fold_right app].
  - Lra.lra.
  - rewrite IH. Lra.lra.
Qed.

Lemma updates_time (steps : list R) (s : SpaceScene) :
  SpaceScene.time (updates steps s) = SpaceScene.time s + Rsum steps.
Proof.
  induction steps as [|dt steps IH] using rev_ind.
  - cbn. Lra.lra.
  - rewrite updates_snoc, Rsum_snoc. cbn [SpaceScene.update SpaceScene.time].
    rewrite IH. Lra.lra.
Qed.

Lemma updates_orbit (steps : list R) (s : SpaceScene) (i : nat) (p : Planet) :
  planets s !! i = Some p ->
  exists q, planets (updates steps s) !! i = Some q /\ orbit q = orbit p.
Proof.
  intros Hp. induction steps as [|dt steps IH] using rev_ind.
  - exists p. split; [exact Hp | reflexivity].
  - destruct IH as (q & Hq & Ho). rewrite updates_snoc.
    cbn [SpaceScene.update planets]. rewrite list_lookup_fmap, Hq.
    eexists. split; [reflexivity|]. rewrite update_orbit. exact Ho.
Qed.

Lemma updates_position (steps : list R) (s : SpaceScene) (i : nat) (p : Planet)
    (o : Orbit) :
  planets s !! i = Some p -> orbit p = Some o -> steps <> [] ->
  exists q, planets (updates steps s) !! i = Some q /\
            orbitGroup_position q
              = orbital_position o (SpaceScene.time s + Rsum steps).
Proof.
  intros Hp Ho Hne.
  destruct steps as [|dt steps _] using rev_ind; [congruence|].
  destruct (updates_orbit steps s i p Hp) as (q & Hq & Hoq).
  rewrite updates_snoc. cbn [SpaceScene.update planets].
  rewrite list_lookup_fmap, Hq. eexists. split; [reflexivity|].
  rewrite (update_orbitGroup _ _ q o) by congruence.
  rewrite updates_time, Rsum_snoc. f_equal. Lra.lra.
Qed.

Example earth_quarter_period (dt : R) :
  orbitGroup_position (Planet.update dt (PI / (1/100) / 2) earth)
    = mkVector3 0 0 45.
Proof.
  rewrite (update_orbitGroup _ _ earth (mkOrbit 45 (1/100))) by reflexivity.
  unfold orbital_position. cbn [orbit_radius orbit_speed].
  replace (1 / 100 * (PI / (1 / 100) / 2)) with (PI / 2) by (field; Lra.lra).
  rewrite cos_PI2, sin_PI2. f_equal; Lra.lra.
Qed.

Example earth_start (dt : R) :
  orbitGroup_position (Planet.update dt 0 earth) = mkVector3 45 0 0.
Proof.
  rewrite (update_orbitGroup _ _ earth (mkOrbit 45 (1/100))) by reflexivity.
  unfold orbital_position. cbn [orbit_radius orbit_speed].
  rewrite Rmult_0_r, cos_0, sin_0. f_equal; Lra.lra.
Qed.

(** C4. A planet with orbit descriptor [{radius r, speed w}] sits, after
    the scene has been updated through any non-empty sequence of logic
    steps reaching the accumulated time [t], at
    [(r cos (w t), 0, r sin (w t))]; any other sequence of steps reaching
    the same [t] leaves it at the same place.  For the Earth
    ([r = 45], [w = 0.01]) the update at [t = 0] gives [(45, 0, 0)] and the
    update at [t = pi / 0.01 / 2] gives [(0, 0, 45)]. *)
Theorem orbit_is_function_of_time
  (s : SpaceScene) (steps steps' : list R) (i : nat) (p : Planet) (o : Orbit) :
  planets s !! i = Some p -> orbit p = Some o ->
  steps <> [] -> steps' <> [] ->
  Rsum steps' = Rsum steps ->
  (exists q q',
     planets (updates steps s) !! i = Some q /\
     orbitGroup_position q
       = mkVector3
           (orbit_radius o * cos (orbit_speed o * (SpaceScene.time s + Rsum steps)))
           0
           (orbit_radius o * sin (orbit_speed o * (SpaceScene.time s + Rsum steps))) /\
     planets (updates steps' s) !! i = Some q' /\
     orbitGroup_position q' = orbitGroup_position q) /\
  (forall dt, orbitGroup_position (Planet.update dt 0 earth) = mkVector3 45 0 0) /\
  (forall dt, orbitGroup_position (Planet.update dt (PI / (1/100) / 2) earth)
              = mkVector3 0 0 45).
Proof.
  intros Hp Ho Hne Hne' Hsum.
  split; [|split; [exact earth_start | exact earth_quarter_period]].
  destruct (updates_position steps s i p o Hp Ho Hne) as (q & Hq & Hpos).
  destruct (updates_position steps' s i p o Hp Ho Hne') as (q' & Hq' & Hpos').
  exists q, q'. split; [exact Hq|]. split; [exact Hpos|].
  split; [exact Hq'|]. rewrite Hpos, Hpos', Hsum. reflexivity.
Qed.

Lemma orbit_is_function_of_time_witness :
  (exists q q',
     planets (updates [1/60; 1/60] demo) !! 1%nat = Some q /\
     orbitGroup_position q
       = mkVector3
           (45 * cos (1/100 * (SpaceScene.time demo + Rsum [1/60; 1/60])))
           0
           (45 * sin (1/100 * (SpaceScene.time demo + Rsum [1/60; 1/60]))) /\
     planets (updates [2/60] demo) !! 1%nat = Some q' /\
     orbitGroup_position q' = orbitGroup_position q) /\
  (forall dt, orbitGroup_position (Planet.update dt 0 earth) = mkVector3 45 0 0) /\
  (forall dt, orbitGroup_position (Planet.update dt (PI / (1/100) / 2) earth)
              = mkVector3 0 0 45).
Proof.
  apply (orbit_is_function_of_time demo [1/60; 1/60] [2/60] 1 earth
           (mkOrbit 45 (1/100))).
  - reflexivity.
  - reflexivity.
  - discriminate.
  - discriminate.
  - cbn [Rsum fold_right]. Lra.lra.
Defined.

End PlanetFacts.

Module SpaceSceneFacts.
Import Planet SpaceScene.

Lemma find_planet_Some (o : Object3D) (ps : list Planet) (i : nat) :
  find_planet o ps = Some i ->
  exists p, ps !! i = Some p /\ getMesh p = o.
Proof.
  revert i. induction ps as [|p ps IH]; intros i H; cbn in H; [discriminate|].
  destruct (Nat.eqb (getMesh p) o) eqn:E.
  - injection H as <-. exists p. split; [reflexivity|]. apply Nat.eqb_eq, E.
  - destruct (find_planet o ps) as [j|]; [|discriminate].
    injection H as <-. destruct (IH j eq_refl) as (q & Hq & Hm).
    exists q. split; assumption.
Qed.

Lemma find_planet_None (o : Object3D) (ps : list Planet) :
  find_planet o ps = None -> forall p, In p ps -> getMesh p <> o.
Proof.
  induction ps as [|q ps IH]; intros H p Hin; cbn in H; [destruct Hin|].
  destruct (Nat.eqb (getMesh q) o) eqn:E; [discriminate|].
  destruct (find_planet o ps); [discriminate|].
  destruct Hin as [<-|Hin]; [apply Nat.eqb_neq, E | apply IH; auto].
Qed.

Lemma deselectPlanet_clear (s : SpaceScene) :
  selection_ok s -> all_clear (fst (deselectPlanet s)).
Proof.
  intros [Hv Hs]. unfold deselectPlanet.
  destruct (selectedPlanet s) as [j|] eqn:Hsel; cbn [fst].
  - split; [reflexivity|]. cbn [planets set_selection]. intros k q Hq.
    rewrite list_lookup_alter in Hq. destruct (decide (j = k)) as [->|Hne].
    + destruct (planets s !! k); [|discriminate]. cbn in Hq.
      injection Hq as <-. reflexivity.
    + destruct (isSelected q) eqn:E; [|reflexivity].
      apply (Hs k q Hq) in E. congruence.
  - split; [exact Hsel|]. intros k q Hq.
    destruct (isSelected q) eqn:E; [|reflexivity].
    apply (Hs k q Hq) in E. congruence.
Qed.

Lemma deselectPlanet_length (s : SpaceScene) :
  length (planets (fst (deselectPlanet s))) = length (planets s).
Proof.
  unfold deselectPlanet. destruct (selectedPlanet s); cbn; [|reflexivity].
  apply length_alter.
Qed.

Lemma all_clear_ok (s : SpaceScene) : all_clear s -> selection_ok s.
Proof.
  intros [Hn Hc]. split.
  - intros i Hi. congruence.
  - intros i p Hp. rewrite (Hc i p Hp), Hn. split; discriminate.
Qed.

Lemma selectPlanet_spec (i : nat) (s : SpaceScene) :
  selection_ok s -> (i < length (planets s))%nat ->
  let s' := fst (selectPlanet i s) in
  selectedPlanet s' = Some i /\
  (forall k q, planets s' !! k = Some q -> (isSelected q = true <-> k = i)) /\
  selection_ok s'.
Proof.
  intros Hok Hi. pose proof (deselectPlanet_clear s Hok) as [Hn Hc].
  pose proof (deselectPlanet_length s) as Hlen.
  unfold selectPlanet. destruct (deselectPlanet s) as [s1 e1]. cbn [fst] in *.
  assert (Hk : forall k q,
             alter (setSelected true) i (planets s1) !! k = Some q ->
             (isSelected q = true <-> k = i)).
  { intros k q Hq. rewrite list_lookup_alter in Hq.
    destruct (decide (i = k)) as [->|Hne].
    - destruct (planets s1 !! k); [|discriminate]. cbn in Hq.
      injection Hq as <-. cbn. tauto.
    - rewrite (Hc k q Hq). split; [discriminate | congruence]. }
  split; [reflexivity|]. split; [exact Hk|].
  split; cbn [planets selectedPlanet set_selection].
  - intros j [= <-]. apply lookup_lt_is_Some. rewrite length_alter. lia.
  - intros k q Hq. rewrite (Hk k q Hq). split; congruence.
Qed.

Lemma find_planet_first (o : Object3D) (ps : list Planet) (i : nat) (p : Planet) :
  ps !! i = Some p -> getMesh p = o ->
  (forall j q, (j < i)%nat -> ps !! j = Some q -> getMesh q <> o) ->
  find_planet o ps = Some i.
Proof.
  revert i. induction ps as [|q ps IH]; intros i Hp Hm Hfirst; [discriminate|].
  cbn [find_planet]. destruct i as [|i].
  - injection Hp as ->. rewrite (proj2 (Nat.eqb_eq _ _) Hm). reflexivity.
  - assert (Hq : getMesh q <> o) by (apply (Hfirst 0%nat); [lia | reflexivity]).
    rewrite (proj2 (Nat.eqb_neq _ _) Hq).
    rewrite (IH i); [reflexivity | exact Hp | exact Hm |].
    intros j r Hj Hr. apply (Hfirst (S j)); [lia | exact Hr].
Qed.

Lemma find_planet_absent (o : Object3D) (ps : list Planet) :
  (forall p, In p ps -> getMesh p <> o) -> find_planet o ps = None.
Proof.
  induction ps as [|q ps IH]; intros H; [reflexivity|]. cbn [find_planet].
  rewrite (proj2 (Nat.eqb_neq _ _) (H q (or_introl eq_refl))).
  rewrite IH; [reflexivity|]. intros p Hp. apply H. right. exact Hp.
Qed.

Lemma selection_ok_ext (s s1 : SpaceScene) :
  planets s1 = planets s -> selectedPlanet s1 = selectedPlanet s ->
  selection_ok s -> selection_ok s1.
Proof. unfold selection_ok. intros -> ->. tauto. Qed.

Example earth_picked_selected :
  selectedPlanet earth_picked = Some 1%nat /\ selection_ok demo.
Proof.
  split; [reflexivity|]. apply all_clear_ok. split; [reflexivity|].
  intros [|[|[|k]]] q Hq; cbn in Hq; try discriminate;
    injection Hq as <-; reflexivity.
Qed.

(** C7, as stated, fails twice.  With the Earth selected, a click whose
    only hit is the Earth's selection glow (object 3, a child of the mesh,
    not the mesh of any planet) intersects no planet mesh, and the Earth
    stays selected.  With nothing selected, a click whose ray passes
    through the Sun's selection glow (object 1) and then hits the Earth's
    mesh (object 2) intersects a planet mesh, and nothing gets selected. *)
Lemma glow_hit_keeps_selection :
  (camera earth_picked = true /\
   selectedPlanet earth_picked = Some 1%nat /\
   (forall h p, In h [mkIntersection 41 3%nat] -> In p (planets earth_picked) ->
                getMesh p <> object h) /\
   selectedPlanet
     (fst (onMouseClick (mkMouseEvent 970 540) [mkIntersection 41 3%nat]
             earth_picked)) = Some 1%nat) /\
  (camera demo = true /\
   (exists h p, In h [mkIntersection 30 1%nat; mkIntersection 40 2%nat] /\
                In p (planets demo) /\ getMesh p = object h) /\
   selectedPlanet
     (fst (onMouseClick (mkMouseEvent 970 540)
             [mkIntersection 30 1%nat; mkIntersection 40 2%nat] demo)) = None).
Proof.
  split.
  - split; [reflexivity|]. split; [reflexivity|]. split; [|reflexivity].
    intros h p [<-|[]] [<-|[<-|[]]]; cbn; discriminate.
  - split; [reflexivity|]. split; [|reflexivity].
    exists (mkIntersection 40 2%nat), earth.
    split; [right; left; reflexivity|]. split; [right; left; reflexivity|].
    reflexivity.
Qed.

(** C7, amended. On a click with the camera set, in a scene whose selection
    is consistent: if the nearest hit is the mesh of a planet, that planet
    becomes the only selected one, the planet selected before being
    deselected first; if the ray hits nothing, the selection is cleared;
    if the nearest hit is an object that is no planet's mesh, the
    selection stays as it was; and the selection stays consistent, so at
    most one planet is selected. *)
Theorem click_selects_nearest_hit
  (event : MouseEvent) (intersects : list Intersection) (s : SpaceScene) :
  camera s = true -> selection_ok s ->
  selection_ok (fst (onMouseClick event intersects s)) /\
  (forall i j p q,
      planets (fst (onMouseClick event intersects s)) !! i = Some p ->
      planets (fst (onMouseClick event intersects s)) !! j = Some q ->
      isSelected p = true -> isSelected q = true -> i = j) /\
  (intersects = [] -> all_clear (fst (onMouseClick event intersects s))) /\
  (forall first rest i p,
      intersects = first :: rest ->
      planets s !! i = Some p -> getMesh p = object first ->
      (forall j q, (j < i)%nat -> planets s !! j = Some q ->
                   getMesh q <> object first) ->
      selectedPlanet (fst (onMouseClick event intersects s)) = Some i /\
      (forall k q, planets (fst (onMouseClick event intersects s)) !! k = Some q ->
                   (isSelected q = true <-> k = i)) /\
      snd (onMouseClick event intersects s)
        = match selectedPlanet s with
          | Some j => [SetSelected j false; HidePlanetInfo]
          | None => [HidePlanetInfo]
          end ++ [SetSelected i true; ShowPlanetInfo i]) /\
  (forall first rest,
      intersects = first :: rest ->
      (forall p, In p (planets s) -> getMesh p <> object first) ->
      planets (fst (onMouseClick event intersects s)) = planets s /\
      selectedPlanet (fst (onMouseClick event intersects s)) = selectedPlanet s /\
      snd (onMouseClick event intersects s) = []).
Proof.
  intros Hcam Hok. unfold onMouseClick. rewrite Hcam. cbn [negb].
  set (s1 := {| planets := planets s |}).
  assert (Hok1 : selection_ok s1) by (apply (selection_ok_ext s); auto).
  assert (Hfinal : selection_ok
            (fst match intersects with
                 | [] => deselectPlanet s1
                 | first :: _ =>
                     match find_planet (object first) (planets s1) with
                     | Some i => selectPlanet i s1
                     | None => (s1, [])
                     end
                 end)).
  { destruct intersects as [|first rest].
    - apply all_clear_ok, deselectPlanet_clear, Hok1.
    - destruct (find_planet (object first) (planets s1)) as [i|] eqn:Hf.
      + apply selectPlanet_spec; [exact Hok1|].
        destruct (find_planet_Some _ _ _ Hf) as (p & Hp & _).
        apply lookup_lt_Some in Hp. exact Hp.
      + exact Hok1. }
  split; [exact Hfinal|]. split.
  { destruct Hfinal as [_ Hs]. intros i j p q Hp Hq Ep Eq.
    apply (Hs i p Hp) in Ep. apply (Hs j q Hq) in Eq. congruence. }
  split.
  { intros ->. apply deselectPlanet_clear, Hok1. }
  split.
  - intros first rest i p -> Hp Hm Hfirst.
    rewrite (find_planet_first (object first) (planets s1) i p Hp Hm Hfirst).
    destruct (selectPlanet_spec i s1 Hok1) as (Hsel & Hk & _).
    { apply lookup_lt_Some in Hp. exact Hp. }
    split; [exact Hsel|]. split; [exact Hk|].
    unfold selectPlanet, deselectPlanet. cbn [selectedPlanet s1].
    destruct (selectedPlanet s); reflexivity.
  - intros first rest -> Hnone.
    rewrite (find_planet_absent (object first) (planets s1) Hnone).
    repeat split; reflexivity.
Qed.

(** The selection stays consistent through the logic steps, and a click
    before [setCamera] does nothing. *)
Lemma update_selection_ok (dt : R) (s : SpaceScene) :
  selection_ok s -> selection_ok (SpaceScene.update dt s).
Proof.
  intros [Hv Hs]. split; cbn [SpaceScene.update planets selectedPlanet].
  - intros i Hi. destruct (Hv i Hi) as [p Hp].
    exists (Planet.update dt (SpaceScene.time s + dt)%R p).
    rewrite list_lookup_fmap, Hp. reflexivity.
  - intros i q Hq. rewrite list_lookup_fmap in Hq.
    destruct (planets s !! i) as [p|] eqn:Hp; [|discriminate].
    injection Hq as <-. apply (Hs i p Hp).
Qed.

Lemma click_without_camera (event : MouseEvent) (intersects : list Intersection)
    (s : SpaceScene) :
  camera s = false -> onMouseClick event intersects s = (s, []).
Proof. intros H. unfold onMouseClick. rewrite H. reflexivity. Qed.

Lemma click_selects_nearest_hit_witness :
  selectedPlanet
    (fst (onMouseClick (mkMouseEvent 960 540) [mkIntersection 40 2%nat] demo))
  = Some 1%nat.
Proof.
  pose proof (click_selects_nearest_hit (mkMouseEvent 960 540)
                [mkIntersection 40 2%nat] demo eq_refl
                (proj2 earth_picked_selected)) as (_ & _ & _ & Hhit & _).
  destruct (Hhit (mkIntersection 40 2%nat) [] 1%nat earth eq_refl eq_refl eq_refl)
    as (Hsel & _).
  - intros [|[|j]] q Hj Hq; [|lia|lia]. injection Hq as <-. cbn. discriminate.
  - exact Hsel.
Defined.

End SpaceSceneFacts.

Module CameraFacts.
Import JavaScript Three InputManager CameraController.
Local Open Scope Q_scope.

Lemma Qltb_lt (a b : Q) : Qltb a b = true <-> a < b.
Proof.
  unfold Qltb. rewrite negb_true_iff. split.
  - intros H. destruct (Qlt_le_dec a b) as [Hlt|Hle]; [exact Hlt|].
    apply Qle_bool_iff in Hle. congruence.
  - intros H. destruct (Qle_bool b a) eqn:E; [|reflexivity].
    apply Qle_bool_iff in E. lra.
Qed.

Lemma Qltb_ge (a b : Q) : Qltb a b = false <-> b <= a.
Proof.
  unfold Qltb. rewrite negb_false_iff. apply Qle_bool_iff.
Qed.

Lemma veq_refl (v : Vector3) : veq v v.
Proof. repeat split; reflexivity. Qed.

Lemma veq_trans (a b c : Vector3) : veq a b -> veq b c -> veq a c.
Proof.
  intros (H1 & H2 & H3) (K1 & K2 & K3).
  repeat split; etransitivity; eassumption.
Qed.

Lemma lerpVectors_one (v1 v2 : Vector3) (alpha : Q) :
  alpha == 1 -> veq (lerpVectors v1 v2 alpha) v2.
Proof.
  intros H. unfold lerpVectors, veq. cbn [x y z]. rewrite H.
  repeat split; ring.
Qed.

Lemma easeInOutCubic_one (t : Q) : t == 1 -> easeInOutCubic t == 1.
Proof.
  intros H. unfold easeInOutCubic.
  destruct (Qltb t (1 / 2)) eqn:E.
  - apply Qltb_lt in E. rewrite H in E. discriminate E.
  - rewrite H. ring.
Qed.

Example easeInOutCubic_half : easeInOutCubic (1 / 2) == 1 / 2.
Proof. reflexivity. Qed.

Example easeInOutCubic_quarter : easeInOutCubic (1 / 4) == 1 / 16.
Proof. reflexivity. Qed.

Lemma progress_done (a : Animation) (now : Q) (c : CameraController) :
  0 < animationDuration c ->
  animationDuration c <= now - startTime a ->
  progress a now c == 1.
Proof.
  intros Hd He. unfold progress. apply Q.min_r.
  apply Qle_shift_div_l; [exact Hd | lra].
Qed.

Lemma progress_running (a : Animation) (now : Q) (c : CameraController) :
  0 < animationDuration c ->
  now - startTime a < animationDuration c ->
  progress a now c < 1.
Proof.
  intros Hd He. unfold progress. apply Q.min_lt_iff. left.
  apply Qlt_shift_div_r; [exact Hd | lra].
Qed.

Section WithLibrary.
Context {L : Library}.
Hypothesis idle_controls : keeps_pose L.

Lemma orbitControls_update_pose (w : World) :
  position (camera (controller (orbitControls_update w)))
    = position (camera (controller w)) /\
  target (orbitControls (controller (orbitControls_update w)))
    = target (orbitControls (controller w)).
Proof.
  unfold orbitControls_update. cbn.
  apply idle_controls.
Qed.

(** A frame at which the duration has passed ends the animation at its
    end pose. *)
Lemma animate_done (a : Animation) (now : Q) (w : World) :
  0 < animationDuration (controller w) ->
  animationDuration (controller w) <= now - startTime a ->
  veq (position (camera (controller (animate a now w)))) (targetPosition a) /\
  veq (target (orbitControls (controller (animate a now w)))) (targetLookAt a) /\
  isAnimating (controller (animate a now w)) = false /\
  frameRequests (animate a now w) = frameRequests w /\
  effects (animate a now w) = effects w ++ [Resolve (promise a)] /\
  animationDuration (controller (animate a now w)) = animationDuration (controller w).
Proof.
  intros Hd He. pose proof (progress_done a now (controller w) Hd He) as Hp.
  unfold animate.
  assert (E : Qltb (progress a now (controller w)) 1 = false)
    by (apply Qltb_ge; lra).
  rewrite E.
  set (w2 := on_controller _ (on_controller _ w)).
  destruct (orbitControls_update_pose w2) as [Hpos Htgt].
  cbn [controller emit on_controller set_isAnimating camera orbitControls
         isAnimating frameRequests effects animationDuration].
  rewrite Hpos, Htgt. subst w2. cbn.
  repeat split; try reflexivity;
    apply lerpVectors_one, easeInOutCubic_one, Hp.
Qed.

(** A frame before the duration has passed leaves the camera at the
    interpolated pose and asks for another frame. *)
Lemma animate_running (a : Animation) (now : Q) (w : World) :
  0 < animationDuration (controller w) ->
  now - startTime a < animationDuration (controller w) ->
  position (camera (controller (animate a now w)))
    = lerpVectors (startPosition a) (targetPosition a)
        (easeInOutCubic (progress a now (controller w))) /\
  target (orbitControls (controller (animate a now w)))
    = lerpVectors (startTarget a) (targetLookAt a)
        (easeInOutCubic (progress a now (controller w))) /\
  isAnimating (controller (animate a now w)) = isAnimating (controller w) /\
  followTarget (controller (animate a now w)) = followTarget (controller w) /\
  frameRequests (animate a now w) = frameRequests w ++ [a] /\
  effects (animate a now w) = effects w /\
  animationDuration (controller (animate a now w)) = animationDuration (controller w).
Proof.
  intros Hd He. pose proof (progress_running a now (controller w) Hd He) as Hp.
  unfold animate.
  assert (E : Qltb (progress a now (controller w)) 1 = true)
    by (apply Qltb_lt; exact Hp).
  rewrite E.
  set (w2 := on_controller _ (on_controller _ w)).
  destruct (orbitControls_update_pose w2) as [Hpos Htgt].
  cbn [controller requestAnimationFrame camera orbitControls].
  rewrite Hpos, Htgt. subst w2. cbn.
  repeat split; reflexivity.
Qed.

Lemma animationFrame_none (now : Q) (w : World) :
  frameRequests w = [] -> animationFrame now w = w.
Proof.
  intros H. unfold animationFrame. rewrite H. cbn [fold_left].
  destruct w; cbn in *. congruence.
Qed.

Lemma animationFrame_one (a : Animation) (now : Q) (w : World) :
  frameRequests w = [a] ->
  animationFrame now w
    = animate a now {| controller := controller w; frameRequests := [];
                       promises := promises w; effects := effects w |}.
Proof. intros H. unfold animationFrame. rewrite H. reflexivity. Qed.

Lemma animationFrame_step (a : Animation) (now : Q) (w : World) :
  0 < animationDuration (controller w) ->
  running a w \/ finished a w ->
  (running a (animationFrame now w) \/ finished a (animationFrame now w)) /\
  animationDuration (controller (animationFrame now w))
    = animationDuration (controller w) /\
  (animationDuration (controller w) <= now - startTime a ->
   finished a (animationFrame now w)).
Proof.
  intros Hd [[Hq Hrun]|Hfin].
  - rewrite (animationFrame_one a now w Hq).
    set (w0 := {| controller := controller w |}).
    destruct (Qlt_le_dec (now - startTime a) (animationDuration (controller w)))
      as [Hlt|Hge].
    + destruct (animate_running a now w0 Hd Hlt) as (_ & _ & Hi & _ & Hf & _ & Hdur).
      split; [left; split; [exact Hf | rewrite Hi; exact Hrun]|].
      split; [exact Hdur|]. intros Hge. lra.
    + destruct (animate_done a now w0 Hd Hge) as (Hp & Ht & Hi & Hf & _ & Hdur).
      assert (finished a (animate a now w0)).
      { unfold finished. rewrite Hf. subst w0. cbn [frameRequests]. tauto. }
      split; [right; assumption|]. split; [exact Hdur | intros _; assumption].
  - assert (Hq : frameRequests w = []) by apply Hfin.
    rewrite (animationFrame_none now w Hq).
    split; [right; exact Hfin|]. split; [reflexivity | intros _; exact Hfin].
Qed.

Lemma animationFrames_snoc (times : list Q) (now : Q) (w : World) :
  animationFrames (times ++ [now]) w = animationFrame now (animationFrames times w).
Proof. unfold animationFrames. rewrite fold_left_app. reflexivity. Qed.

Lemma animationFrames_steps (a : Animation) (times : list Q) (w : World) :
  0 < animationDuration (controller w) ->
  running a w \/ finished a w ->
  (running a (animationFrames times w) \/ finished a (animationFrames times w)) /\
  animationDuration (controller (animationFrames times w))
    = animationDuration (controller w).
Proof.
  intros Hd H. induction times as [|now times IH] using rev_ind.
  - split; [exact H | reflexivity].
  - rewrite animationFrames_snoc. destruct IH as [IH1 IH2].
    destruct (animationFrame_step a now (animationFrames times w)) as (K1 & K2 & _).
    + rewrite IH2. exact Hd.
    + exact IH1.
    + split; [exact K1 | congruence].
Qed.

(** Whatever the earlier frames were, a frame at which the duration has
    passed leaves the transition finished. *)
Lemma animationFrames_complete (a : Animation) (times : list Q) (tend : Q)
    (w : World) :
  0 < animationDuration (controller w) ->
  running a w \/ finished a w ->
  animationDuration (controller w) <= tend - startTime a ->
  finished a (animationFrames (times ++ [tend]) w).
Proof.
  intros Hd H Hend. rewrite animationFrames_snoc.
  destruct (animationFrames_steps a times w Hd H) as [K1 K2].
  apply animationFrame_step; [rewrite K2; exact Hd | exact K1 | rewrite K2; exact Hend].
Qed.

Lemma animateToPosition_unfold (P T : Vector3) (now now1 : Q) (w : World) :
  isAnimating (controller w) = false ->
  exists w0,
    fst (animateToPosition P T now now1 w) = animate (closure P T now w) now1 w0 /\
    frameRequests w0 = frameRequests w /\
    isAnimating (controller w0) = true /\
    followTarget (controller w0) = None /\
    animationDuration (controller w0) = animationDuration (controller w) /\
    camera (controller w0) = camera (controller w) /\
    orbitControls (controller w0) = orbitControls (controller w).
Proof.
  intros Hi. unfold animateToPosition, newPromise, closure.
  cbn [controller]. rewrite Hi. cbn [fst].
  unfold stopFollowing. cbn [controller on_controller set_isAnimating followTarget].
  destruct (followTarget (controller w)) eqn:Hf;
    eexists; (split; [reflexivity|]); cbn; rewrite ?Hf; repeat split; reflexivity.
Qed.

Lemma animateToPosition_starts (P T : Vector3) (now now1 : Q) (w : World) :
  isAnimating (controller w) = false -> frameRequests w = [] ->
  0 < animationDuration (controller w) ->
  (running (closure P T now w) (fst (animateToPosition P T now now1 w)) \/
   finished (closure P T now w) (fst (animateToPosition P T now now1 w))) /\
  animationDuration (controller (fst (animateToPosition P T now now1 w)))
    = animationDuration (controller w) /\
  followTarget (controller (fst (animateToPosition P T now now1 w))) = None.
Proof.
  intros Hi Hq Hd.
  destruct (animateToPosition_unfold P T now now1 w Hi)
    as (w0 & -> & Hq0 & Hi0 & Hf0 & Hd0 & _ & _).
  set (a := closure P T now w).
  destruct (Qlt_le_dec (now1 - startTime a) (animationDuration (controller w0)))
    as [Hlt|Hge].
  - destruct (animate_running a now1 w0) as (_ & _ & Ki & Kf & Kq & _ & Kd);
      [rewrite Hd0; exact Hd | exact Hlt |].
    split; [left; split; [rewrite Kq, Hq0, Hq; reflexivity | congruence]|].
    split; congruence.
  - destruct (animate_done a now1 w0) as (Kp & Kt & Ki & Kq & _ & Kd);
      [rewrite Hd0; exact Hd | exact Hge |].
    split; [right; unfold finished; rewrite Kq, Hq0, Hq; tauto|].
    split; [congruence|].
    unfold animate. destruct (Qltb _ 1); cbn; exact Hf0.
Qed.

Lemma animate_followTarget (a : Animation) (now : Q) (w : World) :
  followTarget (controller (animate a now w)) = followTarget (controller w).
Proof. unfold animate. destruct (Qltb _ 1); reflexivity. Qed.

Lemma animateToPosition_ignored (P T : Vector3) (now now1 : Q) (w : World) :
  isAnimating (controller w) = true ->
  animateToPosition P T now now1 w
    = ({| controller := controller w; frameRequests := frameRequests w;
          promises := S (promises w);
          effects := effects w ++ [Resolve (promises w)] |}, promises w).
Proof.
  intros Hi. unfold animateToPosition, newPromise. cbn [controller].
  rewrite Hi. reflexivity.
Qed.

Lemma flags_eq (w w' : World) :
  flags w' = flags w ->
  isAnimating (controller w') = isAnimating (controller w) /\
  animationDuration (controller w') = animationDuration (controller w) /\
  frameRequests w' = frameRequests w.
Proof. unfold flags. intros [= -> -> ->]. tauto. Qed.

Lemma orbitControls_update_flags (w : World) :
  flags (orbitControls_update w) = flags w.
Proof. reflexivity. Qed.

Lemma updateWASDMovement_flags (dt : Q) (w : World) :
  flags (updateWASDMovement dt w) = flags w.
Proof.
  unfold updateWASDMovement. destruct (inputManager (controller w)); [|reflexivity].
  destruct (Qltb 0 _); [|reflexivity].
  unfold flags. cbn. destruct (String.eqb _ "orbit"); reflexivity.
Qed.

Lemma updateFollowTarget_flags (scene : Object3D -> Vector3) (w : World) :
  flags (updateFollowTarget scene w) = flags w.
Proof.
  unfold updateFollowTarget. destruct (followTarget (controller w)); reflexivity.
Qed.

Lemma if_flags (b : bool) (w' w : World) :
  flags w' = flags w -> flags (if b then w' else w) = flags w.
Proof. destruct b; auto. Qed.

Lemma update_flags (scene : Object3D -> Vector3) (dt : Q) (w : World) :
  flags (update scene dt w) = flags w.
Proof.
  unfold update.
  rewrite if_flags by apply orbitControls_update_flags.
  rewrite if_flags by apply updateFollowTarget_flags.
  apply if_flags, updateWASDMovement_flags.
Qed.

Lemma stopFollowing_flags (w : World) : flags (stopFollowing w) = flags w.
Proof. unfold stopFollowing. destruct (followTarget (controller w)); reflexivity. Qed.

Lemma followObject_flags (obj : Object3D) (offset : option Vector3) (w : World) :
  flags (followObject obj offset w) = flags w.
Proof. unfold followObject. destruct offset; reflexivity. Qed.

Lemma animate_flags (a : Animation) (now : Q) (w : World) :
  flags (animate a now w)
  = if Qltb (progress a now (controller w)) 1
    then (isAnimating (controller w), animationDuration (controller w),
          frameRequests w ++ [a])
    else (false, animationDuration (controller w), frameRequests w).
Proof. unfold animate. destruct (Qltb _ 1); reflexivity. Qed.

Lemma animateToPosition_flags (P T : Vector3) (now now1 : Q) (w : World) :
  flags (fst (animateToPosition P T now now1 w))
  = if isAnimating (controller w) then flags w
    else if Qltb (progress (closure P T now w) now1 (controller w)) 1
         then (true, animationDuration (controller w),
               frameRequests w ++ [closure P T now w])
         else (false, animationDuration (controller w), frameRequests w).
Proof.
  destruct (isAnimating (controller w)) eqn:Hi.
  - rewrite (animateToPosition_ignored P T now now1 w Hi). reflexivity.
  - destruct (animateToPosition_unfold P T now now1 w Hi)
      as (w0 & -> & Hq & Hi0 & _ & Hd & _).
    rewrite animate_flags.
    assert (Hp : progress (closure P T now w) now1 (controller w0)
                 = progress (closure P T now w) now1 (controller w))
      by (unfold progress; rewrite Hd; reflexivity).
    rewrite Hp, Hi0, Hd, Hq. reflexivity.
Qed.

Lemma animationFrame_flags (now : Q) (w : World) :
  flags (animationFrame now w)
  = match frameRequests w with
    | [] => flags w
    | [a] => if Qltb (progress a now (controller w)) 1
             then (isAnimating (controller w), animationDuration (controller w), [a])
             else (false, animationDuration (controller w), [])
    | _ => flags (animationFrame now w)
    end.
Proof.
  destruct (frameRequests w) as [|a [|b l]] eqn:Hq; [| |reflexivity].
  - rewrite (animationFrame_none now w Hq). reflexivity.
  - rewrite (animationFrame_one a now w Hq), animate_flags. reflexivity.
Qed.

(** A call or event other than a frame or a transition request leaves the
    flags alone. *)
Lemma step_flags (i : Input) (w : World) :
  match i with
  | AnimationFrame _ | AnimateToPosition _ _ _ _ | AnimateToPreset _ _ _ => True
  | _ => flags (step i w) = flags w
  end.
Proof.
  destruct i; cbn [step]; try exact I; try reflexivity.
  - apply followObject_flags.
  - apply stopFollowing_flags.
  - apply update_flags.
Qed.

Lemma animateToPreset_flags (presetName : string) (now now1 : Q) (w : World) :
  flags (fst (animateToPreset presetName now now1 w)) = flags w \/
  exists P T, fst (animateToPreset presetName now now1 w)
              = fst (animateToPosition P T now now1 w).
Proof.
  unfold animateToPreset.
  destruct (presets_get (presets (controller w)) presetName) as [p| |].
  - right. eexists _, _. reflexivity.
  - left. reflexivity.
  - left. reflexivity.
Qed.

Lemma consistent_flags (w w' : World) :
  flags w' = flags w -> consistent w -> consistent w'.
Proof.
  intros H. apply flags_eq in H. destruct H as (Hi & Hd & Hq).
  unfold consistent. rewrite Hi, Hd, Hq. tauto.
Qed.

Lemma animateToPosition_consistent (P T : Vector3) (now now1 : Q) (w : World) :
  consistent w -> consistent (fst (animateToPosition P T now now1 w)).
Proof.
  intros Hc. pose proof (animateToPosition_flags P T now now1 w) as Hf.
  destruct (isAnimating (controller w)) eqn:Hi.
  - apply (consistent_flags w); assumption.
  - destruct Hc as [Hd [[_ Hq]|[Hi' _]]]; [|congruence].
    rewrite Hq in Hf. unfold flags in Hf. unfold consistent.
    destruct (Qltb _ 1); injection Hf as -> -> ->; (split; [exact Hd|]).
    + right. split; [reflexivity | eexists; reflexivity].
    + left. split; reflexivity.
Qed.

(** Every world that calls and events lead to is consistent. *)
Lemma reachable_consistent (w : World) : reachable w -> consistent w.
Proof.
  induction 1 as [cam orb im|i w Hr IH].
  - split; [reflexivity | left; split; reflexivity].
  - pose proof (step_flags i w) as Hs.
    destruct i; try (apply (consistent_flags w); assumption).
    + apply animateToPosition_consistent, IH.
    + cbn [step].
      destruct (animateToPreset_flags presetName now now1 w) as [Hf|(P & T & ->)].
      * apply (consistent_flags w); assumption.
      * apply animateToPosition_consistent, IH.
    + cbn [step]. pose proof (animationFrame_flags now w) as Hf.
      destruct IH as [Hd [[Hi Hq]|[Hi [a Hq]]]]; rewrite Hq in Hf.
      * apply (consistent_flags w); [exact Hf|].
        split; [exact Hd | left; split; assumption].
      * unfold flags in Hf. unfold consistent.
        destruct (Qltb _ 1); injection Hf as -> -> ->; (split; [exact Hd|]).
        -- right. split; [exact Hi | eexists; reflexivity].
        -- left. split; reflexivity.
Qed.

Lemma run_snoc (inputs : list Input) (i : Input) (w : World) :
  run (inputs ++ [i]) w = step i (run inputs w).
Proof. unfold run. rewrite fold_left_app. reflexivity. Qed.

Lemma reachable_run (inputs : list Input) (w : World) :
  reachable w -> reachable (run inputs w).
Proof.
  intros Hr. induction inputs as [|i inputs IH] using rev_ind; [exact Hr|].
  rewrite run_snoc. apply reachable_step, IH.
Qed.

(** While a transition is in flight, no call or event other than a frame
    at which its duration has passed takes it out of flight. *)
Lemma step_keeps_running (a : Animation) (i : Input) (w : World) :
  0 < animationDuration (controller w) ->
  running a w ->
  mid_flight a (animationDuration (controller w)) i ->
  running a (step i w) /\
  animationDuration (controller (step i w)) = animationDuration (controller w).
Proof.
  intros Hd [Hq Hi] Hmid.
  assert (Hkeep : forall w', flags w' = flags w ->
            running a w' /\
            animationDuration (controller w') = animationDuration (controller w)).
  { intros w' H. apply flags_eq in H. destruct H as (Ki & Kd & Kq).
    unfold running. rewrite Ki, Kq. tauto. }
  pose proof (step_flags i w) as Hs.
  destruct i; try (apply Hkeep; assumption).
  - apply Hkeep. cbn [step]. rewrite animateToPosition_flags, Hi. reflexivity.
  - cbn [step].
    destruct (animateToPreset_flags presetName now now1 w) as [Hf|(P & T & ->)].
    + apply Hkeep, Hf.
    + apply Hkeep. rewrite animateToPosition_flags, Hi. reflexivity.
  - cbn [step mid_flight] in *. apply Hkeep.
    rewrite animationFrame_flags, Hq.
    assert (E : Qltb (progress a now (controller w)) 1 = true)
      by (apply Qltb_lt, progress_running; assumption).
    rewrite E. unfold flags. rewrite Hq. reflexivity.
Qed.

Lemma run_keeps_running (a : Animation) (inputs : list Input) (w : World) :
  0 < animationDuration (controller w) ->
  running a w ->
  Forall (mid_flight a (animationDuration (controller w))) inputs ->
  running a (run inputs w) /\
  animationDuration (controller (run inputs w)) = animationDuration (controller w).
Proof.
  intros Hd Hrun. induction inputs as [|i inputs IH] using rev_ind; intros Hall.
  - split; [exact Hrun | reflexivity].
  - apply Forall_app in Hall. destruct Hall as [Hall Hi].
    apply Forall_inv in Hi. destruct (IH Hall) as [K1 K2].
    rewrite run_snoc.
    destruct (step_keeps_running a i (run inputs w)) as [M1 M2];
      [rewrite K2; exact Hd | exact K1 | rewrite K2; exact Hi |].
    split; [exact M1 | congruence].
Qed.

(** Whatever calls and events come while the transition is in flight, the
    frame at which its duration has passed ends it at its end pose. *)
Lemma run_complete (a : Animation) (inputs : list Input) (tend : Q) (w : World) :
  0 < animationDuration (controller w) ->
  running a w ->
  Forall (mid_flight a (animationDuration (controller w))) inputs ->
  animationDuration (controller w) <= tend - startTime a ->
  finished a (step (AnimationFrame tend) (run inputs w)).
Proof.
  intros Hd Hrun Hall Hend.
  destruct (run_keeps_running a inputs w Hd Hrun Hall) as [K1 K2].
  cbn [step]. apply animationFrame_step;
    [rewrite K2; exact Hd | left; exact K1 | rewrite K2; exact Hend].
Qed.

Lemma finished_at_rest (a : Animation) (w : World) :
  finished a w -> at_rest (targetPosition a) (targetLookAt a) w.
Proof. unfold finished, at_rest. tauto. Qed.

Lemma reachable_idle (w : World) :
  reachable w -> isAnimating (controller w) = false ->
  frameRequests w = [] /\ 0 < animationDuration (controller w).
Proof.
  intros Hr Hi. destruct (reachable_consistent w Hr) as [Hd [[_ Hq]|[Hi' _]]];
    [|congruence].
  split; [exact Hq | rewrite Hd; reflexivity].
Qed.

Lemma reachable_animating (w : World) :
  reachable w -> isAnimating (controller w) = true ->
  (exists a, frameRequests w = [a]) /\ 0 < animationDuration (controller w).
Proof.
  intros Hr Hi. destruct (reachable_consistent w Hr) as [Hd [[Hi' _]|[_ Ha]]];
    [congruence|].
  split; [exact Ha | rewrite Hd; reflexivity].
Qed.

(** With any orbit controls: a frame at which the duration has passed ends
    the animation. *)
Lemma animate_ends (a : Animation) (now : Q) (w : World) :
  0 < animationDuration (controller w) ->
  animationDuration (controller w) <= now - startTime a ->
  frameRequests w = [] ->
  ended a (animate a now w) /\
  animationDuration (controller (animate a now w)) = animationDuration (controller w) /\
  effects (animate a now w) = effects w ++ [Resolve (promise a)].
Proof.
  intros Hd He Hq. pose proof (progress_done a now (controller w) Hd He) as Hp.
  unfold animate.
  assert (E : Qltb (progress a now (controller w)) 1 = false)
    by (apply Qltb_ge; lra).
  rewrite E. split; [|split; reflexivity].
  split; [exact Hq|]. split; [reflexivity|].
  exists (mkCamera
            (lerpVectors (startPosition a) (targetPosition a)
               (easeInOutCubic (progress a now (controller w))))
            (quaternion (camera (controller w)))),
         (mkOrbitControls
            (lerpVectors (startTarget a) (targetLookAt a)
               (easeInOutCubic (progress a now (controller w))))
            (enabled (orbitControls (controller w)))).
  split; [apply lerpVectors_one, easeInOutCubic_one, Hp|].
  split; [apply lerpVectors_one, easeInOutCubic_one, Hp|].
  split; reflexivity.
Qed.

(** Orbit controls that leave the pose alone leave an ended transition at
    its end pose. *)
Lemma ended_finished (a : Animation) (w : World) :
  keeps_pose L -> ended a w -> finished a w.
Proof.
  intros Hkeep (Hq & Hi & cam0 & orb0 & Hp & Ht & Hc & Ho).
  destruct (Hkeep cam0 orb0) as [Kp Kt].
  split; [exact Hq|]. split; [exact Hi|].
  rewrite Hc, Ho, Kp, Kt. split; assumption.
Qed.

Lemma animationFrame_ends (a : Animation) (now : Q) (w : World) :
  0 < animationDuration (controller w) ->
  running a w \/ ended a w ->
  (running a (animationFrame now w) \/ ended a (animationFrame now w)) /\
  animationDuration (controller (animationFrame now w))
    = animationDuration (controller w) /\
  (animationDuration (controller w) <= now - startTime a ->
   ended a (animationFrame now w)).
Proof.
  intros Hd [[Hq Hrun]|Hend].
  - rewrite (animationFrame_one a now w Hq).
    set (w0 := {| controller := controller w |}).
    destruct (Qlt_le_dec (now - startTime a) (animationDuration (controller w)))
      as [Hlt|Hge].
    + pose proof (animate_flags a now w0) as Hf.
      assert (E : Qltb (progress a now (controller w0)) 1 = true)
        by (apply Qltb_lt, progress_running; assumption).
      rewrite E in Hf. unfold flags in Hf. injection Hf as Ki Kd Kq.
      split; [left; split; [exact Kq | rewrite Ki; exact Hrun]|].
      split; [exact Kd|]. intros Hge. lra.
    + destruct (animate_ends a now w0 Hd Hge eq_refl) as (K & Kd & _).
      split; [right; exact K|]. split; [exact Kd | intros _; exact K].
  - assert (Hq : frameRequests w = []) by apply Hend.
    rewrite (animationFrame_none now w Hq).
    split; [right; exact Hend|]. split; [reflexivity | intros _; exact Hend].
Qed.

Lemma animationFrames_ends (a : Animation) (times : list Q) (tend : Q) (w : World) :
  0 < animationDuration (controller w) ->
  running a w \/ ended a w ->
  animationDuration (controller w) <= tend - startTime a ->
  ended a (animationFrames (times ++ [tend]) w).
Proof.
  intros Hd H Hend. rewrite animationFrames_snoc.
  assert (K : (running a (animationFrames times w) \/
               ended a (animationFrames times w)) /\
              animationDuration (controller (animationFrames times w))
                = animationDuration (controller w)).
  { induction times as [|now times IH] using rev_ind.
    - split; [exact H | reflexivity].
    - rewrite animationFrames_snoc. destruct IH as [IH1 IH2].
      destruct (animationFrame_ends a now (animationFrames times w)) as (K1 & K2 & _);
        [rewrite IH2; exact Hd | exact IH1 |].
      split; [exact K1 | congruence]. }
  destruct K as [K1 K2].
  apply animationFrame_ends; [rewrite K2; exact Hd | exact K1 | rewrite K2; exact Hend].
Qed.

Lemma run_ends (a : Animation) (inputs : list Input) (tend : Q) (w : World) :
  0 < animationDuration (controller w) ->
  running a w ->
  Forall (mid_flight a (animationDuration (controller w))) inputs ->
  animationDuration (controller w) <= tend - startTime a ->
  ended a (step (AnimationFrame tend) (run inputs w)).
Proof.
  intros Hd Hrun Hall Hend.
  destruct (run_keeps_running a inputs w Hd Hrun Hall) as [K1 K2].
  cbn [step]. apply animationFrame_ends;
    [rewrite K2; exact Hd | left; exact K1 | rewrite K2; exact Hend].
Qed.

Lemma animateToPosition_begins (P T : Vector3) (now now1 : Q) (w : World) :
  isAnimating (controller w) = false -> frameRequests w = [] ->
  0 < animationDuration (controller w) ->
  (running (closure P T now w) (fst (animateToPosition P T now now1 w)) \/
   ended (closure P T now w) (fst (animateToPosition P T now now1 w))) /\
  animationDuration (controller (fst (animateToPosition P T now now1 w)))
    = animationDuration (controller w) /\
  (now1 - now < animationDuration (controller w) ->
   running (closure P T now w) (fst (animateToPosition P T now now1 w))).
Proof.
  intros Hi Hq Hd.
  destruct (animateToPosition_unfold P T now now1 w Hi)
    as (w0 & -> & Hq0 & Hi0 & _ & Hd0 & _ & _).
  set (a := closure P T now w).
  assert (Hrun : now1 - now < animationDuration (controller w) ->
                 running a (animate a now1 w0)).
  { intros Hlt. pose proof (animate_flags a now1 w0) as Hf.
    assert (E : Qltb (progress a now1 (controller w0)) 1 = true)
      by (apply Qltb_lt, progress_running; rewrite Hd0; assumption).
    rewrite E in Hf. unfold flags in Hf. injection Hf as Ki _ Kq.
    split; [rewrite Kq, Hq0, Hq; reflexivity | congruence]. }
  assert (Hdur : animationDuration (controller (animate a now1 w0))
                 = animationDuration (controller w)).
  { pose proof (animate_flags a now1 w0) as Hf.
    unfold flags in Hf. destruct (Qltb _ 1); injection Hf as _ Kd _; congruence. }
  split; [|split; [exact Hdur | exact Hrun]].
  destruct (Qlt_le_dec (now1 - now) (animationDuration (controller w))) as [Hlt|Hge].
  - left. exact (Hrun Hlt).
  - right. apply animate_ends; [rewrite Hd0; exact Hd | rewrite Hd0; exact Hge|].
    rewrite Hq0. exact Hq.
Qed.

(** C6, amended. A transition started by [animateToPosition] toward
    position [P] and look-target [T], in a controller that is not
    animating, ends at the frame that reads a clock at least
    [animationDuration] after the start, whatever the times of the frames
    before it and whatever calls and events (ticks of [update], key
    presses, further requests) come between the frames while the
    transition is in flight: after that frame [isAnimating] is false, no
    frame is requested any more, and camera and orbit controls are what
    [OrbitControls.update()] returned when called with the camera at [P]
    and the look-target at [T].  With orbit controls that leave position
    and target as they are, the camera position is [P] and the look-target
    is [T]. *)
Theorem transition_ends_at_target
  (w : World) (P T : Vector3) (now now1 tend : Q) :
  reachable w ->
  isAnimating (controller w) = false ->
  animationDuration (controller w) <= tend - now ->
  (forall times : list Q,
      ended (closure P T now w)
        (animationFrames (times ++ [tend])
           (fst (animateToPosition P T now now1 w)))) /\
  (forall inputs : list Input,
      now1 - now < animationDuration (controller w) ->
      Forall (mid_flight (closure P T now w) (animationDuration (controller w)))
        inputs ->
      ended (closure P T now w)
        (step (AnimationFrame tend)
           (run inputs (fst (animateToPosition P T now now1 w))))) /\
  (keeps_pose L ->
   (forall times : list Q,
       at_rest P T
         (animationFrames (times ++ [tend])
            (fst (animateToPosition P T now now1 w)))) /\
   (forall inputs : list Input,
       now1 - now < animationDuration (controller w) ->
       Forall (mid_flight (closure P T now w) (animationDuration (controller w)))
         inputs ->
       at_rest P T
         (step (AnimationFrame tend)
            (run inputs (fst (animateToPosition P T now now1 w)))))).
Proof.
  intros Hr Hi Hend. destruct (reachable_idle w Hr Hi) as [Hq Hd].
  destruct (animateToPosition_begins P T now now1 w Hi Hq Hd) as (Hs & Hdur & Hrun).
  assert (Hframes : forall times : list Q,
             ended (closure P T now w)
               (animationFrames (times ++ [tend])
                  (fst (animateToPosition P T now now1 w)))).
  { intros times.
    apply animationFrames_ends;
      [rewrite Hdur; exact Hd | exact Hs | rewrite Hdur; exact Hend]. }
  assert (Hinputs : forall inputs : list Input,
             now1 - now < animationDuration (controller w) ->
             Forall (mid_flight (closure P T now w) (animationDuration (controller w)))
               inputs ->
             ended (closure P T now w)
               (step (AnimationFrame tend)
                  (run inputs (fst (animateToPosition P T now now1 w))))).
  { intros inputs Hfirst Hall.
    apply run_ends; rewrite ?Hdur; try assumption. exact (Hrun Hfirst). }
  split; [exact Hframes|]. split; [exact Hinputs|].
  intros Hkeep. split.
  - intros times. apply (finished_at_rest (closure P T now w)).
    apply ended_finished; [exact Hkeep | apply Hframes].
  - intros inputs Hfirst Hall. apply (finished_at_rest (closure P T now w)).
    apply ended_finished; [exact Hkeep | apply Hinputs; assumption].
Qed.

Lemma animateToPreset_ignored (presetName : string) (now now1 : Q) (w : World) :
  isAnimating (controller w) = true ->
  controller (fst (animateToPreset presetName now now1 w)) = controller w /\
  frameRequests (fst (animateToPreset presetName now now1 w)) = frameRequests w.
Proof.
  intros Hi. unfold animateToPreset.
  destruct (presets_get (presets (controller w)) presetName) as [p| |].
  - rewrite (animateToPosition_ignored _ _ now now1 w Hi). split; reflexivity.
  - split; reflexivity.
  - split; reflexivity.
Qed.

(** C10, amended. Called while [isAnimating] is true, [animateToPosition]
    returns a promise that is resolved at once and changes nothing else:
    the controller (camera position, orbit-controls target, [isAnimating],
    [followTarget]) and the pending closure of the running transition,
    with its start and end pose, are as before.  The running transition
    still ends at the frame that reads a clock at least [animationDuration]
    after its start, whatever the frames before it and whatever calls and
    events come while it is in flight; camera and orbit controls are then
    what [OrbitControls.update()] returned when called at the transition's
    own end pose, which is that end pose itself with orbit controls that
    leave position and target as they are. *)
Theorem animateToPosition_while_animating
  (w : World) (P T : Vector3) (now now1 : Q) :
  isAnimating (controller w) = true ->
  controller (fst (animateToPosition P T now now1 w)) = controller w /\
  frameRequests (fst (animateToPosition P T now now1 w)) = frameRequests w /\
  effects (fst (animateToPosition P T now now1 w))
    = effects w ++ [Resolve (snd (animateToPosition P T now now1 w))] /\
  (reachable w ->
   exists a,
     frameRequests w = [a] /\
     (forall times tend,
         animationDuration (controller w) <= tend - startTime a ->
         ended a
           (animationFrames (times ++ [tend])
              (fst (animateToPosition P T now now1 w))) /\
         (keeps_pose L ->
          at_rest (targetPosition a) (targetLookAt a)
            (animationFrames (times ++ [tend])
               (fst (animateToPosition P T now now1 w))))) /\
     (forall inputs tend,
         Forall (mid_flight a (animationDuration (controller w))) inputs ->
         animationDuration (controller w) <= tend - startTime a ->
         ended a
           (step (AnimationFrame tend)
              (run inputs (fst (animateToPosition P T now now1 w)))) /\
         (keeps_pose L ->
          at_rest (targetPosition a) (targetLookAt a)
            (step (AnimationFrame tend)
               (run inputs (fst (animateToPosition P T now now1 w))))))).
Proof.
  intros Hi. rewrite (animateToPosition_ignored P T now now1 w Hi). cbn [fst snd].
  split; [reflexivity|]. split; [reflexivity|]. split; [reflexivity|].
  intros Hr. destruct (reachable_animating w Hr Hi) as [[a Hq] Hd].
  exists a. split; [exact Hq|]. split.
  - intros times tend Hend.
    assert (K : ended a
                  (animationFrames (times ++ [tend])
                     {| controller := controller w; frameRequests := frameRequests w;
                        promises := S (promises w);
                        effects := effects w ++ [Resolve (promises w)] |}))
      by (apply animationFrames_ends;
          [exact Hd | left; split; assumption | exact Hend]).
    split; [exact K|]. intros Hkeep.
    apply finished_at_rest, ended_finished; assumption.
  - intros inputs tend Hall Hend.
    assert (K : ended a
                  (step (AnimationFrame tend)
                     (run inputs
                        {| controller := controller w; frameRequests := frameRequests w;
                           promises := S (promises w);
                           effects := effects w ++ [Resolve (promises w)] |})))
      by (apply run_ends; try assumption; split; assumption).
    split; [exact K|]. intros Hkeep.
    apply finished_at_rest, ended_finished; assumption.
Qed.

(** C1, amended. A request [B] ([animateToPosition] or [animateToPreset])
    issued while a transition [A] is in flight is dropped: the controller,
    with camera position and look-target, stays exactly as it was at the
    instant of the request, and [A] stays the only pending transition,
    with its own start and end pose.  Right after a frame of [A] that pose
    is what [OrbitControls.update()] returned for [A]'s interpolated pose
    at that frame.  The controller goes on with [A], which ends at the
    frame that reads a clock at least [animationDuration] after [A]'s
    start: camera and orbit controls are then what [OrbitControls.update()]
    returned when called at [A]'s end pose, which is [A]'s end pose itself
    with orbit controls that leave position and target as they are. *)
Theorem request_in_flight_is_dropped
  (w : World) (PB TB : Vector3) (t2 t2' : Q) :
  reachable w ->
  isAnimating (controller w) = true ->
  exists a,
    frameRequests w = [a] /\
    (forall wB,
        wB = fst (animateToPosition PB TB t2 t2' w) \/
        (exists presetName, wB = fst (animateToPreset presetName t2 t2' w)) ->
        controller wB = controller w /\
        frameRequests wB = [a] /\
        (forall inputs tend,
            Forall (mid_flight a (animationDuration (controller w))) inputs ->
            animationDuration (controller w) <= tend - startTime a ->
            ended a (step (AnimationFrame tend) (run inputs wB)) /\
            (keeps_pose L ->
             at_rest (targetPosition a) (targetLookAt a)
               (step (AnimationFrame tend) (run inputs wB))))) /\
    (forall t1,
        t1 - startTime a < animationDuration (controller w) ->
        exists cam1 orb1,
          position cam1
            = lerpVectors (startPosition a) (targetPosition a)
                (easeInOutCubic (progress a t1 (controller w))) /\
          target orb1
            = lerpVectors (startTarget a) (targetLookAt a)
                (easeInOutCubic (progress a t1 (controller w))) /\
          camera (controller (fst (animateToPosition PB TB t2 t2'
                                     (animationFrame t1 w))))
            = fst (OrbitControls_update cam1 orb1) /\
          orbitControls (controller (fst (animateToPosition PB TB t2 t2'
                                            (animationFrame t1 w))))
            = snd (OrbitControls_update cam1 orb1) /\
          frameRequests (fst (animateToPosition PB TB t2 t2' (animationFrame t1 w)))
            = [a]).
Proof.
  intros Hr Hi. destruct (reachable_animating w Hr Hi) as [[a Hq] Hd].
  exists a. split; [exact Hq|]. split.
  - intros wB HB.
    assert (HwB : controller wB = controller w /\ frameRequests wB = frameRequests w).
    { destruct HB as [->|[presetName ->]].
      - rewrite (animateToPosition_ignored PB TB t2 t2' w Hi). split; reflexivity.
      - apply animateToPreset_ignored, Hi. }
    destruct HwB as [Hc Hf].
    split; [exact Hc|]. split; [rewrite Hf; exact Hq|].
    intros inputs tend Hall Hend.
    assert (K : ended a (step (AnimationFrame tend) (run inputs wB))).
    { apply run_ends; rewrite ?Hc; try assumption.
      split; [rewrite Hf; exact Hq | rewrite Hc; exact Hi]. }
    split; [exact K|]. intros Hkeep.
    apply finished_at_rest, ended_finished; assumption.
  - intros t1 Hmid.
    assert (E : Qltb (progress a t1 (controller w)) 1 = true)
      by (apply Qltb_lt, progress_running; assumption).
    assert (HiA : isAnimating (controller (animationFrame t1 w)) = true).
    { pose proof (animationFrame_flags t1 w) as Hf. rewrite Hq, E in Hf.
      unfold flags in Hf. injection Hf as Ki _ _. congruence. }
    rewrite (animateToPosition_ignored PB TB t2 t2' _ HiA). cbn [fst controller frameRequests].
    rewrite (animationFrame_one a t1 w Hq). unfold animate. cbn [controller].
    rewrite E.
    exists (mkCamera
              (lerpVectors (startPosition a) (targetPosition a)
                 (easeInOutCubic (progress a t1 (controller w))))
              (quaternion (camera (controller w)))),
           (mkOrbitControls
              (lerpVectors (startTarget a) (targetLookAt a)
                 (easeInOutCubic (progress a t1 (controller w))))
              (enabled (orbitControls (controller w)))).
    split; [reflexivity|]. split; [reflexivity|].
    split; [reflexivity|]. split; reflexivity.
Qed.

Lemma updateWASDMovement_isAnimating (dt : Q) (w : World) :
  isAnimating (controller (updateWASDMovement dt w)) = isAnimating (controller w) /\
  followTarget (controller (updateWASDMovement dt w)) = followTarget (controller w).
Proof.
  unfold updateWASDMovement. destruct (inputManager (controller w)); [|tauto].
  destruct (Qltb 0 _); cbn; [|tauto].
  destruct (String.eqb _ "orbit"); cbn; tauto.
Qed.

(** C2, amended. Following and Transitioning exclude each other in one
    direction only.  Starting a transition (in a controller that is not
    animating) clears the follow target.  [followObject] sets the follow
    target and leaves [isAnimating] and the pending transition as they
    are, so both can hold at once; while they do, [update] makes no follow
    step: it is the free-fly movement followed by the orbit-controls
    update. *)
Theorem follow_and_transition (w : World) :
  (forall P T now now1,
      isAnimating (controller w) = false ->
      followTarget (controller (fst (animateToPosition P T now now1 w))) = None) /\
  (forall obj offset,
      followTarget (controller (followObject obj offset w)) = Some obj /\
      isAnimating (controller (followObject obj offset w))
        = isAnimating (controller w) /\
      frameRequests (followObject obj offset w) = frameRequests w) /\
  (forall scene dt,
      isAnimating (controller w) = true ->
      update scene dt w
        = let w1 :=
            if wasdEnabled (controller w)
               && match inputManager (controller w) with
                  | Some _ => true
                  | None => false
                  end
            then updateWASDMovement dt w else w in
          if String.eqb (controlMode (controller w1)) "orbit"
          then orbitControls_update w1 else w1).
Proof.
  split; [|split].
  - intros P T now now1 Hi.
    destruct (animateToPosition_unfold P T now now1 w Hi)
      as (w0 & -> & _ & _ & Hf & _).
    rewrite animate_followTarget. exact Hf.
  - intros obj offset. unfold followObject. destruct offset; cbn; tauto.
  - intros scene dt Hi. unfold update.
    set (w1 := if _ && _ then updateWASDMovement dt w else w).
    assert (Hi1 : isAnimating (controller w1) = true).
    { subst w1. destruct (_ && _); [|exact Hi].
      rewrite (proj1 (updateWASDMovement_isAnimating dt w)). exact Hi. }
    rewrite Hi1. cbn [negb]. rewrite andb_false_r. reflexivity.
Qed.

(** X25. For a name that [this.presets[name]] reads as [undefined] (no
    preset and not a name inherited through the prototype chain),
    [animateToPreset] warns and does nothing else: the controller (camera
    position, orbit-controls target, follow target, [isAnimating], preset
    map) is as before, no frame is requested, and the promise it returns
    is resolved.  For an inherited name it does not warn: the controller
    and the frame requests are as before as well, and the promise is
    rejected. *)
Theorem animateToPreset_unknown
  (w : World) (presetName : string) (now now1 : Q) :
  presets (controller w) !! presetName = None ->
  controller (fst (animateToPreset presetName now now1 w)) = controller w /\
  frameRequests (fst (animateToPreset presetName now now1 w)) = frameRequests w /\
  effects (fst (animateToPreset presetName now now1 w))
    = effects w ++
      match presets_get (presets (controller w)) presetName with
      | Undefined =>
          [ConsoleWarn (PresetNotFound presetName);
           Resolve (snd (animateToPreset presetName now now1 w))]
      | _ => [Reject (snd (animateToPreset presetName now now1 w))]
      end /\
  (presets_get (presets (controller w)) presetName = Undefined <->
   inherited presetName = false /\
   (is_Some (presets (controller w) !! "__proto__") ->
    presetName <> "position" /\ presetName <> "target")).
Proof.
  intros Hnone. unfold animateToPreset.
  assert (Hget : presets_get (presets (controller w)) presetName = Undefined <->
                 inherited presetName = false /\
                 (is_Some (presets (controller w) !! "__proto__") ->
                  presetName <> "position" /\ presetName <> "target")).
  { unfold presets_get. rewrite Hnone.
    destruct (inherited presetName); [split; [discriminate | intros [? _]; discriminate]|].
    destruct (presets (controller w) !! "__proto__") as [p|].
    - destruct (String.eqb presetName "position") eqn:E1;
        [apply String.eqb_eq in E1; cbn [orb]; split;
           [discriminate | intros [_ H]; destruct (H (mk_is_Some _ _ eq_refl)); contradiction]|].
      destruct (String.eqb presetName "target") eqn:E2;
        [apply String.eqb_eq in E2; cbn [orb]; split;
           [discriminate | intros [_ H]; destruct (H (mk_is_Some _ _ eq_refl)); contradiction]|].
      apply String.eqb_neq in E1, E2. cbn [orb]. split; [|reflexivity].
      intros _. split; [reflexivity|]. intros _. split; assumption.
    - split; [|reflexivity]. intros _. split; [reflexivity|].
      intros [p Hp]. discriminate. }
  split; [|split; [|split; [|exact Hget]]].
  - unfold presets_get. rewrite Hnone.
    destruct (inherited presetName); [reflexivity|].
    destruct (presets (controller w) !! "__proto__"); [|reflexivity].
    destruct (_ || _); reflexivity.
  - unfold presets_get. rewrite Hnone.
    destruct (inherited presetName); [reflexivity|].
    destruct (presets (controller w) !! "__proto__"); [|reflexivity].
    destruct (_ || _); reflexivity.
  - unfold presets_get. rewrite Hnone.
    destruct (inherited presetName); [reflexivity|].
    destruct (presets (controller w) !! "__proto__"); cbn;
      [|rewrite <- app_assoc; reflexivity].
    destruct (_ || _); cbn; [reflexivity | rewrite <- app_assoc; reflexivity].
Qed.

(** C9. When the direction composed from the held keys has zero length,
    the free-fly step leaves the camera and the orbit-controls target where
    they are and calls [normalize] on nothing; and whenever the step does
    call [normalize], the vector it passes has positive length. *)
Theorem zero_direction_is_no_movement (w : World) (dt : Q) (im : InputManager) :
  inputManager (controller w) = Some im ->
  length (composedDirection (controller w) im) == 0 ->
  camera (controller (updateWASDMovement dt w)) = camera (controller w) /\
  orbitControls (controller (updateWASDMovement dt w))
    = orbitControls (controller w) /\
  effects (updateWASDMovement dt w) = effects w /\
  (forall dt' w' v,
      In (Normalize v) (effects (updateWASDMovement dt' w')) ->
      In (Normalize v) (effects w') \/ 0 < length v).
Proof.
  intros Him Hzero. split; [|split; [|split]].
  - unfold updateWASDMovement. rewrite Him.
    assert (E : Qltb 0 (length (composedDirection (controller w) im)) = false)
      by (apply Qltb_ge; rewrite Hzero; apply Qle_refl).
    rewrite E. reflexivity.
  - unfold updateWASDMovement. rewrite Him.
    assert (E : Qltb 0 (length (composedDirection (controller w) im)) = false)
      by (apply Qltb_ge; rewrite Hzero; apply Qle_refl).
    rewrite E. reflexivity.
  - unfold updateWASDMovement. rewrite Him.
    assert (E : Qltb 0 (length (composedDirection (controller w) im)) = false)
      by (apply Qltb_ge; rewrite Hzero; apply Qle_refl).
    rewrite E. reflexivity.
  - intros dt' w' v. unfold updateWASDMovement.
    destruct (inputManager (controller w')) as [im'|]; [|tauto].
    destruct (Qltb 0 (length (composedDirection (controller w') im'))) eqn:E.
    + cbn [effects on_controller emit]. rewrite in_app_iff.
      intros [H|[H|[]]]; [left; exact H|].
      injection H as <-. right. apply Qltb_lt, E.
    + cbn [effects on_controller]. tauto.
Qed.

(** The object that [getWASDState] returns has none of the properties
    that [updateWASDMovement] reads. *)
Lemma getWASDState_properties (im : InputManager) :
  getWASDState im !! "forward" = None /\
  getWASDState im !! "backward" = None /\
  getWASDState im !! "left" = None /\
  getWASDState im !! "right" = None.
Proof. repeat split; reflexivity. Qed.

(** So the composed direction is made of Space and Control alone. *)
Lemma composedDirection_vertical (c : CameraController) (im : InputManager) :
  composedDirection c im
  = let d := mkVector3 0 0 0 in
    let d := if isKeyPressed "Space" im then add d (mkVector3 0 1 0) else d in
    if isKeyPressed "ControlLeft" im || isKeyPressed "ControlRight" im
    then sub d (mkVector3 0 1 0) else d.
Proof.
  unfold composedDirection.
  destruct (getWASDState_properties im) as (-> & -> & -> & ->).
  reflexivity.
Qed.

End WithLibrary.

End CameraFacts.

(** * The scenarios *)

Module CameraExamples.
Import JavaScript Three InputManager CameraController CameraFacts.
Local Open Scope Q_scope.
#[local] Existing Instance idle.

Lemma idle_keeps_pose : keeps_pose idle.
Proof. intros cam orb. split; reflexivity. Qed.

Lemma veqb_veq (a b : Vector3) : veqb a b = true <-> veq a b.
Proof.
  unfold veqb, veq. rewrite !andb_true_iff, !Qeq_bool_iff. tauto.
Qed.

Example A_in_flight_pose :
  veq (position (camera (controller A_in_flight))) (mkVector3 0 35 75) /\
  isAnimating (controller A_in_flight) = true.
Proof. split; [apply veqb_veq|]; vm_compute; reflexivity. Qed.

(** C1, as stated, fails: request [B] made while [A] is in flight is not
    taken up.  After it the only pending transition is still [A], toward
    the preset "sun"; the later frames bring the camera to [A]'s end pose
    [(0, 20, 50)], not to [B]'s end pose [(45, 10, 20)], and then no
    transition is left. *)
Lemma second_request_does_not_preempt :
  isAnimating (controller A_in_flight) = true /\
  map targetPosition (frameRequests B_requested) = [mkVector3 0 20 50] /\
  veq (position (camera (controller B_later))) (mkVector3 0 20 50) /\
  ~ veq (position (camera (controller B_later))) (mkVector3 45 10 20) /\
  isAnimating (controller B_later) = false /\
  frameRequests B_later = [].
Proof.
  split; [vm_compute; reflexivity|].
  split; [vm_compute; reflexivity|].
  split; [apply veqb_veq; vm_compute; reflexivity|].
  split; [rewrite <- veqb_veq; vm_compute; discriminate|].
  split; vm_compute; reflexivity.
Qed.

Lemma request_in_flight_is_dropped_witness :
  exists a,
    frameRequests A_in_flight = [a] /\
    controller (fst (animateToPosition (mkVector3 45 10 20) (mkVector3 45 0 0)
                       1000 1000 A_in_flight))
      = controller A_in_flight /\
    controller (fst (animateToPreset "earth" 1000 1000 A_in_flight))
      = controller A_in_flight.
Proof.
  destruct (request_in_flight_is_dropped A_in_flight
              (mkVector3 45 10 20) (mkVector3 45 0 0) 1000 1000)
    as (a & Hq & H & _).
  - unfold A_in_flight. apply reachable_run, reachable_start.
  - vm_compute. reflexivity.
  - exists a. split; [exact Hq|]. split.
    + exact (proj1 (H _ (or_introl eq_refl))).
    + exact (proj1 (H _ (or_intror (ex_intro _ "earth" eq_refl)))).
Defined.

Lemma follow_and_transition_witness :
  followTarget
    (controller
       (fst (animateToPosition (mkVector3 0 20 50) (mkVector3 0 0 0) 0 0
               (followObject 3%nat None initial)))) = None.
Proof.
  apply (proj1 (follow_and_transition (followObject 3%nat None initial))).
  reflexivity.
Defined.

(** C2, as stated, fails: [followObject] called while transition [A] is in
    flight leaves [isAnimating] true, and the follow target is set with
    it, in a world that calls and events lead to. *)
Lemma following_while_animating :
  reachable follow_requested /\
  isAnimating (controller A_in_flight) = true /\
  isAnimating (controller follow_requested) = true /\
  followTarget (controller follow_requested) = Some 3%nat.
Proof.
  split; [|repeat split; vm_compute; reflexivity].
  unfold follow_requested, A_in_flight.
  apply reachable_run, reachable_run, reachable_start.
Qed.

(** C3: with the W key held, a tick of 1/60 s leaves the camera at
    [(0, 50, 100)] and the orbit-controls target at the origin, where the
    specification has both move by [(0, 0, -1) * 50 * (1/60)]. *)
Theorem W_key_does_not_move_camera :
  isKeyPressed "KeyW" (default InputManager.constructor
                         (inputManager (controller W_held))) = true /\
  position (camera (controller (updateWASDMovement (1 / 60) W_held)))
    = mkVector3 0 50 100 /\
  target (orbitControls (controller (updateWASDMovement (1 / 60) W_held)))
    = mkVector3 0 0 0 /\
  ~ veq (position (camera (controller (updateWASDMovement (1 / 60) W_held))))
        (add (mkVector3 0 50 100)
             (multiplyScalar (mkVector3 0 0 (-1)) (50 * (1 / 60)))).
Proof.
  split; [vm_compute; reflexivity|].
  split; [vm_compute; reflexivity|].
  split; [vm_compute; reflexivity|].
  rewrite <- veqb_veq. vm_compute. discriminate.
Qed.

(** The vertical keys do work: Space moves camera and target up. *)
Example Space_key_moves_camera :
  veq (position (camera (controller (updateWASDMovement (1 / 60) Space_held))))
      (mkVector3 0 (50 + 50 / 60) 100) /\
  veq (target (orbitControls (controller (updateWASDMovement (1 / 60) Space_held))))
      (mkVector3 0 (50 / 60) 0).
Proof. split; apply veqb_veq; vm_compute; reflexivity. Qed.

Lemma transition_ends_at_target_witness :
  at_rest (mkVector3 0 20 50) (mkVector3 0 0 0)
    (animationFrames ([16; 1000] ++ [2000])%Q
       (fst (animateToPosition (mkVector3 0 20 50) (mkVector3 0 0 0) 0 0 initial))).
Proof.
  destruct (transition_ends_at_target initial
              (mkVector3 0 20 50) (mkVector3 0 0 0) 0 0 2000)
    as (_ & _ & Hkeep).
  - apply reachable_start.
  - reflexivity.
  - vm_compute. discriminate.
  - exact (proj1 (Hkeep idle_keeps_pose) [16; 1000]%Q).
Defined.

(** C6, as stated, fails with the distance limits the application gives
    its orbit controls.  A transition toward [P = (0, 0, 5)] looking at the
    origin, started at time 0 in the controller as the application sets it
    up, has ended after the frame at 2000 ms, and the camera is at
    [(0, 0, 10)], at [minDistance] from the look-target, not at [P]. *)
Lemma transition_misses_target :
  isAnimating (controller initial) = false /\
  animationDuration (controller initial) <= 2000 - 0 /\
  isAnimating (controller close_up) = false /\
  frameRequests close_up = [] /\
  veq (target (orbitControls (controller close_up))) (mkVector3 0 0 0) /\
  veq (position (camera (controller close_up))) (mkVector3 0 0 10) /\
  ~ veq (position (camera (controller close_up))) (mkVector3 0 0 5).
Proof.
  split; [reflexivity|].
  split; [vm_compute; discriminate|].
  split; [vm_compute; reflexivity|].
  split; [vm_compute; reflexivity|].
  split; [apply veqb_veq; vm_compute; reflexivity|].
  split; [apply veqb_veq; vm_compute; reflexivity|].
  rewrite <- veqb_veq. vm_compute. discriminate.
Qed.

(** C10, as stated, fails in its last part with the same orbit controls.
    The transition toward [(0, 0, 5)] is in flight at 1000 ms; a second
    [animateToPosition] then changes nothing and its promise resolves at
    once; the frame at 2000 ms ends the first transition, with the camera
    at [(0, 0, 10)] and not at the transition's own end pose. *)
Lemma earlier_transition_misses_its_end_pose :
  isAnimating (controller close_up_in_flight) = true /\
  map targetPosition (frameRequests close_up_in_flight) = [mkVector3 0 0 5] /\
  map targetPosition
    (frameRequests
       (fst (animateToPosition (L := limited) (mkVector3 45 10 20) (mkVector3 45 0 0)
               1000 1000 close_up_in_flight)))
    = [mkVector3 0 0 5] /\
  isAnimating (controller close_up_again) = false /\
  frameRequests close_up_again = [] /\
  veq (position (camera (controller close_up_again))) (mkVector3 0 0 10) /\
  ~ veq (position (camera (controller close_up_again))) (mkVector3 0 0 5).
Proof.
  split; [vm_compute; reflexivity|].
  split; [vm_compute; reflexivity|].
  split; [vm_compute; reflexivity|].
  split; [vm_compute; reflexivity|].
  split; [vm_compute; reflexivity|].
  split; [apply veqb_veq; vm_compute; reflexivity|].
  rewrite <- veqb_veq. vm_compute. discriminate.
Qed.

(** C8: the name "constructor" is no preset, and [animateToPreset] with it
    prints no warning: the lookup finds the function that every object
    inherits, the call throws, and the promise is rejected.  The
    specification has a warning and a promise that resolves. *)
Theorem animateToPreset_inherited_name :
  presets (controller initial) !! "constructor" = None /\
  effects (fst (animateToPreset "constructor" 0 0 initial)) = [Reject 0%nat] /\
  ~ In (ConsoleWarn (PresetNotFound "constructor"))
       (effects (fst (animateToPreset "constructor" 0 0 initial))) /\
  controller (fst (animateToPreset "constructor" 0 0 initial)) = controller initial /\
  frameRequests (fst (animateToPreset "constructor" 0 0 initial)) = [].
Proof.
  split; [reflexivity|]. split; [reflexivity|].
  split; [intros [H|[]]; discriminate|].
  split; reflexivity.
Qed.

Lemma animateToPreset_unknown_witness :
  controller (fst (animateToPreset "mars" 0 0 initial)) = controller initial /\
  frameRequests (fst (animateToPreset "mars" 0 0 initial)) = frameRequests initial.
Proof.
  destruct (animateToPreset_unknown initial "mars" 0 0) as (Hc & Hq & _).
  - reflexivity.
  - split; assumption.
Defined.

Lemma zero_direction_is_no_movement_witness :
  camera (controller (updateWASDMovement (1 / 60) initial))
    = camera (controller initial) /\
  effects (updateWASDMovement (1 / 60) initial) = [].
Proof.
  destruct (zero_direction_is_no_movement initial (1 / 60) InputManager.constructor)
    as (Hc & _ & He & _).
  - reflexivity.
  - reflexivity.
  - split; [exact Hc | exact He].
Defined.

Lemma animateToPosition_while_animating_witness :
  controller (fst (animateToPosition (mkVector3 45 10 20) (mkVector3 45 0 0)
                     1000 1000 A_in_flight))
    = controller A_in_flight /\
  frameRequests (fst (animateToPosition (mkVector3 45 10 20) (mkVector3 45 0 0)
                        1000 1000 A_in_flight))
    = frameRequests A_in_flight.
Proof.
  destruct (animateToPosition_while_animating A_in_flight
              (mkVector3 45 10 20) (mkVector3 45 0 0) 1000 1000)
    as (Hc & Hq & _).
  - vm_compute. reflexivity.
  - split; [exact Hc | exact Hq].
Defined.

End CameraExamples.

(** * Further properties of the scheduler *)

Module GameLoopExtra.
Import GameLoop GameLoopFacts.
Local Open Scope Q_scope.

Lemma renders_app (a b : list Call) : renders (a ++ b) = (renders a + renders b)%nat.
Proof. unfold renders. rewrite List.filter_app, length_app. reflexivity. Qed.

Lemma requests_app (a b : list Call) :
  requests (a ++ b) = (requests a + requests b)%nat.
Proof. unfold requests. rewrite List.filter_app, length_app. reflexivity. Qed.

Lemma callUpdate_counts (g : GameLoop) :
  renders (callUpdate g) = 0%nat /\ requests (callUpdate g) = 0%nat /\
  (updates (callUpdate g) <= 1)%nat /\
  updates_pass (frameTime g / 1000) (callUpdate g).
Proof.
  unfold callUpdate. destruct (updateCallback g); cbn.
  - repeat split; [lia|]. repeat constructor.
  - repeat split; [lia|]. constructor.
Qed.

(** The inner loop returns whenever the step is positive, with or without
    an update callback; it makes at most one update call per step taken
    out of the accumulator and no other call. *)
Lemma while_accumulator_total (fuel : nat) :
  forall (g : GameLoop) (calls : list Call),
    0 < frameTime g ->
    accumulator g < inject_Z (Z.of_nat fuel) * frameTime g ->
    exists g' calls' k,
      while_accumulator fuel g calls = Some (g', calls ++ calls') /\
      same_setup g g' /\ lastTime g' = lastTime g /\
      currentTime g' = currentTime g /\
      accumulator g' == accumulator g - inject_Z (Z.of_nat k) * frameTime g /\
      accumulator g' < frameTime g /\
      (0 <= accumulator g -> 0 <= accumulator g') /\
      renders calls' = 0%nat /\ requests calls' = 0%nat /\
      (updates calls' <= k)%nat /\
      updates_pass (frameTime g / 1000) calls' /\
      (accumulator g < frameTime g -> calls' = []).
Proof.
  induction fuel as [|fuel IH]; intros g calls Hh Hacc; cbn [while_accumulator].
  - destruct (Qle_bool (frameTime g) (accumulator g)) eqn:E.
    + apply Qle_bool_iff in E. change (inject_Z (Z.of_nat 0)) with 0 in Hacc. lra.
    + exists g, [], 0%nat. rewrite app_nil_r.
      change (inject_Z (Z.of_nat 0)) with 0.
      assert (accumulator g < frameTime g).
      { destruct (Qlt_le_dec (accumulator g) (frameTime g)) as [Hlt|Hle]; [exact Hlt|].
        apply Qle_bool_iff in Hle. congruence. }
      unfold same_setup, updates_pass.
      repeat split; try reflexivity; try assumption; try tauto; try lra.
      constructor.
  - destruct (Qle_bool (frameTime g) (accumulator g)) eqn:E.
    + apply Qle_bool_iff in E.
      destruct (IH (set_accumulator (accumulator g - frameTime g) g)
                  (calls ++ callUpdate g))
        as (g' & calls' & k & Hrun & Hs & Hl & Hc & Heq & Hlt & Hpos & Hr & Hq & Hu & Hp & _).
      * exact Hh.
      * cbn [set_accumulator accumulator frameTime].
        rewrite Nat2Z.inj_succ, <- Z.add_1_r, inject_Z_plus in Hacc.
        change (inject_Z 1) with 1 in Hacc. lra.
      * destruct (callUpdate_counts g) as (Cr & Cq & Cu & Cp).
        exists g', (callUpdate g ++ calls'), (S k).
        cbn [set_accumulator accumulator frameTime lastTime currentTime] in *.
        rewrite app_assoc. split; [exact Hrun|].
        split; [exact Hs|]. split; [exact Hl|]. split; [exact Hc|].
        split.
        { rewrite Heq, Nat2Z.inj_succ, <- Z.add_1_r, inject_Z_plus.
          change (inject_Z 1) with 1. ring. }
        split; [exact Hlt|]. split; [intros _; apply Hpos; lra|].
        rewrite renders_app, requests_app, updates_app, Cr, Cq, Hr, Hq.
        split; [reflexivity|]. split; [reflexivity|]. split; [lia|].
        split; [apply Forall_app; split; assumption|]. intros Hlt'. lra.
    + exists g, [], 0%nat. rewrite app_nil_r.
      change (inject_Z (Z.of_nat 0)) with 0.
      assert (accumulator g < frameTime g).
      { destruct (Qlt_le_dec (accumulator g) (frameTime g)) as [Hlt|Hle]; [exact Hlt|].
        apply Qle_bool_iff in Hle. congruence. }
      unfold same_setup, updates_pass.
      repeat split; try reflexivity; try assumption; try tauto; try lra.
      constructor.
Qed.

Lemma loop_total (fuel : nat) (t : Q) (g : GameLoop) :
  isRunning g = true -> 0 < frameTime g ->
  frameTime g + 50 <= inject_Z (Z.of_nat fuel) * frameTime g ->
  accumulator g < frameTime g ->
  exists g' calls,
    loop fuel t g = Some (g', calls) /\
    same_setup g g' /\ lastTime g' = t /\ currentTime g' = t /\
    accumulator g' < frameTime g /\
    renders calls = match renderCallback g with Some _ => 1%nat | None => 0%nat end /\
    requests calls = 1%nat /\
    updates_pass (frameTime g / 1000) calls /\
    (0 <= accumulator g ->
     inject_Z (Z.of_nat (updates calls)) * frameTime g <= accumulator g + 50).
Proof.
  intros Hrun Hh Hfuel Hacc. unfold loop. rewrite Hrun. cbn [negb].
  set (g1 := {| isRunning := _ |}).
  assert (Hmin : Qmin (t - lastTime g) 50 <= 50) by apply Q.le_min_r.
  destruct (while_accumulator_total fuel g1 []) as
      (g' & calls & k & Hw & (Hs1 & Hs2 & Hs3 & Hs4) & Hl & Hc & Heq & Hlt & Hpos
       & Hr & Hq & Hu & Hp & Hnil).
  - exact Hh.
  - subst g1. cbn [accumulator frameTime]. lra.
  - rewrite Hw. cbn [app]. eexists _, _. split; [reflexivity|].
    subst g1.
    cbn [accumulator frameTime isRunning updateCallback renderCallback lastTime
           currentTime] in *.
    split; [unfold same_setup; repeat split; congruence|].
    split; [exact Hl|]. split; [exact Hc|]. split; [exact Hlt|].
    assert (Rr : renders (callRender g') = match renderCallback g with Some _ => 1%nat | None => 0%nat end)
      by (unfold callRender; rewrite Hs4; destruct (renderCallback g); reflexivity).
    assert (Rq : requests (callRender g') = 0%nat)
      by (unfold callRender; destruct (renderCallback g'); reflexivity).
    assert (Ru : updates (callRender g') = 0%nat)
      by (unfold callRender; destruct (renderCallback g'); reflexivity).
    rewrite !renders_app, !requests_app, !updates_app, Hr, Hq, Rr, Rq, Ru.
    split; [cbn; lia|]. split; [reflexivity|].
    split.
    { unfold updates_pass. rewrite !Forall_app. split; [exact Hp|].
      split; [|repeat constructor].
      unfold callRender. destruct (renderCallback g'); repeat constructor. }
    intros H0. cbn [updates List.filter is_update length]. rewrite !Nat.add_0_r.
    destruct (Qlt_le_dec (accumulator g + Qmin (t - lastTime g) 50) (frameTime g))
      as [Hsmall|Hbig].
    + rewrite (Hnil Hsmall). cbn [updates List.filter length].
      change (inject_Z (Z.of_nat 0)) with 0. lra.
    + assert (0 <= accumulator g') by (apply Hpos; lra).
      assert (inject_Z (Z.of_nat (updates calls)) <= inject_Z (Z.of_nat k))
        by (rewrite <- Zle_Qle; lia).
      assert (inject_Z (Z.of_nat (updates calls)) * frameTime g
              <= inject_Z (Z.of_nat k) * frameTime g)
        by (apply Qmult_le_compat_r; lra).
      lra.
Qed.

Lemma fuel_enough (fuel : nat) (h : Q) :
  0 < h -> (fuel_for h <= fuel)%nat -> h + 50 <= inject_Z (Z.of_nat fuel) * h.
Proof.
  intros Hh Hfuel. eapply Qle_trans; [apply fuel_for_enough; exact Hh|].
  apply Qmult_le_compat_r; [|lra]. rewrite <- Zle_Qle. lia.
Qed.

(** X1. Whatever the raw deltas of the frames (long stalls and clocks
    that step back included), a running loop with a positive step returns
    from every frame, calls the render callback exactly once per frame and
    requests exactly one next frame per frame. *)
Theorem one_render_per_frame
  (fuel : nat) (r : Callback) (ds : list Q) :
  forall g : GameLoop,
    isRunning g = true -> renderCallback g = Some r ->
    0 < frameTime g -> accumulator g < frameTime g ->
    (fuel_for (frameTime g) <= fuel)%nat ->
    exists g' calls,
      frames fuel ds g = Some (g', calls) /\
      renders calls = length ds /\ requests calls = length ds /\
      accumulator g' < frameTime g.
Proof.
  induction ds as [|d ds IH]; intros g Hrun Hr Hh Hacc Hfuel.
  - exists g, []. split; [reflexivity|]. split; [reflexivity|].
    split; [reflexivity | exact Hacc].
  - destruct (loop_total fuel (lastTime g + d) g Hrun Hh
                (fuel_enough fuel _ Hh Hfuel) Hacc)
      as (g1 & c1 & Hl & (Hs1 & Hs2 & Hs3 & Hs4) & _ & _ & Hacc1 & Hr1 & Hq1 & _).
    rewrite Hr in Hr1.
    destruct (IH g1) as (g2 & c2 & Hf & Hr2 & Hq2 & Hacc2);
      try congruence; try (rewrite Hs2; assumption).
    exists g2, (c1 ++ c2). cbn [frames]. rewrite Hl, Hf.
    split; [reflexivity|].
    rewrite renders_app, requests_app, Hr1, Hr2, Hq1, Hq2.
    split; [reflexivity|]. split; [reflexivity|]. rewrite <- Hs2. exact Hacc2.
Qed.

Lemma one_render_per_frame_witness :
  exists g' calls,
    frames 4 [16; 100000; -5]%Q started = Some (g', calls) /\
    renders calls = 3%nat /\ requests calls = 3%nat /\
    accumulator g' < frameTime started.
Proof.
  apply (one_render_per_frame 4 1%nat [16; 100000; -5]%Q started).
  - reflexivity.
  - reflexivity.
  - reflexivity.
  - reflexivity.
  - vm_compute. lia.
Defined.

(** X2. The 50 ms clamp bounds the catch-up of one frame: however late the
    frame comes, the update calls it makes cover at most the residue plus
    50 ms, each passes the fixed step in seconds, and with the default step
    of 1000/60 ms there are at most three of them. *)
Theorem catch_up_is_bounded (fuel : nat) (t : Q) (g : GameLoop) :
  isRunning g = true -> 0 < frameTime g ->
  0 <= accumulator g < frameTime g ->
  (fuel_for (frameTime g) <= fuel)%nat ->
  exists g' calls,
    loop fuel t g = Some (g', calls) /\
    inject_Z (Z.of_nat (updates calls)) * frameTime g <= accumulator g + 50 /\
    updates_pass (frameTime g / 1000) calls /\
    (frameTime g == 1000 / 60 -> (updates calls <= 3)%nat).
Proof.
  intros Hrun Hh [H0 Hacc] Hfuel.
  destruct (loop_total fuel t g Hrun Hh (fuel_enough fuel _ Hh Hfuel) Hacc)
    as (g' & calls & Hl & _ & _ & _ & _ & _ & _ & Hp & Hb).
  exists g', calls. split; [exact Hl|]. split; [exact (Hb H0)|].
  split; [exact Hp|]. intros Hdef.
  specialize (Hb H0). rewrite Hdef in Hb, Hacc.
  assert (Hk : inject_Z (Z.of_nat (updates calls)) < inject_Z 4).
  { change (inject_Z 4) with 4.
    assert (inject_Z (Z.of_nat (updates calls)) * (1000 / 60) < 4 * (1000 / 60)).
    { eapply Qle_lt_trans; [exact Hb|].
      assert (E : 4 * (1000 / 60) == 1000 / 60 + 50) by reflexivity.
      rewrite E. lra. }
    apply Qmult_lt_r in H; [exact H | reflexivity]. }
  rewrite <- Zlt_Qlt in Hk. lia.
Qed.

Lemma catch_up_is_bounded_witness :
  exists g' calls,
    loop 4 100000 started = Some (g', calls) /\
    inject_Z (Z.of_nat (updates calls)) * frameTime started
      <= accumulator started + 50 /\
    updates_pass (frameTime started / 1000) calls /\
    (frameTime started == 1000 / 60 -> (updates calls <= 3)%nat).
Proof.
  apply (catch_up_is_bounded 4 100000 started).
  - reflexivity.
  - reflexivity.
  - split; [discriminate | reflexivity].
  - vm_compute. lia.
Defined.

(** X3. After any frame of a running loop [currentTime] and [lastTime] are
    the same timestamp, so [getCurrentFPS] divides by zero: it has no
    finite value to return. *)
Theorem getCurrentFPS_after_frame (fuel : nat) (t : Q) (g : GameLoop) :
  isRunning g = true -> 0 < frameTime g ->
  accumulator g < frameTime g ->
  (fuel_for (frameTime g) <= fuel)%nat ->
  exists g' calls,
    loop fuel t g = Some (g', calls) /\
    currentTime g' = lastTime g' /\
    getCurrentFPS g' = None.
Proof.
  intros Hrun Hh Hacc Hfuel.
  destruct (loop_total fuel t g Hrun Hh (fuel_enough fuel _ Hh Hfuel) Hacc)
    as (g' & calls & Hl & _ & Hlast & Hcur & _).
  exists g', calls. split; [exact Hl|]. split; [congruence|].
  unfold getCurrentFPS. rewrite Hlast, Hcur.
  assert (E : Qeq_bool (t - t) 0 = true) by (apply Qeq_bool_iff; ring).
  rewrite E. reflexivity.
Qed.

Lemma getCurrentFPS_after_frame_witness :
  exists g' calls,
    loop 4 16 started = Some (g', calls) /\
    currentTime g' = lastTime g' /\
    getCurrentFPS g' = None.
Proof.
  apply (getCurrentFPS_after_frame 4 16 started).
  - reflexivity.
  - reflexivity.
  - reflexivity.
  - vm_compute. lia.
Defined.

End GameLoopExtra.

(** * Further properties of the input state *)

Module InputExtra.
Import JavaScript InputManager.
Local Open Scope Q_scope.

Lemma InputManager_eq (a b : InputManager) :
  keys a = keys b -> mouseButtons a = mouseButtons b -> a = b.
Proof. destruct a, b. cbn. intros -> ->. reflexivity. Qed.

(** X4. A key is reported pressed from its keydown to its keyup, and other
    keys are not affected; repeated keydown events (auto-repeat) count
    once, so a single keyup releases the key; a keydown followed by a keyup
    of a key that was up restores the state. *)
Theorem key_down_then_up (code : string) (im : InputManager) :
  isKeyPressed code (handleKeyDown code im) = true /\
  isKeyPressed code (handleKeyUp code im) = false /\
  (forall other, other <> code ->
     isKeyPressed other (handleKeyDown code im) = isKeyPressed other im /\
     isKeyPressed other (handleKeyUp code im) = isKeyPressed other im) /\
  handleKeyDown code (handleKeyDown code im) = handleKeyDown code im /\
  isKeyPressed code (handleKeyUp code (handleKeyDown code (handleKeyDown code im)))
    = false /\
  (isKeyPressed code im = false ->
   handleKeyUp code (handleKeyDown code im) = im).
Proof.
  unfold isKeyPressed, handleKeyDown, handleKeyUp. cbn [keys mouseButtons].
  split; [apply bool_decide_eq_true; set_solver|].
  split; [apply bool_decide_eq_false; set_solver|].
  split.
  { intros other Hne. split; apply bool_decide_ext; set_solver. }
  split; [apply InputManager_eq; cbn; [set_solver | reflexivity]|].
  split; [apply bool_decide_eq_false; set_solver|].
  intros Hup. apply bool_decide_eq_false in Hup.
  apply InputManager_eq; cbn; [set_solver | reflexivity].
Qed.

Lemma pressAll_keys (keyCodes : list string) (im : InputManager) :
  forall k, k ∈ keys (pressAll keyCodes im) <-> k ∈ keys im \/ In k keyCodes.
Proof.
  unfold pressAll. revert im.
  induction keyCodes as [|c l IH]; intros im k; cbn [fold_left In].
  - tauto.
  - rewrite IH. unfold handleKeyDown. cbn [keys]. set_solver.
Qed.

(** X5. A key combination is reported pressed exactly when each of its
    keys is down: it is pressed once all its keys have gone down, it is no
    longer pressed when any one of them goes up, and the empty combination
    is always pressed. *)
Theorem key_combination (keyCodes : list string) (im : InputManager) :
  (isKeyCombinationPressed keyCodes im = true <->
   forall k, In k keyCodes -> isKeyPressed k im = true) /\
  isKeyCombinationPressed keyCodes (pressAll keyCodes im) = true /\
  (forall k, In k keyCodes ->
     isKeyCombinationPressed keyCodes (handleKeyUp k (pressAll keyCodes im))
       = false) /\
  isKeyCombinationPressed [] im = true.
Proof.
  assert (Hiff : forall im', isKeyCombinationPressed keyCodes im' = true <->
                             forall k, In k keyCodes -> isKeyPressed k im' = true).
  { intros im'. unfold isKeyCombinationPressed. apply forallb_forall. }
  split; [apply Hiff|]. split; [|split; [|reflexivity]].
  - apply Hiff. intros k Hk. apply bool_decide_eq_true.
    apply pressAll_keys. right. exact Hk.
  - intros k Hk.
    destruct (isKeyCombinationPressed keyCodes (handleKeyUp k (pressAll keyCodes im)))
      eqn:E; [|reflexivity].
    rewrite Hiff in E. specialize (E k Hk).
    apply bool_decide_eq_true in E. unfold handleKeyUp in E. cbn [keys] in E.
    set_solver.
Qed.

Lemma remove_first_absent (c : Callback) (l : list Callback) :
  ~ In c l -> remove_first c l = l.
Proof.
  induction l as [|d l IH]; intros H; [reflexivity|]. cbn [remove_first].
  destruct (Nat.eqb d c) eqn:E.
  - apply Nat.eqb_eq in E. subst. exfalso. apply H. left. reflexivity.
  - rewrite IH; [reflexivity|]. intros Hin. apply H. right. exact Hin.
Qed.

Lemma remove_first_snoc (c : Callback) (l : list Callback) :
  ~ In c l -> remove_first c (l ++ [c]) = l.
Proof.
  induction l as [|d l IH]; intros H; cbn [remove_first app].
  - rewrite Nat.eqb_refl. reflexivity.
  - destruct (Nat.eqb d c) eqn:E.
    + apply Nat.eqb_eq in E. subst. exfalso. apply H. left. reflexivity.
    + rewrite IH; [reflexivity|]. intros Hin. apply H. right. exact Hin.
Qed.

Lemma remove_first_count (c d : Callback) (l : list Callback) :
  count_occ Nat.eq_dec (remove_first c l) d
  = if Nat.eq_dec c d then Nat.pred (count_occ Nat.eq_dec l d)
    else count_occ Nat.eq_dec l d.
Proof.
  induction l as [|e l IH]; cbn [remove_first count_occ].
  - destruct (Nat.eq_dec c d); reflexivity.
  - destruct (Nat.eqb e c) eqn:E.
    + apply Nat.eqb_eq in E. subst e.
      destruct (Nat.eq_dec c d); [reflexivity|reflexivity].
    + apply Nat.eqb_neq in E. cbn [count_occ]. rewrite IH.
      destruct (Nat.eq_dec e d), (Nat.eq_dec c d); try reflexivity.
      subst. contradiction.
Qed.

(** X6. Callback registration.  Adding to or removing from an event type
    that the manager has no list for changes nothing, unless the name is
    one that the callback table inherits from [Object.prototype]
    ("toString", "constructor", ...): then the call throws a [TypeError].
    For an event type with a list, adding appends the callback; removing
    takes out one occurrence of the callback, the first; both leave the
    other event types alone; removing a callback that is not registered
    changes nothing; and a callback added to a list that did not hold it
    is gone again after one removal. *)
Theorem callback_registration
  (eventType : string) (callback : Callback)
  (callbacks : gmap string (list Callback)) :
  (callbacks !! eventType = None ->
   (inherited eventType = false ->
    addCallback eventType callback callbacks = Normal callbacks /\
    removeCallback eventType callback callbacks = Normal callbacks) /\
   (inherited eventType = true ->
    addCallback eventType callback callbacks = TypeError /\
    removeCallback eventType callback callbacks = TypeError)) /\
  (forall l, callbacks !! eventType = Some l ->
     exists added removed,
       addCallback eventType callback callbacks = Normal added /\
       removeCallback eventType callback callbacks = Normal removed /\
       added !! eventType = Some (l ++ [callback]) /\
       (forall other, other <> eventType ->
          added !! other = callbacks !! other /\
          removed !! other = callbacks !! other) /\
       (forall d,
           count_occ Nat.eq_dec (default [] (removed !! eventType)) d
           = if Nat.eq_dec callback d then Nat.pred (count_occ Nat.eq_dec l d)
             else count_occ Nat.eq_dec l d) /\
       (~ In callback l ->
        removed = callbacks /\
        removeCallback eventType callback added = Normal callbacks)).
Proof.
  split.
  - intros Hnone. unfold addCallback, removeCallback. rewrite Hnone.
    split; intros ->; split; reflexivity.
  - intros l Hl. unfold addCallback, removeCallback. rewrite Hl.
    eexists _, _. split; [reflexivity|]. split; [reflexivity|].
    rewrite !lookup_insert_eq. split; [reflexivity|]. split; [|split].
    + intros other Hne. rewrite !lookup_insert_ne by congruence. tauto.
    + intros d. cbn [default]. apply remove_first_count.
    + intros Hnot. rewrite insert_insert_eq, remove_first_snoc by exact Hnot.
      rewrite remove_first_absent by exact Hnot.
      rewrite (insert_id callbacks eventType l Hl). split; reflexivity.
Qed.

Lemma mouseMoves_snoc (events : list (Q * Q)) (e : Q * Q) (p : Pointer) :
  mouseMoves (events ++ [e]) p = handleMouseMove (fst e) (snd e) (mouseMoves events p).
Proof. unfold mouseMoves. rewrite fold_left_app. reflexivity. Qed.

(** X7. The deltas that successive mouse moves report add up to the
    displacement of the pointer: their sum is the last position minus the
    position before the first move, and [lastMousePosition] is the position
    before the last move. *)
Theorem mouse_deltas_telescope (events : list (Q * Q)) (p : Pointer) :
  peq (fold_right padd (mkPoint 0 0) (mouseDeltas events p))
      (mkPoint (px (mousePosition (mouseMoves events p)) - px (mousePosition p))
               (py (mousePosition (mouseMoves events p)) - py (mousePosition p))) /\
  (forall before e,
      events = before ++ [e] ->
      mousePosition (mouseMoves events p) = mkPoint (fst e) (snd e) /\
      lastMousePosition (mouseMoves events p) = mousePosition (mouseMoves before p)).
Proof.
  split.
  - revert p. induction events as [|e rest IH]; intros p.
    + split; cbn; ring.
    + destruct (IH (handleMouseMove (fst e) (snd e) p)) as [Hx Hy].
      change (mouseMoves (e :: rest) p)
        with (mouseMoves rest (handleMouseMove (fst e) (snd e) p)).
      unfold peq in *. cbn [mouseDeltas fold_right padd px py].
      rewrite Hx, Hy.
      cbn [handleMouseMove mousePosition mouseDelta px py]. split; ring.
  - intros before e ->. rewrite mouseMoves_snoc. split; reflexivity.
Qed.

(** X8. For a pointer inside a window of positive size the normalized
    coordinates lie in [-1, 1]; they grow with [clientX] and shrink as
    [clientY] grows (the y axis points up), so the top-left corner is
    [(-1, 1)]. *)
Theorem normalized_mouse_position (W H : Q) (p : Pointer) :
  0 < W -> 0 < H ->
  0 <= px (mousePosition p) <= W ->
  0 <= py (mousePosition p) <= H ->
  -1 <= px (getNormalizedMousePosition W H p) <= 1 /\
  -1 <= py (getNormalizedMousePosition W H p) <= 1 /\
  (forall q : Pointer,
      px (mousePosition p) <= px (mousePosition q) ->
      px (getNormalizedMousePosition W H p)
        <= px (getNormalizedMousePosition W H q)) /\
  (forall q : Pointer,
      py (mousePosition p) <= py (mousePosition q) ->
      py (getNormalizedMousePosition W H q)
        <= py (getNormalizedMousePosition W H p)) /\
  (px (mousePosition p) == 0 -> py (mousePosition p) == 0 ->
   peq (getNormalizedMousePosition W H p) (mkPoint (-1) 1)).
Proof.
  intros HW HH [Hx0 Hx1] [Hy0 Hy1].
  unfold getNormalizedMousePosition. cbn [px py].
  assert (Ax : 0 <= px (mousePosition p) / W)
    by (apply Qle_shift_div_l; [exact HW | lra]).
  assert (Bx : px (mousePosition p) / W <= 1)
    by (apply Qle_shift_div_r; [exact HW | lra]).
  assert (Ay : 0 <= py (mousePosition p) / H)
    by (apply Qle_shift_div_l; [exact HH | lra]).
  assert (By : py (mousePosition p) / H <= 1)
    by (apply Qle_shift_div_r; [exact HH | lra]).
  split; [lra|]. split; [lra|]. split; [|split].
  - intros q Hq.
    assert (px (mousePosition p) / W <= px (mousePosition q) / W).
    { unfold Qdiv. apply Qmult_le_compat_r; [exact Hq|].
      apply Qlt_le_weak, Qinv_lt_0_compat, HW. }
    lra.
  - intros q Hq.
    assert (py (mousePosition p) / H <= py (mousePosition q) / H).
    { unfold Qdiv. apply Qmult_le_compat_r; [exact Hq|].
      apply Qlt_le_weak, Qinv_lt_0_compat, HH. }
    lra.
  - intros Ex Ey. split; cbn [px py]; [rewrite Ex | rewrite Ey]; field; lra.
Qed.

Lemma normalized_mouse_position_witness :
  -1 <= px (getNormalizedMousePosition 1920 1080
              (handleMouseMove 480 270 pointer_constructor)) <= 1.
Proof.
  apply (normalized_mouse_position 1920 1080
           (handleMouseMove 480 270 pointer_constructor)).
  - reflexivity.
  - reflexivity.
  - split; discriminate.
  - split; discriminate.
Defined.

End InputExtra.

(** * Further properties of the camera controller *)

Module CameraExtra.
Import JavaScript Three InputManager CameraController CameraFacts.
Local Open Scope Q_scope.

Lemma sq_nonneg (a : Q) : 0 <= a * a.
Proof.
  destruct (Qlt_le_dec a 0) as [H|H].
  - assert (E : a * a == (- a) * (- a)) by ring. rewrite E.
    apply Qmult_le_0_compat; lra.
  - apply Qmult_le_0_compat; lra.
Qed.

Lemma cube_mono (a b : Q) : a <= b -> a * a * a <= b * b * b.
Proof.
  intros H.
  assert (E : b * b * b - a * a * a
              == (b - a) * ((a + b * (1 # 2)) * (a + b * (1 # 2))
                            + (3 # 4) * (b * b))) by ring.
  pose proof (sq_nonneg (a + b * (1 # 2))).
  pose proof (sq_nonneg b).
  assert (0 <= (b - a) * ((a + b * (1 # 2)) * (a + b * (1 # 2))
                          + (3 # 4) * (b * b)))
    by (apply Qmult_le_0_compat; lra).
  lra.
Qed.

Lemma half : 1 / 2 == 1 # 2.
Proof. reflexivity. Qed.

Lemma ease_low (t : Q) : t < 1 / 2 -> easeInOutCubic t == 4 * (t * t * t).
Proof.
  intros H. unfold easeInOutCubic.
  rewrite (proj2 (Qltb_lt t (1 / 2)) H). ring.
Qed.

Lemma ease_high (t : Q) :
  1 / 2 <= t -> easeInOutCubic t == 4 * ((t - 1) * (t - 1) * (t - 1)) + 1.
Proof.
  intros H. unfold easeInOutCubic.
  rewrite (proj2 (Qltb_ge t (1 / 2)) H). ring.
Qed.

Lemma ease_low_bound (t : Q) : t < 1 / 2 -> easeInOutCubic t <= 1 / 2.
Proof.
  intros H. rewrite (ease_low t H). rewrite half in *.
  pose proof (cube_mono t (1 # 2) ltac:(lra)) as A.
  assert (E : (1 # 2) * (1 # 2) * (1 # 2) == 1 # 8) by reflexivity.
  rewrite E in A. lra.
Qed.

Lemma ease_high_bound (t : Q) : 1 / 2 <= t -> 1 / 2 <= easeInOutCubic t.
Proof.
  intros H. rewrite (ease_high t H). rewrite half in *.
  pose proof (cube_mono (- (1 # 2)) (t - 1) ltac:(lra)) as A.
  assert (E : - (1 # 2) * - (1 # 2) * - (1 # 2) == - (1 # 8)) by reflexivity.
  rewrite E in A. lra.
Qed.

Lemma ease_mono (a b : Q) : a <= b -> easeInOutCubic a <= easeInOutCubic b.
Proof.
  intros Hab.
  destruct (Qlt_le_dec a (1 / 2)) as [Ha|Ha], (Qlt_le_dec b (1 / 2)) as [Hb|Hb].
  - rewrite (ease_low a Ha), (ease_low b Hb).
    pose proof (cube_mono a b Hab). lra.
  - pose proof (ease_low_bound a Ha). pose proof (ease_high_bound b Hb). lra.
  - lra.
  - rewrite (ease_high a Ha), (ease_high b Hb).
    pose proof (cube_mono (a - 1) (b - 1) ltac:(lra)). lra.
Qed.

Lemma ease_unit (t : Q) : 0 <= t <= 1 -> 0 <= easeInOutCubic t <= 1.
Proof.
  intros [H0 H1]. split.
  - change 0 with (easeInOutCubic 0) at 1. apply ease_mono, H0.
  - assert (E1 : easeInOutCubic 1 == 1) by reflexivity.
    rewrite <- E1. apply ease_mono, H1.
Qed.

(** X9. The easing curve never moves backwards and never leaves the unit
    interval: it is monotone on all numbers, fixes 0, 1/2 and 1, and maps
    [0, 1] into [0, 1]. *)
Theorem easeInOutCubic_monotone (t u : Q) :
  t <= u ->
  easeInOutCubic t <= easeInOutCubic u /\
  (0 <= t -> u <= 1 ->
   0 <= easeInOutCubic t /\ easeInOutCubic u <= 1) /\
  easeInOutCubic 0 == 0 /\ easeInOutCubic (1 / 2) == 1 / 2 /\
  easeInOutCubic 1 == 1.
Proof.
  intros Htu.
  split; [apply ease_mono, Htu|].
  split; [|split; [reflexivity | split; reflexivity]].
  intros H0 H1. split.
  - apply ease_unit. split; [exact H0 | lra].
  - apply ease_unit. split; [lra | exact H1].
Qed.

Lemma easeInOutCubic_monotone_witness :
  easeInOutCubic (1 / 4) <= easeInOutCubic (3 / 4).
Proof.
  refine (proj1 (easeInOutCubic_monotone (1 / 4) (3 / 4) _)). discriminate.
Defined.

(** X10. The easing curve is symmetric about the midpoint: the eased
    progress at [1 - t] is one minus the eased progress at [t]
    (acceleration and deceleration mirror each other). *)
Theorem easeInOutCubic_symmetric (t : Q) :
  easeInOutCubic (1 - t) == 1 - easeInOutCubic t.
Proof.
  destruct (Qlt_le_dec t (1 / 2)) as [Ht|Ht].
  - rewrite (ease_low t Ht). rewrite half in Ht.
    rewrite (ease_high (1 - t)) by (rewrite half; lra). ring.
  - rewrite (ease_high t Ht). rewrite half in Ht.
    destruct (Qlt_le_dec (1 - t) (1 / 2)) as [Hs|Hs].
    + rewrite (ease_low (1 - t) Hs). ring.
    + rewrite half in Hs. assert (Et : t == 1 # 2) by lra.
      rewrite (ease_high (1 - t)) by (rewrite half; lra).
      rewrite Et. reflexivity.
Qed.

Lemma progress_range (a : Animation) (now : Q) (c : CameraController) :
  0 < animationDuration c -> startTime a <= now ->
  0 <= progress a now c <= 1.
Proof.
  intros Hd Hnow. unfold progress. split; [|apply Q.le_min_r].
  apply Q.min_glb; [|discriminate].
  apply Qle_shift_div_l; [exact Hd | lra].
Qed.

Lemma progress_monotone (a : Animation) (now later : Q) (c : CameraController) :
  0 < animationDuration c -> now <= later ->
  progress a now c <= progress a later c.
Proof.
  intros Hd Hle. unfold progress. apply Q.min_le_compat_r.
  unfold Qdiv. apply Qmult_le_compat_r; [lra|].
  apply Qlt_le_weak, Qinv_lt_0_compat, Hd.
Qed.

Lemma lerp_between (s e k : Q) :
  0 <= k <= 1 -> between s e (s + (e - s) * k).
Proof.
  intros [H0 H1]. unfold between.
  destruct (Qlt_le_dec e s) as [Hlt|Hle].
  - right.
    assert (0 <= (s - e) * k) by (apply Qmult_le_0_compat; lra).
    assert (0 <= (s - e) * (1 - k)) by (apply Qmult_le_0_compat; lra).
    assert (E : (e - s) * k == - ((s - e) * k)) by ring.
    assert (E' : (s - e) * (1 - k) == (s - e) - (s - e) * k) by ring.
    rewrite E. rewrite E' in *. lra.
  - left.
    assert (0 <= (e - s) * k) by (apply Qmult_le_0_compat; lra).
    assert (0 <= (e - s) * (1 - k)) by (apply Qmult_le_0_compat; lra).
    assert (E' : (e - s) * (1 - k) == (e - s) - (e - s) * k) by ring.
    rewrite E' in *. lra.
Qed.

Lemma lerpVectors_within (v1 v2 : Vector3) (k : Q) :
  0 <= k <= 1 -> within v1 v2 (lerpVectors v1 v2 k).
Proof.
  intros Hk. unfold within, lerpVectors. cbn [x y z].
  repeat split; apply lerp_between; exact Hk.
Qed.

Lemma setFollowSpeed_range (speed : Q) : 0 <= Qmax 0 (Qmin 1 speed) <= 1.
Proof.
  split; [apply Q.le_max_l|].
  apply Q.max_lub; [discriminate | apply Q.le_min_l].
Qed.

Section WithLibrary.
Context {L : Library}.

(** X12. [setFollowSpeed] clamps every number but [NaN].  For a finite or
    infinite speed the follow speed it stores lies in [0, 1]: a speed
    inside that range is stored as it is, a speed below it (minus infinity
    included) gives 0, a speed above it (infinity included) gives 1, and no
    other field of the controller changes.  For [NaN], which is also what
    [undefined] converts to, [Math.max(0, Math.min(1, NaN))] is [NaN]: what
    is stored is no number in [0, 1]. *)
Theorem setFollowSpeed_clamps (speed : Number) (w : World) :
  (Math_max (Finite 0) (Math_min (Finite 1) speed) = NaN <-> speed = NaN) /\
  (setFollowSpeed speed w = None <-> speed = NaN) /\
  (forall w', setFollowSpeed speed w = Some w' ->
     0 <= followSpeed (controller w') <= 1 /\
     set_followSpeed (followSpeed (controller w)) (controller w') = controller w /\
     frameRequests w' = frameRequests w /\ promises w' = promises w /\
     effects w' = effects w /\
     (forall q, speed = Finite q ->
        (0 <= q <= 1 -> followSpeed (controller w') == q) /\
        (q <= 0 -> followSpeed (controller w') == 0) /\
        (1 <= q -> followSpeed (controller w') == 1)) /\
     (speed = PosInfinity -> followSpeed (controller w') == 1) /\
     (speed = NegInfinity -> followSpeed (controller w') == 0)).
Proof.
  split; [destruct speed; cbn; split; (discriminate || reflexivity)|].
  split; [unfold setFollowSpeed; destruct speed; cbn; split;
          (discriminate || reflexivity)|].
  intros w' Hw'. unfold setFollowSpeed in Hw'.
  destruct speed as [q| | |]; cbn in Hw'; try discriminate;
    injection Hw' as <-;
    cbn [on_controller controller set_followSpeed followSpeed frameRequests
         promises effects].
  - split; [apply setFollowSpeed_range|].
    split; [destruct (controller w); reflexivity|].
    do 3 (split; [reflexivity|]).
    split; [|split; discriminate].
    intros q' [= <-]. split; [|split].
    + intros [H0 H1]. rewrite Q.min_r by exact H1. apply Q.max_r, H0.
    + intros H0. apply Q.max_l. eapply Qle_trans; [apply Q.le_min_r | exact H0].
    + intros H1. rewrite Q.min_l by exact H1. apply Q.max_r. discriminate.
  - split; [split; [apply Q.le_max_l | apply Q.max_lub; discriminate]|].
    split; [destruct (controller w); reflexivity|].
    do 3 (split; [reflexivity|]).
    split; [intros q' [=]|]. split; [|discriminate].
    intros _. apply Q.max_r. discriminate.
  - split; [split; discriminate|].
    split; [destruct (controller w); reflexivity|].
    do 3 (split; [reflexivity|]).
    split; [intros q' [=]|]. split; [discriminate|]. intros _. reflexivity.
Qed.

Lemma updateWASDMovement_mode (dt : Q) (w : World) :
  controlMode (controller (updateWASDMovement dt w)) = controlMode (controller w) /\
  wasdEnabled (controller (updateWASDMovement dt w)) = wasdEnabled (controller w).
Proof.
  unfold updateWASDMovement. destruct (inputManager (controller w)); [|tauto].
  destruct (Qltb 0 _); cbn; [|tauto].
  destruct (String.eqb _ "orbit"); cbn; tauto.
Qed.

(** X13. The free-fly step keeps the orbit pivot with the camera: in
    'orbit' mode the offset from the look-target to the camera is the same
    after the step as before, whatever keys are held; in any other mode the
    look-target is not touched. *)
Theorem wasd_keeps_offset (dt : Q) (w : World) :
  (controlMode (controller w) = "orbit" ->
   veq (sub (position (camera (controller (updateWASDMovement dt w))))
            (target (orbitControls (controller (updateWASDMovement dt w)))))
       (sub (position (camera (controller w)))
            (target (orbitControls (controller w))))) /\
  (String.eqb (controlMode (controller w)) "orbit" = false ->
   orbitControls (controller (updateWASDMovement dt w)) = orbitControls (controller w)).
Proof.
  unfold updateWASDMovement. split.
  - intros Hm. destruct (inputManager (controller w)); [|apply veq_refl].
    destruct (Qltb 0 _); [|apply veq_refl].
    cbn [controller on_controller emit set_direction set_position set_camera
           camera orbitControls controlMode].
    rewrite Hm.
    cbn [String.eqb Ascii.eqb Bool.eqb set_target set_orbitControls controller
           set_position set_camera set_direction
           camera orbitControls position target].
    unfold veq, sub, add. cbn [x y z]. repeat split; ring.
  - intros Hm. destruct (inputManager (controller w)); [|reflexivity].
    destruct (Qltb 0 _); [|reflexivity].
    cbn. rewrite Hm. cbn. destruct (orbitControls (controller w)). reflexivity.
Qed.

(** X14. Outside 'orbit' mode, with nothing to follow, [update] is the
    free-fly step alone: the orbit controls are not updated; and with
    free-fly movement switched off as well, [update] leaves the world as it
    is. *)
Theorem update_outside_orbit_mode
  (scene : Object3D -> Vector3) (dt : Q) (w : World) :
  String.eqb (controlMode (controller w)) "orbit" = false ->
  followTarget (controller w) = None ->
  update scene dt w
    = (if wasdEnabled (controller w)
          && match inputManager (controller w) with
             | Some _ => true
             | None => false
             end
       then updateWASDMovement dt w else w) /\
  (wasdEnabled (controller w) = false -> update scene dt w = w).
Proof.
  intros Hm Hf. unfold update.
  set (w1 := if _ && _ then updateWASDMovement dt w else w).
  assert (H1 : followTarget (controller w1) = None /\
               controlMode (controller w1) = controlMode (controller w)).
  { subst w1. destruct (wasdEnabled (controller w) && _); [|tauto].
    rewrite (proj2 (updateWASDMovement_isAnimating dt w)).
    rewrite (proj1 (updateWASDMovement_mode dt w)). tauto. }
  destruct H1 as [Hf1 Hm1]. rewrite Hf1. cbn [andb]. rewrite Hm1, Hm.
  split; [reflexivity|]. intros Hoff. subst w1. rewrite Hoff. reflexivity.
Qed.

(** X15. When the window loses the focus the held keys are forgotten, so
    the next free-fly step moves nothing, whatever was held before. *)
Theorem blur_stops_movement (dt : Q) (w : World) :
  ~ 0 < Math_sqrt 0 ->
  (forall im k, inputManager (controller (blur w)) = Some im ->
                isKeyPressed k im = false) /\
  camera (controller (updateWASDMovement dt (blur w))) = camera (controller w) /\
  orbitControls (controller (updateWASDMovement dt (blur w)))
    = orbitControls (controller w).
Proof.
  intros Hsqrt. split.
  - intros im k. cbn. destruct (inputManager (controller w)); [|discriminate].
    intros [= <-]. reflexivity.
  - unfold updateWASDMovement. cbn [blur on_controller controller set_inputManager
                                      inputManager].
    destruct (inputManager (controller w)) as [im|]; cbn [option_map]; [|tauto].
    rewrite composedDirection_vertical.
    change (isKeyPressed "Space" (resetInput im)) with false.
    change (isKeyPressed "ControlLeft" (resetInput im)) with false.
    change (isKeyPressed "ControlRight" (resetInput im)) with false.
    cbn [orb].
    assert (E : Qltb 0 (length (mkVector3 0 0 0)) = false).
    { apply Qltb_ge. change (length (mkVector3 0 0 0)) with (Math_sqrt 0).
      apply Qnot_lt_le, Hsqrt. }
    rewrite E. cbn. tauto.
Qed.

(** X16. Switching the control mode never moves the camera: position,
    orientation and look-target stay as they are; the pointer-drag
    controls are disabled exactly in 'free' mode; and pressing the mode
    hotkey twice from 'orbit' or from 'free' brings back the mode and the
    enabled flag that fits it. *)
Theorem mode_switch_keeps_pose (mode : string) (now now1 : Q) (w : World) :
  camera (controller (setControlMode mode w)) = camera (controller w) /\
  target (orbitControls (controller (setControlMode mode w)))
    = target (orbitControls (controller w)) /\
  enabled (orbitControls (controller (setControlMode mode w)))
    = negb (String.eqb mode "free") /\
  camera (controller (hotkey "KeyC" now now1 (hotkey "KeyC" now now1 w)))
    = camera (controller w) /\
  (controlMode (controller w) = "orbit" \/ controlMode (controller w) = "free" ->
   controlMode (controller (hotkey "KeyC" now now1 (hotkey "KeyC" now now1 w)))
     = controlMode (controller w) /\
   enabled (orbitControls
              (controller (hotkey "KeyC" now now1 (hotkey "KeyC" now now1 w))))
     = negb (String.eqb (controlMode (controller w)) "free")).
Proof.
  split; [reflexivity|]. split; [reflexivity|].
  split; [cbn; destruct (String.eqb mode "free"); reflexivity|].
  split; [reflexivity|].
  intros [Hm|Hm]; unfold hotkey; cbn; rewrite Hm; cbn; split; reflexivity.
Qed.

Hypothesis idle_controls : keeps_pose L.

Lemma animate_pose (a : Animation) (now : Q) (w : World) :
  position (camera (controller (animate a now w)))
    = lerpVectors (startPosition a) (targetPosition a)
        (easeInOutCubic (progress a now (controller w))) /\
  target (orbitControls (controller (animate a now w)))
    = lerpVectors (startTarget a) (targetLookAt a)
        (easeInOutCubic (progress a now (controller w))).
Proof.
  unfold animate.
  set (w2 := on_controller _ (on_controller _ w)).
  destruct (orbitControls_update_pose idle_controls w2) as [Hpos Htgt].
  destruct (Qltb _ 1);
    cbn [controller requestAnimationFrame emit on_controller set_isAnimating
           camera orbitControls];
    rewrite Hpos, Htgt; subst w2; split; reflexivity.
Qed.

(** X11. A transition never overshoots and never turns back.  At every
    frame whose clock is not before the start, each coordinate of the
    camera position lies between the start and the end position, and each
    coordinate of the look-target between the start and the end target;
    and a later frame has at least the eased progress of an earlier one. *)
Theorem transition_stays_on_segment (a : Animation) (now : Q) (w : World) :
  0 < animationDuration (controller w) ->
  startTime a <= now ->
  within (startPosition a) (targetPosition a)
    (position (camera (controller (animate a now w)))) /\
  within (startTarget a) (targetLookAt a)
    (target (orbitControls (controller (animate a now w)))) /\
  (forall later, now <= later ->
     easeInOutCubic (progress a now (controller w))
       <= easeInOutCubic (progress a later (controller w))).
Proof.
  intros Hd Hnow. destruct (animate_pose a now w) as [-> ->].
  destruct (progress_range a now (controller w) Hd Hnow) as [P0 P1].
  assert (He : 0 <= easeInOutCubic (progress a now (controller w)) <= 1)
    by (apply ease_unit; split; assumption).
  split; [apply lerpVectors_within, He|]. split; [apply lerpVectors_within, He|].
  intros later Hlater.
  apply ease_mono, progress_monotone; assumption.
Qed.

Lemma followTicks_S (n : nat) (scene : Object3D -> Vector3) (w : World) :
  followTicks (S n) scene w = updateFollowTarget scene (followTicks n scene w).
Proof. reflexivity. Qed.

Lemma updateFollowTarget_step (scene : Object3D -> Vector3) (o : Object3D) (w : World) :
  followTarget (controller w) = Some o ->
  position (camera (controller (updateFollowTarget scene w)))
    = lerp (position (camera (controller w)))
        (add (scene o) (followOffset (controller w))) (followSpeed (controller w)) /\
  target (orbitControls (controller (updateFollowTarget scene w)))
    = lerp (target (orbitControls (controller w))) (scene o)
        (followSpeed (controller w)) /\
  followTarget (controller (updateFollowTarget scene w)) = Some o /\
  followOffset (controller (updateFollowTarget scene w)) = followOffset (controller w) /\
  followSpeed (controller (updateFollowTarget scene w)) = followSpeed (controller w).
Proof.
  intros Hf. unfold updateFollowTarget. rewrite Hf.
  set (w1 := on_controller _ w).
  destruct (orbitControls_update_pose idle_controls w1) as [-> ->].
  subst w1. cbn. rewrite Hf. repeat split; reflexivity.
Qed.

Lemma followTicks_keeps
    (n : nat) (scene : Object3D -> Vector3) (o : Object3D) (w : World) :
  followTarget (controller w) = Some o ->
  followTarget (controller (followTicks n scene w)) = Some o /\
  followOffset (controller (followTicks n scene w)) = followOffset (controller w) /\
  followSpeed (controller (followTicks n scene w)) = followSpeed (controller w).
Proof.
  intros Hf. induction n as [|n IH]; [repeat split; assumption|].
  destruct IH as (I1 & I2 & I3). rewrite followTicks_S.
  destruct (updateFollowTarget_step scene o _ I1) as (_ & _ & J1 & J2 & J3).
  repeat split; congruence.
Qed.

Lemma lerp_gap (p d : Vector3) (s : Q) :
  veq (sub (lerp p d s) d) (multiplyScalar (sub p d) (1 - s)).
Proof. unfold veq, sub, lerp, multiplyScalar. cbn [x y z]. repeat split; ring. Qed.

(** X17. Following closes the gap geometrically.  With the followed
    object at rest, after [n] follow steps the camera's distance vector to
    the desired position (object position plus offset) is the initial one
    times [(1 - followSpeed)^n], and the look-target's distance vector to
    the object shrinks by the same factor. *)
Theorem follow_closes_gap
  (n : nat) (scene : Object3D -> Vector3) (o : Object3D) (w : World) :
  followTarget (controller w) = Some o ->
  veq (sub (position (camera (controller (followTicks n scene w))))
           (add (scene o) (followOffset (controller w))))
      (multiplyScalar
         (sub (position (camera (controller w)))
              (add (scene o) (followOffset (controller w))))
         (Qpow (1 - followSpeed (controller w)) n)) /\
  veq (sub (target (orbitControls (controller (followTicks n scene w)))) (scene o))
      (multiplyScalar
         (sub (target (orbitControls (controller w))) (scene o))
         (Qpow (1 - followSpeed (controller w)) n)).
Proof.
  intros Hf. induction n as [|n IH].
  - change (followTicks 0 scene w) with w.
    unfold veq, sub, multiplyScalar. cbn [Qpow x y z]. repeat split; ring.
  - destruct (followTicks_keeps n scene o w Hf) as (N1 & N2 & N3).
    destruct IH as [IHp IHt]. rewrite followTicks_S.
    destruct (updateFollowTarget_step scene o _ N1) as (-> & -> & _).
    rewrite N2, N3. split.
    + eapply veq_trans; [apply lerp_gap|].
      destruct IHp as (Ix & Iy & Iz).
      unfold veq, multiplyScalar. cbn [x y z Qpow].
      rewrite Ix, Iy, Iz. unfold multiplyScalar. cbn [x y z]. repeat split; ring.
    + eapply veq_trans; [apply lerp_gap|].
      destruct IHt as (Ix & Iy & Iz).
      unfold veq, multiplyScalar. cbn [x y z Qpow].
      rewrite Ix, Iy, Iz. unfold multiplyScalar. cbn [x y z]. repeat split; ring.
Qed.

End WithLibrary.

Section Presets.
Context {L : Library}.

Lemma animate_presets (a : Animation) (now : Q) (w : World) :
  presets (controller (animate a now w)) = presets (controller w).
Proof. unfold animate. destruct (Qltb _ 1); reflexivity. Qed.

Lemma animateToPosition_presets (P T : Vector3) (now now1 : Q) (w : World) :
  presets (controller (fst (animateToPosition P T now now1 w)))
    = presets (controller w).
Proof.
  destruct (isAnimating (controller w)) eqn:Hi.
  - rewrite (animateToPosition_ignored P T now now1 w Hi). reflexivity.
  - unfold animateToPosition, newPromise. cbn [controller]. rewrite Hi. cbn [fst].
    rewrite animate_presets. unfold stopFollowing. cbn.
    destruct (followTarget (controller w)); reflexivity.
Qed.

Lemma animateToPreset_presets (presetName : string) (now now1 : Q) (w : World) :
  presets (controller (fst (animateToPreset presetName now now1 w)))
    = presets (controller w).
Proof.
  unfold animateToPreset.
  destruct (presets_get (presets (controller w)) presetName).
  - apply animateToPosition_presets.
  - reflexivity.
  - reflexivity.
Qed.

Lemma animationFrame_presets (now : Q) (w : World) :
  presets (controller (animationFrame now w)) = presets (controller w).
Proof.
  unfold animationFrame.
  set (w0 := {| controller := controller w |}).
  change (presets (controller w)) with (presets (controller w0)).
  generalize w0. induction (frameRequests w) as [|a l IH]; intros w1; [reflexivity|].
  cbn [fold_left]. rewrite IH. apply animate_presets.
Qed.

Lemma update_presets (scene : Object3D -> Vector3) (dt : Q) (w : World) :
  presets (controller (update scene dt w)) = presets (controller w).
Proof.
  unfold update.
  assert (Hw : forall w0, presets (controller (updateWASDMovement dt w0))
                          = presets (controller w0)).
  { intros w0. unfold updateWASDMovement. destruct (inputManager (controller w0));
      [|reflexivity].
    destruct (Qltb 0 _); [|reflexivity]. cbn.
    destruct (String.eqb _ "orbit"); reflexivity. }
  assert (Hf : forall w0, presets (controller (updateFollowTarget scene w0))
                          = presets (controller w0)).
  { intros w0. unfold updateFollowTarget.
    destruct (followTarget (controller w0)); reflexivity. }
  set (w1 := if _ && _ then updateWASDMovement dt w else w).
  assert (H1 : presets (controller w1) = presets (controller w))
    by (subst w1; destruct (wasdEnabled (controller w) && _); [apply Hw | reflexivity]).
  set (w2 := if _ && _ then updateFollowTarget scene w1 else w1).
  assert (H2 : presets (controller w2) = presets (controller w1)).
  { subst w2. destruct (match followTarget (controller w1) with
                        | Some _ => true | None => false end
                        && negb (isAnimating (controller w1)));
      [apply Hf | reflexivity]. }
  destruct (String.eqb _ "orbit"); cbn; congruence.
Qed.

(** A call or event changes the preset under a name only by defining it. *)
Lemma step_presets (i : Input) (w : World) (presetName : string) :
  keeps_preset presetName i ->
  presets (controller (step i w)) !! presetName
    = presets (controller w) !! presetName.
Proof.
  intros Hk. destruct i; cbn [step keeps_preset] in *;
    try reflexivity.
  - rewrite animateToPosition_presets. reflexivity.
  - rewrite animateToPreset_presets. reflexivity.
  - unfold followObject. destruct offset; reflexivity.
  - unfold stopFollowing. destruct (followTarget (controller w)); reflexivity.
  - rewrite update_presets. reflexivity.
  - rewrite animationFrame_presets. reflexivity.
  - cbn. apply lookup_insert_ne. exact Hk.
  - cbn. apply lookup_insert_ne. exact Hk.
Qed.

Lemma step_presets_some (i : Input) (w : World) (presetName : string) :
  is_Some (presets (controller w) !! presetName) ->
  is_Some (presets (controller (step i w)) !! presetName).
Proof.
  intros Hs.
  assert (Hdef : forall n pos tgt,
             is_Some (<[n := mkPreset pos tgt]> (presets (controller w)) !! presetName)).
  { intros n pos tgt. destruct (decide (n = presetName)) as [->|Hne].
    - rewrite lookup_insert_eq. eexists. reflexivity.
    - rewrite lookup_insert_ne by exact Hne. exact Hs. }
  destruct i; try (rewrite step_presets; [exact Hs | exact I]).
  - cbn. apply Hdef.
  - cbn. apply Hdef.
Qed.

Lemma run_presets (inputs : list Input) (w : World) (presetName : string) :
  Forall (keeps_preset presetName) inputs ->
  presets (controller (run inputs w)) !! presetName
    = presets (controller w) !! presetName.
Proof.
  induction inputs as [|i inputs IH] using rev_ind; intros Hall; [reflexivity|].
  apply Forall_app in Hall. destruct Hall as [Hall Hi]. apply Forall_inv in Hi.
  rewrite run_snoc, step_presets by exact Hi. apply IH, Hall.
Qed.

Lemma run_presets_some (inputs : list Input) (w : World) (presetName : string) :
  is_Some (presets (controller w) !! presetName) ->
  is_Some (presets (controller (run inputs w)) !! presetName).
Proof.
  intros Hs. induction inputs as [|i inputs IH] using rev_ind; [exact Hs|].
  rewrite run_snoc. apply step_presets_some, IH.
Qed.

Lemma reachable_presets (w : World) (presetName : string) :
  reachable w ->
  is_Some (default_presets !! presetName) ->
  is_Some (presets (controller w) !! presetName).
Proof.
  intros Hr Hs. induction Hr as [cam orb im|i w Hr IH]; [exact Hs|].
  apply step_presets_some, IH.
Qed.

(** X18. No call or event ever removes a preset.  A name that the preset
    map holds stays in it through any calls and events; a new definition
    is what the next lookup finds and leaves the other names alone; so in
    every world that calls and events lead to, each digit hotkey finds its
    preset and acts as [animateToPosition] toward it. *)
Theorem presets_are_never_removed
  (w : World) (inputs : list Input) (presetName : string) :
  (is_Some (presets (controller w) !! presetName) ->
   is_Some (presets (controller (run inputs w)) !! presetName)) /\
  (forall pos tgt,
      presets (controller (addPreset presetName pos tgt w)) !! presetName
        = Some (mkPreset pos tgt) /\
      forall other, other <> presetName ->
        presets (controller (addPreset presetName pos tgt w)) !! other
          = presets (controller w) !! other) /\
  (reachable w ->
   forall key name now now1,
     In (key, name) hotkey_presets ->
     exists preset,
       presets (controller w) !! name = Some preset /\
       hotkey key now now1 w
         = fst (animateToPosition (preset_position preset) (preset_target preset)
                  now now1 w)).
Proof.
  split; [apply run_presets_some|]. split.
  - intros pos tgt. cbn. split; [apply lookup_insert_eq|].
    intros other Hne. apply lookup_insert_ne. congruence.
  - intros Hr key name now now1 Hin.
    assert (Hs : is_Some (presets (controller w) !! name)).
    { apply reachable_presets; [exact Hr|].
      cbn in Hin. destruct Hin as [[= <- <-]|[[= <- <-]|[[= <- <-]|[[= <- <-]|[]]]]];
        eexists; reflexivity. }
    destruct Hs as [preset Hp]. exists preset. split; [exact Hp|].
    cbn in Hin. destruct Hin as [[= <- <-]|[[= <- <-]|[[= <- <-]|[[= <- <-]|[]]]]];
      unfold hotkey; cbn [String.eqb Ascii.eqb Bool.eqb];
      unfold animateToPreset, presets_get; rewrite Hp; reflexivity.
Qed.

Hypothesis idle_controls : keeps_pose L.

(** X19. A saved view is restored, with orbit controls that leave
    position and target as they are.  After [saveCurrentAsPreset] under a
    name, and any calls and events that do not redefine that name,
    [animateToPreset] with the name (in a controller that is not animating)
    ends with the camera at the position and look-target it had when the
    view was saved. *)
Theorem saved_view_is_restored
  (w : World) (presetName : string) (inputs : list Input)
  (now now1 tend : Q) (times : list Q) :
  reachable w ->
  Forall (keeps_preset presetName) inputs ->
  isAnimating (controller (run inputs (saveCurrentAsPreset presetName w))) = false ->
  animationDuration (controller (run inputs (saveCurrentAsPreset presetName w)))
    <= tend - now ->
  at_rest (position (camera (controller w)))
          (target (orbitControls (controller w)))
    (animationFrames (times ++ [tend])
       (fst (animateToPreset presetName now now1
               (run inputs (saveCurrentAsPreset presetName w))))).
Proof.
  intros Hr Hall Hi Hend.
  set (w2 := run inputs (saveCurrentAsPreset presetName w)) in *.
  assert (Hr2 : reachable w2).
  { subst w2. apply reachable_run.
    exact (reachable_step (SaveCurrentAsPreset presetName) w Hr). }
  assert (Hp : presets (controller w2) !! presetName
               = Some (mkPreset (position (camera (controller w)))
                                (target (orbitControls (controller w))))).
  { subst w2. rewrite run_presets by exact Hall. cbn. apply lookup_insert_eq. }
  unfold animateToPreset, presets_get. rewrite Hp.
  cbn [preset_position preset_target].
  destruct (reachable_idle w2 Hr2 Hi) as [Hq Hd].
  set (P := position (camera (controller w))).
  set (T := target (orbitControls (controller w))).
  destruct (animateToPosition_starts idle_controls P T now now1 w2 Hi Hq Hd)
    as (Hs & Hdur & _).
  apply (finished_at_rest (closure P T now w2)).
  apply (animationFrames_complete idle_controls);
    [rewrite Hdur; exact Hd | exact Hs | rewrite Hdur; exact Hend].
Qed.

End Presets.

Section Promises.
Context {L : Library}.

Lemma settles_app (es fs : list Effect) :
  settles (es ++ fs) = settles es ++ settles fs.
Proof.
  induction es as [|e es IH]; [reflexivity|].
  destruct e; cbn [settles app]; rewrite IH; reflexivity.
Qed.

Ltac ledger_simpl :=
  unfold ledger;
  cbn [effects promises frameRequests controller emit on_controller
       requestAnimationFrame orbitControls_update];
  rewrite ?settles_app; cbn [settles]; rewrite ?app_nil_r.

Lemma animate_ledger (a : Animation) (now : Q) (w : World) :
  ledger (animate a now w)
    = if Qltb (progress a now (controller w)) 1
      then (settles (effects w), promises w, frameRequests w ++ [a])
      else (settles (effects w) ++ [promise a], promises w, frameRequests w).
Proof.
  unfold animate.
  change (progress a now (controller w)) with (progress a now (controller w)).
  destruct (Qltb (progress a now (controller w)) 1); ledger_simpl; reflexivity.
Qed.

Lemma stopFollowing_ledger (w : World) : ledger (stopFollowing w) = ledger w.
Proof.
  unfold stopFollowing. destruct (followTarget (controller w));
    ledger_simpl; reflexivity.
Qed.

Lemma update_ledger (scene : Object3D -> Vector3) (dt : Q) (w : World) :
  ledger (update scene dt w) = ledger w.
Proof.
  unfold update.
  assert (Hw : forall w0, ledger (updateWASDMovement dt w0) = ledger w0).
  { intros w0. unfold updateWASDMovement. destruct (inputManager (controller w0));
      [|reflexivity].
    destruct (Qltb 0 _); ledger_simpl; reflexivity. }
  assert (Hf : forall w0, ledger (updateFollowTarget scene w0) = ledger w0).
  { intros w0. unfold updateFollowTarget.
    destruct (followTarget (controller w0)); ledger_simpl; reflexivity. }
  set (w1 := if _ && _ then updateWASDMovement dt w else w).
  assert (H1 : ledger w1 = ledger w)
    by (subst w1; destruct (wasdEnabled (controller w) && _); [apply Hw | reflexivity]).
  set (w2 := if _ && _ then updateFollowTarget scene w1 else w1).
  assert (H2 : ledger w2 = ledger w1).
  { subst w2. destruct (match followTarget (controller w1) with
                        | Some _ => true | None => false end
                        && negb (isAnimating (controller w1)));
      [apply Hf | reflexivity]. }
  destruct (String.eqb _ "orbit");
    [change (ledger (orbitControls_update w2)) with (ledger w2)|]; congruence.
Qed.

Lemma book_ledger (w w' : World) : ledger w' = ledger w -> book w' = book w.
Proof. unfold ledger, book, pending. intros [= -> _ ->]. reflexivity. Qed.

Lemma promises_ledger (w w' : World) :
  ledger w' = ledger w -> promises w' = promises w.
Proof. unfold ledger. intros [= _ -> _]. reflexivity. Qed.

(** A call or event either leaves the promises as they are (up to a
    pending one that settles), or makes one new promise. *)
Lemma step_book (i : Input) (w : World) :
  consistent w ->
  (Permutation (book w) (book (step i w)) /\ promises (step i w) = promises w) \/
  (Permutation (promises w :: book w) (book (step i w)) /\
   promises (step i w) = S (promises w)).
Proof.
  intros [_ Hc].
  assert (Hquiet : forall w', ledger w' = ledger w ->
             Permutation (book w) (book w') /\ promises w' = promises w).
  { intros w' Hl. rewrite (book_ledger _ _ Hl), (promises_ledger _ _ Hl).
    split; reflexivity. }
  assert (Hpos : forall P T now now1,
             Permutation (promises w :: book w)
               (book (fst (animateToPosition P T now now1 w))) /\
             promises (fst (animateToPosition P T now now1 w)) = S (promises w)).
  { intros P T now now1. unfold animateToPosition, newPromise. cbn [controller].
    destruct (isAnimating (controller w)); cbn [fst].
    - unfold book, pending. ledger_simpl. split; [|reflexivity].
      rewrite <- app_assoc. apply Permutation_middle.
    - match goal with |- context [animate ?a now1 ?w0] =>
        pose proof (animate_ledger a now1 w0) as Hl;
        assert (H0 : ledger w0 = (settles (effects w), S (promises w), frameRequests w))
          by (rewrite stopFollowing_ledger; reflexivity);
        set (wa := animate a now1 w0) in *;
        set (pr := progress a now1 (controller w0)) in *
      end.
      unfold ledger in Hl, H0. injection H0 as Hr Hp Hq.
      rewrite Hr, Hp, Hq in Hl.
      unfold book, pending.
      destruct (Qltb pr 1); injection Hl as -> -> ->; (split; [|reflexivity]).
      + rewrite map_app. cbn [map promise]. rewrite app_assoc.
        apply Permutation_cons_append.
      + rewrite <- app_assoc. apply Permutation_middle. }
  destruct i; cbn [step].
  - right. apply Hpos.
  - right. unfold animateToPreset.
    destruct (presets_get (presets (controller w)) presetName); [apply Hpos| |];
      unfold newPromise, book, pending; cbn [fst]; ledger_simpl;
      (split; [|reflexivity]); rewrite <- app_assoc; apply Permutation_middle.
  - left. apply Hquiet. unfold followObject. destruct offset; ledger_simpl; reflexivity.
  - left. apply Hquiet, stopFollowing_ledger.
  - left. apply Hquiet, update_ledger.
  - left. unfold animationFrame.
    destruct Hc as [[_ Hq]|[_ [a Hq]]]; rewrite Hq; cbn [fold_left].
    + apply Hquiet. unfold ledger. cbn [effects promises frameRequests].
      rewrite Hq. reflexivity.
    + match goal with |- context [animate a now ?w0] =>
        pose proof (animate_ledger a now w0) as Hl;
        set (wa := animate a now w0) in *;
        set (pr := progress a now (controller w0)) in *
      end.
      unfold ledger in Hl. cbn [effects promises frameRequests] in Hl.
      unfold book, pending. rewrite Hq. cbn [map].
      destruct (Qltb pr 1); injection Hl as -> -> ->; (split; [|reflexivity]).
      * reflexivity.
      * cbn [map]. rewrite app_nil_r. reflexivity.
  - left. apply Hquiet. unfold setControlMode. ledger_simpl. reflexivity.
  - left. apply Hquiet. unfold setWASDEnabled. ledger_simpl. reflexivity.
  - left. apply Hquiet. reflexivity.
  - left. apply Hquiet. reflexivity.
  - left. apply Hquiet. unfold addPreset. ledger_simpl. reflexivity.
  - left. apply Hquiet. unfold saveCurrentAsPreset, addPreset. ledger_simpl. reflexivity.
  - left. apply Hquiet. reflexivity.
  - left. apply Hquiet. reflexivity.
Qed.

(** X20. Every promise settles once.  In every world that calls and events
    lead to, no promise has been settled (resolved or rejected) twice and
    none that has been settled still waits for a frame; the promises made
    so far are exactly those that have been settled or wait for a frame;
    and whenever the controller is not animating, every promise made so
    far has been settled. *)
Theorem every_promise_settles_once (w : World) :
  reachable w ->
  List.NoDup (book w) /\
  (forall p, In p (book w) <-> (p < promises w)%nat) /\
  (isAnimating (controller w) = false ->
   forall p, (p < promises w)%nat -> In p (settles (effects w))).
Proof.
  intros Hr.
  assert (Hinv : List.NoDup (book w) /\ forall p, In p (book w) <-> (p < promises w)%nat).
  { induction Hr as [cam orb im|i w Hr [Hn Hm]].
    - split; [constructor|]. intros p. cbn. lia.
    - destruct (step_book i w (reachable_consistent w Hr)) as [[Hp Hs]|[Hp Hs]];
        rewrite Hs.
      + split; [exact (Permutation_NoDup Hp Hn)|].
        intros p. rewrite <- Hm. split; intros Hin.
        * exact (Permutation_in p (Permutation_sym Hp) Hin).
        * exact (Permutation_in p Hp Hin).
      + assert (Hfresh : ~ In (promises w) (book w)) by (rewrite Hm; lia).
        split; [exact (Permutation_NoDup Hp (List.NoDup_cons _ Hfresh Hn))|].
        intros p. split; intros Hin.
        * apply (Permutation_in p (Permutation_sym Hp)) in Hin.
          destruct Hin as [<-|Hin]; [lia|]. apply Hm in Hin. lia.
        * apply (Permutation_in p Hp).
          destruct (Nat.eq_dec (promises w) p) as [He|Hne]; [left; exact He|].
          right. apply Hm. lia. }
  destruct Hinv as [Hn Hm]. split; [exact Hn|]. split; [exact Hm|].
  intros Hi p Hp. apply Hm in Hp.
  destruct (reachable_consistent w Hr) as [_ [[_ Hq]|[Ht _]]]; [|congruence].
  unfold book, pending in Hp. rewrite Hq, app_nil_r in Hp. exact Hp.
Qed.

End Promises.

#[local] Existing Instance idle.

Lemma wasd_keeps_offset_witness :
  veq (sub (position (camera (controller (updateWASDMovement (1 / 60) Space_held))))
           (target (orbitControls (controller (updateWASDMovement (1 / 60) Space_held)))))
      (sub (position (camera (controller Space_held)))
           (target (orbitControls (controller Space_held)))).
Proof. apply (proj1 (wasd_keeps_offset (1 / 60) Space_held)). reflexivity. Defined.

Lemma update_outside_orbit_mode_witness :
  update (fun _ => mkVector3 0 0 0) (1 / 60)
    (setWASDEnabled false (setControlMode "free" initial))
  = setWASDEnabled false (setControlMode "free" initial).
Proof.
  apply (update_outside_orbit_mode (fun _ => mkVector3 0 0 0) (1 / 60)
           (setWASDEnabled false (setControlMode "free" initial)));
    reflexivity.
Defined.

Lemma blur_stops_movement_witness :
  camera (controller (updateWASDMovement (1 / 60) (blur Space_held)))
    = camera (controller Space_held).
Proof.
  refine (proj1 (proj2 (blur_stops_movement (1 / 60) Space_held _))).
  vm_compute. discriminate.
Defined.

Lemma transition_stays_on_segment_witness :
  within (mkVector3 0 50 100) (mkVector3 0 20 50)
    (position (camera (controller
       (animate (closure (mkVector3 0 20 50) (mkVector3 0 0 0) 0 initial)
          500 initial)))).
Proof.
  refine (proj1 (transition_stays_on_segment CameraExamples.idle_keeps_pose
                   (closure (mkVector3 0 20 50) (mkVector3 0 0 0) 0 initial)
                   500 initial _ _)).
  - reflexivity.
  - discriminate.
Defined.

Lemma follow_closes_gap_witness :
  veq (sub (position (camera (controller
              (followTicks 3 (fun _ => mkVector3 45 0 0)
                 (followObject 7%nat None initial)))))
           (add (mkVector3 45 0 0) (mkVector3 10 10 10)))
      (multiplyScalar
         (sub (mkVector3 0 50 100) (add (mkVector3 45 0 0) (mkVector3 10 10 10)))
         (Qpow (1 - 2 / 100) 3)).
Proof.
  refine (proj1 (follow_closes_gap CameraExamples.idle_keeps_pose 3
                   (fun _ => mkVector3 45 0 0) 7%nat
                   (followObject 7%nat None initial) _)).
  reflexivity.
Defined.

Lemma presets_are_never_removed_witness :
  exists preset,
    presets (controller initial) !! "sun" = Some preset /\
    hotkey "Digit2" 0 0 initial
      = fst (animateToPosition (preset_position preset) (preset_target preset)
               0 0 initial).
Proof.
  refine (proj2 (proj2 (presets_are_never_removed initial [] "sun")) _
            "Digit2" "sun" 0 0 _).
  - exact (reachable_start _ _ _).
  - right. left. reflexivity.
Defined.

Lemma saved_view_is_restored_witness :
  at_rest (mkVector3 0 50 100) (mkVector3 0 0 0)
    (animationFrames ([1000] ++ [2500])
       (fst (animateToPreset "home" 500 500
               (run [AnimateToPreset "sun" 0 0; AnimationFrame 100; AnimationFrame 2000]
                  (saveCurrentAsPreset "home" initial))))).
Proof.
  refine (saved_view_is_restored CameraExamples.idle_keeps_pose initial "home"
            [AnimateToPreset "sun" 0 0; AnimationFrame 100; AnimationFrame 2000]
            500 500 2500 [1000] _ _ _ _).
  - exact (reachable_start _ _ _).
  - repeat constructor.
  - vm_compute. reflexivity.
  - vm_compute. discriminate.
Defined.

Lemma every_promise_settles_once_witness :
  List.NoDup (book (run [AnimateToPreset "sun" 0 0; AnimateToPreset "earth" 10 10;
                         AnimationFrame 2000] initial)).
Proof.
  refine (proj1 (every_promise_settles_once
                   (run [AnimateToPreset "sun" 0 0; AnimateToPreset "earth" 10 10;
                         AnimationFrame 2000] initial) _)).
  exact (reachable_run _ _ (reachable_start _ _ _)).
Defined.

End CameraExtra.

(** * More on the planets *)

Module PlanetExtra.
Import Planet SpaceScene.
Local Open Scope R_scope.

Lemma on_circle (r a : R) :
  (cos a * r) * (cos a * r) + (sin a * r) * (sin a * r) = r * r.
Proof.
  pose proof (sin2_cos2 a) as H. unfold Rsqr in H.
  transitivity ((sin a * sin a + cos a * cos a) * (r * r)); [ring|].
  rewrite H. ring.
Qed.

Lemma INR_128 : INR 128 = 128.
Proof. rewrite INR_IZR_INZ. reflexivity. Qed.

(** X21. A planet stays on the orbit line drawn for it.  The position that
    [update] gives a planet with an orbit lies in the plane [y = 0] at the
    orbit's radius from the centre, whatever the time; so does every point
    of the line of [createOrbitLine], whose 129 points start and end at
    [(r, 0, 0)]; and when the speed is not zero the position repeats after
    [2 pi / speed]. *)
Theorem planet_stays_on_orbit_line (p : Planet) (o : Orbit) (dt t : R) :
  orbit p = Some o ->
  (x (orbitGroup_position (Planet.update dt t p))
     * x (orbitGroup_position (Planet.update dt t p))
   + z (orbitGroup_position (Planet.update dt t p))
     * z (orbitGroup_position (Planet.update dt t p))
   = orbit_radius o * orbit_radius o /\
   y (orbitGroup_position (Planet.update dt t p)) = 0) /\
  (forall v, In v (createOrbitLine o) ->
             x v * x v + z v * z v = orbit_radius o * orbit_radius o /\ y v = 0) /\
  (length (createOrbitLine o) = 129%nat /\
   createOrbitLine o !! 0%nat = Some (mkVector3 (orbit_radius o) 0 0) /\
   createOrbitLine o !! 128%nat = Some (mkVector3 (orbit_radius o) 0 0)) /\
  (orbit_speed o <> 0 ->
   forall dt',
     orbitGroup_position (Planet.update dt' (t + 2 * PI / orbit_speed o) p)
       = orbitGroup_position (Planet.update dt t p)).
Proof.
  intros Ho. split; [|split; [|split]].
  - unfold Planet.update. cbn [orbitGroup_position]. rewrite Ho. cbn [x y z].
    split; [apply on_circle | reflexivity].
  - intros v Hv. unfold createOrbitLine in Hv. apply in_map_iff in Hv.
    destruct Hv as (i & <- & _). cbn [x y z]. split; [apply on_circle | reflexivity].
  - unfold createOrbitLine. split; [rewrite length_map, length_seq; reflexivity|].
    split.
    + rewrite list_lookup_fmap, lookup_seq_lt by lia. cbn [fmap option_fmap option_map].
      f_equal. change (INR (0 + 0)) with 0.
      replace (0 / INR 128 * PI * 2) with 0 by (rewrite INR_128; field).
      rewrite cos_0, sin_0. f_equal; Lra.lra.
    + rewrite list_lookup_fmap, lookup_seq_lt by lia. cbn [fmap option_fmap option_map].
      f_equal. change (0 + 128)%nat with 128%nat.
      replace (INR 128 / INR 128 * PI * 2) with (2 * PI) by (rewrite INR_128; field).
      rewrite cos_2PI, sin_2PI. f_equal; Lra.lra.
  - intros Hw dt'. unfold Planet.update. cbn [orbitGroup_position]. rewrite Ho.
    replace ((t + 2 * PI / orbit_speed o) * orbit_speed o)
      with (t * orbit_speed o + 2 * PI) by (field; exact Hw).
    rewrite cos_plus, sin_plus, cos_2PI, sin_2PI. f_equal; ring.
Qed.

Lemma planet_stays_on_orbit_line_witness :
  x (orbitGroup_position (Planet.update (1/60) 7 earth))
    * x (orbitGroup_position (Planet.update (1/60) 7 earth))
  + z (orbitGroup_position (Planet.update (1/60) 7 earth))
    * z (orbitGroup_position (Planet.update (1/60) 7 earth))
  = orbit_radius (mkOrbit 45 (1/100)) * orbit_radius (mkOrbit 45 (1/100)) /\
  y (orbitGroup_position (Planet.update (1/60) 7 earth)) = 0.
Proof.
  refine (proj1 (planet_stays_on_orbit_line earth (mkOrbit 45 (1/100)) (1/60) 7 _)).
  reflexivity.
Defined.

(** What an update of the scene leaves of a planet, and the spin after it. *)
Lemma updates_spin (steps : list R) (s : SpaceScene) (i : nat) (p : Planet) :
  planets s !! i = Some p ->
  exists q,
    planets (updates steps s) !! i = Some q /\
    rotation q = rotation p /\ orbit q = orbit p /\
    mesh_rotation (mesh q)
      = mkVector3 (x (mesh_rotation (mesh p)) + x (rotation p) * Rsum steps)
                  (y (mesh_rotation (mesh p)) + y (rotation p) * Rsum steps)
                  (z (mesh_rotation (mesh p)) + z (rotation p) * Rsum steps) /\
    rings q = option_map (fun rz => rz + 5/1000 * Rsum steps) (rings p) /\
    group_position q = group_position p /\
    (orbit p = None -> orbitGroup_position q = orbitGroup_position p).
Proof.
  intros Hp. induction steps as [|dt steps IH] using rev_ind.
  - exists p. split; [exact Hp|]. split; [reflexivity|]. split; [reflexivity|].
    cbn [Rsum fold_right]. split.
    { destruct (mesh_rotation (mesh p)) as [a b c]. cbn [x y z]. f_equal; Lra.lra. }
    split.
    { destruct (rings p) as [rz|]; [|reflexivity]. cbn. f_equal. Lra.lra. }
    split; reflexivity.
  - destruct IH as (q & Hq & Hrot & Horb & Hmesh & Hrings & Hgroup & Hrest).
    rewrite PlanetFacts.updates_snoc, PlanetFacts.Rsum_snoc.
    cbn [SpaceScene.update planets]. rewrite list_lookup_fmap, Hq.
    eexists. split; [reflexivity|].
    split; [exact Hrot|]. split; [exact Horb|]. split.
    { unfold Planet.update. cbn [mesh].
      destruct (String.eqb (name q) "Солнце");
        cbn [updateSunEffects mesh_rotation]; rewrite Hmesh, Hrot; cbn [x y z];
        f_equal; Lra.lra. }
    split.
    { unfold Planet.update. cbn [rings]. rewrite Hrings.
      destruct (rings p) as [rz|]; [|reflexivity]. cbn. f_equal. Lra.lra. }
    split; [exact Hgroup|].
    intros Hnone. unfold Planet.update. cbn [orbitGroup_position].
    rewrite Horb, Hnone. apply Hrest, Hnone.
Qed.

(** X22. The spin of a planet depends on the total time only.  After the
    scene has been updated through any sequence of logic steps, the mesh of
    each planet has turned by its rotation rate times the sum of the steps,
    and its rings by 0.005 times that sum, however the time was cut into
    steps; the group of the planet has not moved, and a planet without an
    orbit is where it was. *)
Theorem spin_depends_on_total_time
  (s : SpaceScene) (steps : list R) (i : nat) (p : Planet) :
  planets s !! i = Some p ->
  exists q,
    planets (updates steps s) !! i = Some q /\
    mesh_rotation (mesh q)
      = mkVector3 (x (mesh_rotation (mesh p)) + x (rotation p) * Rsum steps)
                  (y (mesh_rotation (mesh p)) + y (rotation p) * Rsum steps)
                  (z (mesh_rotation (mesh p)) + z (rotation p) * Rsum steps) /\
    rings q = option_map (fun rz => rz + 5/1000 * Rsum steps) (rings p) /\
    group_position q = group_position p /\
    (orbit p = None -> orbitGroup_position q = orbitGroup_position p).
Proof.
  intros Hp.
  destruct (updates_spin steps s i p Hp) as (q & Hq & _ & _ & Hm & Hr & Hg & Hrest).
  exists q. repeat (split; [assumption|]). exact Hrest.
Qed.

Lemma spin_depends_on_total_time_witness :
  exists q,
    planets (updates [1/60; 1/30] demo) !! 1%nat = Some q /\
    mesh_rotation (mesh q)
      = mkVector3 (x (mesh_rotation (mesh earth)) + x (rotation earth) * Rsum [1/60; 1/30])
                  (y (mesh_rotation (mesh earth)) + y (rotation earth) * Rsum [1/60; 1/30])
                  (z (mesh_rotation (mesh earth)) + z (rotation earth) * Rsum [1/60; 1/30]) /\
    rings q = option_map (fun rz => rz + 5/1000 * Rsum [1/60; 1/30]) (rings earth) /\
    group_position q = group_position earth /\
    (orbit earth = None -> orbitGroup_position q = orbitGroup_position earth).
Proof.
  refine (spin_depends_on_total_time demo [1/60; 1/30] 1 earth _).
  reflexivity.
Defined.

(** X23. The highlight of a selected planet lasts through the updates,
    except the enlargement of the Sun.  For a planet other than the Sun,
    [update] after [setSelected(true)] leaves the scale at 1.1; for every
    planet it leaves the selection flag, the glow and the orbit line as
    [setSelected] set them.  For the Sun the scale is overwritten: after an
    update it lies between 0.95 and 1.05, never at 1.1, and the emissive
    intensity lies between 0.6 and 1. *)
Theorem highlight_after_update (p : Planet) (dt t : R) :
  (isSelected (Planet.update dt t (setSelected true p)) = true /\
   selectionGlow (Planet.update dt t (setSelected true p))
     = selectionGlow (setSelected true p) /\
   orbitLine (Planet.update dt t (setSelected true p))
     = orbitLine (setSelected true p)) /\
  (name p <> "Солнце" ->
   mesh_scale (mesh (Planet.update dt t (setSelected true p))) = 11/10) /\
  (name p = "Солнце" ->
   95/100 <= mesh_scale (mesh (Planet.update dt t (setSelected true p))) <= 105/100 /\
   6/10 <= emissiveIntensity (mesh (Planet.update dt t (setSelected true p))) <= 1).
Proof.
  split; [repeat split|]. split.
  - intros Hn. unfold Planet.update. cbn [mesh name setSelected].
    rewrite (proj2 (String.eqb_neq _ _) Hn). reflexivity.
  - intros Hn. unfold Planet.update. cbn [mesh name setSelected].
    rewrite (proj2 (String.eqb_eq _ _) Hn).
    cbn [updateSunEffects mesh_scale emissiveIntensity].
    pose proof (SIN_bound (t * 2)) as [? ?].
    pose proof (SIN_bound (t * 3)) as [? ?].
    repeat split; Lra.lra.
Qed.

End PlanetExtra.

(** * More on picking *)

Module SpaceSceneExtra.
Import Planet SpaceScene.

Lemma setSelected_twice (a b : bool) (p : Planet) :
  setSelected a (setSelected b p) = setSelected a p.
Proof.
  unfold setSelected. cbn.
  destruct (selectionGlow p), (orbitLine p); reflexivity.
Qed.

Lemma alter_setSelected (a b : bool) (i : nat) (ps : list Planet) :
  alter (setSelected a) i (alter (setSelected b) i ps) = alter (setSelected a) i ps.
Proof.
  revert i. induction ps as [|p ps IH]; intros [|i]; cbn; try reflexivity.
  - rewrite setSelected_twice. reflexivity.
  - f_equal. apply IH.
Qed.

Lemma find_planet_alter (o : Object3D) (a : bool) (i : nat) (ps : list Planet) :
  find_planet o (alter (setSelected a) i ps) = find_planet o ps.
Proof.
  revert i. induction ps as [|p ps IH]; intros [|i]; cbn [alter list_alter find_planet];
    try reflexivity.
  change (find_planet o (list_alter (setSelected a) i ps))
    with (find_planet o (alter (setSelected a) i ps)).
  rewrite IH. reflexivity.
Qed.

(** X24. A second click at the same place changes nothing.  Whatever the
    ray hits, [onMouseClick] applied again with the same event and the same
    hits leaves the scene as the first click left it: the same planets with
    the same highlights, the same selection, the same pointer. *)
Theorem second_click_changes_nothing
  (event : MouseEvent) (intersects : list Intersection) (s : SpaceScene) :
  fst (onMouseClick event intersects (fst (onMouseClick event intersects s)))
    = fst (onMouseClick event intersects s).
Proof.
  unfold onMouseClick. destruct (camera s) eqn:Hcam; cbn [negb fst];
    [|rewrite Hcam; reflexivity].
  destruct intersects as [|first rest].
  - unfold deselectPlanet. cbn [selectedPlanet].
    destruct (selectedPlanet s); reflexivity.
  - cbn [planets].
    destruct (find_planet (object first) (planets s)) as [i|] eqn:Hf.
    + unfold selectPlanet, deselectPlanet. cbn [selectedPlanet].
      destruct (selectedPlanet s) as [j|];
        cbn [fst negb camera set_selection planets selectedPlanet innerWidth
             innerHeight time mouse];
        rewrite !find_planet_alter, Hf;
        cbn [fst negb camera set_selection planets selectedPlanet innerWidth
             innerHeight time mouse];
        rewrite !alter_setSelected; reflexivity.
    + cbn [fst negb camera planets]. rewrite Hf. reflexivity.
Qed.

End SpaceSceneExtra.
